(** * galahad / joeflow: workflow tasks on top of an ORM, a transaction
      manager and a task queue

    A shallow embedding of [galahad/models.py], [galahad/views.py] and
    [joeflow/views.py].  The Python code is written against Django (model
    [save], querysets, many-to-many managers, [transaction.atomic],
    [transaction.on_commit], [reverse], [get_object_or_404]) and a celery
    queue.  Those services are modelled here as an explicit world state that
    every operation threads through: a working copy of the database, the
    committed copy, the nesting depth of [atomic] blocks, the pending
    on-commit hooks, the messages handed to the queue and a clock.  Python
    exceptions are a second outcome of every operation; the world at the
    point of the raise is kept, so that "raises and writes nothing" can be
    stated. *)

From Stdlib Require Import ZArith String Ascii List Lia DecimalString DecimalPos.
From stdpp Require Import base gmap strings list sorting.

Open Scope string_scope.
Open Scope list_scope.
Open Scope Z_scope.

(** ** Exceptions *)

Inductive Exn :=
| ValueError
| KeyError
| AttributeError
| IndexError
| Http404
| DatabaseError
| IntegrityError
| NoReverseMatch
| OverflowError.

#[global] Instance Exn_eq_dec : EqDecision Exn.
Proof. solve_decision. Defined.

(** ** Text helpers: [str.strip], [str.lower], [str(int)], [int(str)] *)

(** [str.strip()] with no argument removes white space at both ends.  On the
    one-byte characters of a [string] these are tab, line feed, vertical tab,
    form feed, carriage return, the four separators 28..31 and the space. *)
Definition is_space (c : ascii) : bool :=
  let n := nat_of_ascii c in
  ((9 <=? n) && (n <=? 13) || (28 <=? n) && (n <=? 32))%nat.

Fixpoint lstrip (s : string) : string :=
  match s with
  | String c s' => if is_space c then lstrip s' else s
  | EmptyString => EmptyString
  end.

Fixpoint rstrip (s : string) : string :=
  match s with
  | String c s' =>
      match rstrip s' with
      | EmptyString => if is_space c then EmptyString else String c EmptyString
      | r => String c r
      end
  | EmptyString => EmptyString
  end.

Definition strip (s : string) : string := rstrip (lstrip s).

Definition lower_ascii (c : ascii) : ascii :=
  let n := nat_of_ascii c in
  if ((65 <=? n) && (n <=? 90))%nat then ascii_of_nat (n + 32) else c.

Fixpoint lower (s : string) : string :=
  match s with
  | String c s' => String (lower_ascii c) (lower s')
  | EmptyString => EmptyString
  end.

Definition str_of_Z (z : Z) : string := NilZero.string_of_int (Z.to_int z).

(** [int(text)], base ten, on a text of one-byte characters.  White space at
    both ends is skipped (tab, line feed, vertical tab, form feed, carriage
    return and the space), one sign may come first, and the digits may be
    grouped by single underscores between two digits.  [None] is the
    [ValueError] of a text that is no such numeral.  Outside the one-byte
    characters [int] also reads the decimal digits and the white space of
    other scripts, and from Python 3.11 on it refuses numerals of more than
    4300 digits; the properties below are stated for short texts of printable
    one-byte characters. *)
Definition is_int_space (c : ascii) : bool :=
  let n := nat_of_ascii c in
  ((9 <=? n) && (n <=? 13) || (n =? 32))%nat.

Definition digit_value (c : ascii) : option Z :=
  let n := nat_of_ascii c in
  if ((48 <=? n) && (n <=? 57))%nat then Some (Z.of_nat n - 48) else None.

Fixpoint digits_value (s : string) (acc : Z) (after_digit : bool) : option Z :=
  match s with
  | EmptyString => if after_digit then Some acc else None
  | String c s' =>
      match digit_value c with
      | Some d => digits_value s' (10 * acc + d) true
      | None =>
          if Ascii.eqb c "_" && after_digit then digits_value s' acc false
          else None
      end
  end.

Fixpoint skip_space (s : string) : string :=
  match s with
  | String c s' => if is_int_space c then skip_space s' else s
  | EmptyString => EmptyString
  end.

Fixpoint drop_trailing_space (s : string) : string :=
  match s with
  | String c s' =>
      match drop_trailing_space s' with
      | EmptyString => if is_int_space c then EmptyString else String c EmptyString
      | r => String c r
      end
  | EmptyString => EmptyString
  end.

Definition int_of_text (text : string) : option Z :=
  match drop_trailing_space (skip_space text) with
  | String c s =>
      if Ascii.eqb c "+" then digits_value s 0 false
      else if Ascii.eqb c "-" then Z.opp <$> digits_value s 0 false
      else digits_value (String c s) 0 false
  | EmptyString => None
  end.

(** The range of a [BigAutoField]: a signed integer of 64 bits. *)
Definition int64 (k : Z) : bool := (- 2 ^ 63 <=? k) && (k <? 2 ^ 63).

(** ** The data model *)

(** A [Task] instance.  The same record is the shape of a row of the task
    table; an instance that was never saved has [task_pk = None]. *)
Record Task := mkTask {
  task_pk : option Z;                 (* id = BigAutoField(primary_key) *)
  task_process_id : option Z;         (* _process_id *)
  task_content_type : option Z;       (* content_type_id *)
  task_node_name : string;
  task_node_type : string;
  task_status : string;
  task_completed_by_user : option Z;
  task_created : option Z;            (* auto_now_add *)
  task_modified : option Z;           (* auto_now *)
  task_completed : option Z;
  task_exception : string;
  task_stacktrace : string
}.

Definition HUMAN := "human".
Definition MACHINE := "machine".
Definition FAILED := "failed".
Definition SUCCEEDED := "succeeded".
Definition SCHEDULED := "scheduled".

Definition set_pk v (t : Task) : Task :=
  mkTask v (task_process_id t) (task_content_type t) (task_node_name t)
    (task_node_type t) (task_status t) (task_completed_by_user t)
    (task_created t) (task_modified t) (task_completed t)
    (task_exception t) (task_stacktrace t).
Definition set_process_id v (t : Task) : Task :=
  mkTask (task_pk t) v (task_content_type t) (task_node_name t)
    (task_node_type t) (task_status t) (task_completed_by_user t)
    (task_created t) (task_modified t) (task_completed t)
    (task_exception t) (task_stacktrace t).
Definition set_content_type v (t : Task) : Task :=
  mkTask (task_pk t) (task_process_id t) v (task_node_name t)
    (task_node_type t) (task_status t) (task_completed_by_user t)
    (task_created t) (task_modified t) (task_completed t)
    (task_exception t) (task_stacktrace t).
Definition set_node_name v (t : Task) : Task :=
  mkTask (task_pk t) (task_process_id t) (task_content_type t) v
    (task_node_type t) (task_status t) (task_completed_by_user t)
    (task_created t) (task_modified t) (task_completed t)
    (task_exception t) (task_stacktrace t).
Definition set_node_type v (t : Task) : Task :=
  mkTask (task_pk t) (task_process_id t) (task_content_type t)
    (task_node_name t) v (task_status t) (task_completed_by_user t)
    (task_created t) (task_modified t) (task_completed t)
    (task_exception t) (task_stacktrace t).
Definition set_status v (t : Task) : Task :=
  mkTask (task_pk t) (task_process_id t) (task_content_type t)
    (task_node_name t) (task_node_type t) v (task_completed_by_user t)
    (task_created t) (task_modified t) (task_completed t)
    (task_exception t) (task_stacktrace t).
Definition set_completed_by_user v (t : Task) : Task :=
  mkTask (task_pk t) (task_process_id t) (task_content_type t)
    (task_node_name t) (task_node_type t) (task_status t) v
    (task_created t) (task_modified t) (task_completed t)
    (task_exception t) (task_stacktrace t).
Definition set_created v (t : Task) : Task :=
  mkTask (task_pk t) (task_process_id t) (task_content_type t)
    (task_node_name t) (task_node_type t) (task_status t)
    (task_completed_by_user t) v (task_modified t) (task_completed t)
    (task_exception t) (task_stacktrace t).
Definition set_modified v (t : Task) : Task :=
  mkTask (task_pk t) (task_process_id t) (task_content_type t)
    (task_node_name t) (task_node_type t) (task_status t)
    (task_completed_by_user t) (task_created t) v (task_completed t)
    (task_exception t) (task_stacktrace t).
Definition set_completed v (t : Task) : Task :=
  mkTask (task_pk t) (task_process_id t) (task_content_type t)
    (task_node_name t) (task_node_type t) (task_status t)
    (task_completed_by_user t) (task_created t) (task_modified t) v
    (task_exception t) (task_stacktrace t).
Definition set_exception v (t : Task) : Task :=
  mkTask (task_pk t) (task_process_id t) (task_content_type t)
    (task_node_name t) (task_node_type t) (task_status t)
    (task_completed_by_user t) (task_created t) (task_modified t)
    (task_completed t) v (task_stacktrace t).
Definition set_stacktrace v (t : Task) : Task :=
  mkTask (task_pk t) (task_process_id t) (task_content_type t)
    (task_node_name t) (task_node_type t) (task_status t)
    (task_completed_by_user t) (task_created t) (task_modified t)
    (task_completed t) (task_exception t) v.

(** The [Task] constructor: a fresh instance with the field defaults of the model
    ([status] defaults to [SCHEDULED], text fields to the empty string). *)
Definition new_Task : Task :=
  mkTask None None None "" "" SCHEDULED None None None None "" "".

(** A [Process] instance / row.  [process_data] stands for the columns a
    concrete workflow adds to the base model. *)
Record Process := mkProcess {
  process_pk : option Z;
  process_created : option Z;
  process_modified : option Z;
  process_data : string
}.

(** The database.  [parent_links] is the through table of
    [Task.parent_task_set]: a pair [(c, p)] says that task [p] is in the
    parent set of task [c].  The table is a set: the many-to-many manager
    never stores a pair twice. *)
Record Store := mkStore {
  tasks : gmap Z Task;
  parent_links : gset (Z * Z);
  processes : gmap Z Process;
  next_task_id : Z;
  next_process_id : Z
}.

(** What [celery.task_wrapper.apply_async] is given by [Task.enqueue]:
    [args=(self.pk, self._process_id)], [countdown] and [eta].  The queue
    name is a constant of the settings and is left out. *)
Record Message := mkMessage {
  msg_pk : option Z;
  msg_process_id : option Z;
  msg_countdown : option Z;
  msg_eta : option Z
}.

(** The two callables this code passes to [transaction.on_commit]: the bound
    method [task.enqueue] (in [start_next_tasks]) and the lambda of
    [enqueue] that calls [apply_async]. *)
Inductive Hook :=
| HookEnqueue (t : Task)
| HookApplyAsync (m : Message).

Record World := mkWorld {
  store : Store;               (* what queries inside the connection see *)
  committed : Store;           (* what other connections (the workers) see *)
  atomic_depth : nat;          (* number of open [atomic] blocks *)
  run_on_commit : list Hook;   (* connection.run_on_commit *)
  queue : list Message;        (* messages handed to the task queue, oldest first *)
  clock : Z
}.

Definition in_atomic_block (w : World) : bool :=
  negb (Nat.eqb (atomic_depth w) 0).

(** ** Computations: world passing with exceptions *)

Inductive Outcome (A : Type) :=
| Ok (a : A) (w : World)
| Raise (e : Exn) (w : World).
Arguments Ok {A} a w.
Arguments Raise {A} e w.

Definition M (A : Type) : Type := World -> Outcome A.

Definition world_of {A} (o : Outcome A) : World :=
  match o with Ok _ w => w | Raise _ w => w end.

Definition ret {A} (a : A) : M A := fun w => Ok a w.
Definition raise {A} (e : Exn) : M A := fun w => Raise e w.
Definition bind {A B} (m : M A) (k : A -> M B) : M B := fun w =>
  match m w with
  | Ok a w' => k a w'
  | Raise e w' => Raise e w'
  end.

Notation "x <~ m ;; k" := (bind m (fun x => k))
  (at level 100, m at next level, right associativity).
Notation "m ;;; k" := (bind m (fun _ => k))
  (at level 100, right associativity).

(** [try: m except e: handler] *)
Definition try_except {A} (m : M A) (e : Exn) (handler : M A) : M A := fun w =>
  match m w with
  | Ok a w' => Ok a w'
  | Raise e' w' => if decide (e' = e) then handler w' else Raise e' w'
  end.

Definition get_store : M Store := fun w => Ok (store w) w.

(** The world after a write statement that leaves the database as [s].
    Outside every [atomic] block the connection is in autocommit mode and the
    write is durable at once. *)
Definition after_write (s : Store) (w : World) : World :=
  mkWorld s (if in_atomic_block w then committed w else s)
    (atomic_depth w) (run_on_commit w) (queue w) (clock w).

Definition write_store (f : Store -> Store) : M unit := fun w =>
  Ok tt (after_write (f (store w)) w).

Definition tick (w : World) : World :=
  mkWorld (store w) (committed w) (atomic_depth w) (run_on_commit w)
    (queue w) (clock w + 1).

(** [timezone.now()]: reads the clock; time moves on between two reads. *)
Definition timezone_now : M Z := fun w => Ok (clock w) (tick w).

Fixpoint mapM {A B} (f : A -> M B) (l : list A) : M (list B) :=
  match l with
  | [] => ret []
  | x :: l' => y <~ f x ;; ys <~ mapM f l' ;; ret (y :: ys)
  end.

(** ** The ORM: saving a task *)

(** The concrete fields of [Task] that [update_fields] may name (the
    primary key is not among them), each with the assignment that copies the
    column from an instance into a row. *)
Definition task_fields : list (string * (Task -> Task -> Task)) :=
  [ ("_process", fun src => set_process_id (task_process_id src));
    ("_process_id", fun src => set_process_id (task_process_id src));
    ("content_type", fun src => set_content_type (task_content_type src));
    ("content_type_id", fun src => set_content_type (task_content_type src));
    ("node_name", fun src => set_node_name (task_node_name src));
    ("node_type", fun src => set_node_type (task_node_type src));
    ("status", fun src => set_status (task_status src));
    ("completed_by_user", fun src => set_completed_by_user (task_completed_by_user src));
    ("completed_by_user_id", fun src => set_completed_by_user (task_completed_by_user src));
    ("created", fun src => set_created (task_created src));
    ("modified", fun src => set_modified (task_modified src));
    ("completed", fun src => set_completed (task_completed src));
    ("exception", fun src => set_exception (task_exception src));
    ("stacktrace", fun src => set_stacktrace (task_stacktrace src)) ].

Definition task_field (f : string) : option (Task -> Task -> Task) :=
  snd <$> find (fun p => String.eqb (fst p) f) task_fields.

Definition is_task_field (f : string) : bool :=
  match task_field f with Some _ => true | None => false end.

(** [UPDATE task SET f1 = ..., f2 = ... WHERE id = ...]: only the listed
    columns of the row take the value of the instance. *)
Fixpoint update_columns (fs : list string) (src row : Task) : Task :=
  match fs with
  | [] => row
  | f :: fs' =>
      update_columns fs' src
        (match task_field f with Some copy => copy src row | None => row end)
  end.

(** The store after an UPDATE of the row with key [p]. *)
Definition set_task (p : Z) (row : Task) (s : Store) : Store :=
  mkStore (<[p := row]> (tasks s)) (parent_links s) (processes s)
    (next_task_id s) (next_process_id s).

(** The store after an INSERT with key [p]; the sequence moves past [p]. *)
Definition put_task (p : Z) (row : Task) (s : Store) : Store :=
  mkStore (<[p := row]> (tasks s)) (parent_links s) (processes s)
    (Z.max (next_task_id s) (p + 1)) (next_process_id s).

(** [INSERT]: [created] (auto_now_add) and [modified] (auto_now) are stamped,
    the key is drawn from the sequence unless the instance carries one, and
    the row must name an existing process and a content type (both columns
    are NOT NULL foreign keys).  The foreign key is checked with the
    statement, as the database does it in autocommit mode; inside a
    transaction the database defers that check to the commit, and the
    properties below that reach the missing process are stated for
    autocommit mode or for a stored process. *)
Definition insert_task (self : Task) : M Task :=
  c <~ timezone_now ;;
  m <~ timezone_now ;;
  let self := set_modified (Some m) (set_created (Some c) self) in
  s <~ get_store ;;
  match task_process_id self, task_content_type self with
  | Some pid, Some _ =>
      match processes s !! pid with
      | Some _ =>
          let p := match task_pk self with Some p => p | None => next_task_id s end in
          let self := set_pk (Some p) self in
          write_store (put_task p self) ;;; ret self
      | None => raise IntegrityError
      end
  | _, _ => raise IntegrityError
  end.

(** [models.Model.save] for a task: what the call [super().save] does with
    the keyword [update_fields] (absent = [None]). *)
Definition Model_save (self : Task) (update_fields : option (list string)) : M Task :=
  match update_fields with
  | Some [] => ret self
  | Some fs =>
      if negb (forallb is_task_field fs) then raise ValueError
      else
        match task_pk self with
        | None => raise ValueError
        | Some p =>
            self <~ (if existsb (String.eqb "modified") fs
                     then m <~ timezone_now ;; ret (set_modified (Some m) self)
                     else ret self) ;;
            s <~ get_store ;;
            match tasks s !! p with
            | Some row =>
                write_store (set_task p (update_columns fs self row)) ;;; ret self
            | None => raise DatabaseError
            end
        end
  | None =>
      match task_pk self with
      | Some p =>
          m <~ timezone_now ;;
          let self := set_modified (Some m) self in
          s <~ get_store ;;
          match tasks s !! p with
          | Some _ => write_store (set_task p self) ;;; ret self
          | None => insert_task self
          end
      | None => insert_task self
      end
  end.

(** Truth value of [self.pk] in [if self.pk:]. *)
Definition truthy (pk : option Z) : bool :=
  match pk with
  | Some z => negb (z =? 0)
  | None => false
  end.

(** ** [Task] (models.py) *)

(** [Task.save]; [update_fields = None] is a call without the
    keyword (the [KeyError] branch). *)
Definition Task_save (self : Task) (update_fields : option (list string)) : M Task :=
  if truthy (task_pk self) then
    match update_fields with
    | None => raise ValueError
    | Some fs => Model_save self (Some (fs ++ ["modified"]))
    end
  else Model_save self update_fields.

(** [Task.finish(user)]; returns the mutated instance. *)
Definition Task_finish (self : Task) (user : option Z) : M Task :=
  now <~ timezone_now ;;
  let self := set_completed (Some now) self in
  let self := set_status SUCCEEDED self in
  let self := set_completed_by_user user self in
  if truthy (task_pk self) then
    Task_save self (Some ["status"; "completed"; "completed_by_user"])
  else Task_save self None.

(** [Task.fail()]; [tb] is the list of lines that
    [traceback.format_exception( *sys.exc_info())] returns. *)
Definition Task_fail (self : Task) (tb : list string) : M Task :=
  now <~ timezone_now ;;
  let self := set_completed (Some now) self in
  let self := set_status FAILED self in
  match last tb with
  | None => raise IndexError
  | Some line =>
      let self := set_exception (strip line) self in
      let self := set_stacktrace (String.concat "" tb) self in
      Task_save self (Some ["status"; "exception"; "stacktrace"])
  end.

(** ** Transactions and the queue *)

Definition send (m : Message) (w : World) : World :=
  mkWorld (store w) (committed w) (atomic_depth w) (run_on_commit w)
    (queue w ++ [m]) (clock w).

Definition push_hook (h : Hook) (w : World) : World :=
  mkWorld (store w) (committed w) (atomic_depth w) (run_on_commit w ++ [h])
    (queue w) (clock w).

(** Modelled from the spec: [celery.task_wrapper.apply_async] of
    [galahad/celery.py], which is not among the sources; the spec says that a
    machine task is scheduled via a distributed task queue.  The call hands
    one message to the queue. *)
Definition apply_async (m : Message) : M unit := fun w => Ok tt (send m w).

(** [transaction.on_commit(func)]: inside an [atomic] block the callable is
    kept for the commit; in autocommit mode it is called at once.  [h] names
    the callable and [call] is what calling it does. *)
Definition on_commit (h : Hook) (call : M unit) : M unit := fun w =>
  if in_atomic_block w then Ok tt (push_hook h w) else call w.

(** [Task.enqueue(countdown, eta)]; returns the mutated instance. *)
Definition Task_enqueue (self : Task) (countdown eta : option Z) : M Task :=
  let self := set_status SCHEDULED self in
  let self := set_completed None self in
  let self := set_exception "" self in
  let self := set_stacktrace "" self in
  self <~ Task_save self (Some ["status"; "completed"; "exception"; "stacktrace"]) ;;
  let m := mkMessage (task_pk self) (task_process_id self) countdown eta in
  on_commit (HookApplyAsync m) (apply_async m) ;;;
  ret self.

(** Calling a stored hook. *)
Definition run_hook (h : Hook) : M unit :=
  match h with
  | HookEnqueue t => Task_enqueue t None None ;;; ret tt
  | HookApplyAsync m => apply_async m
  end.

(** [with transaction.atomic(): body].  An inner block is a savepoint of the
    enclosing transaction.  Leaving the outermost block commits, puts the
    connection back in autocommit mode and then calls the pending hooks in
    order.  An exception rolls the database back to the state at entry and
    drops the hooks registered inside the block; messages already handed to
    the queue and the time that passed are not undone. *)
Definition enter_atomic (w : World) : World :=
  mkWorld (store w) (committed w) (S (atomic_depth w)) (run_on_commit w)
    (queue w) (clock w).

Definition release_savepoint (w w' : World) : World :=
  mkWorld (store w') (committed w') (atomic_depth w) (run_on_commit w')
    (queue w') (clock w').

Definition commit (w' : World) : World :=
  mkWorld (store w') (store w') 0 [] (queue w') (clock w').

Definition rollback (w w' : World) : World :=
  mkWorld (store w) (committed w') (atomic_depth w) (run_on_commit w)
    (queue w') (clock w').

Definition atomic {A} (body : M A) : M A := fun w =>
  match body (enter_atomic w) with
  | Ok a w' =>
      if in_atomic_block w then Ok a (release_savepoint w w')
      else
        match mapM run_hook (run_on_commit w') (commit w') with
        | Ok _ w'' => Ok a w''
        | Raise e w'' => Raise e w''
        end
  | Raise e w' => Raise e (rollback w w')
  end.

(** ** The ORM: saving a process, relations and queries *)

Definition process_fields : list (string * (Process -> Process -> Process)) :=
  [ ("created", fun src row =>
       mkProcess (process_pk row) (process_created src) (process_modified row) (process_data row));
    ("modified", fun src row =>
       mkProcess (process_pk row) (process_created row) (process_modified src) (process_data row));
    ("data", fun src row =>
       mkProcess (process_pk row) (process_created row) (process_modified row) (process_data src)) ].

Definition process_field (f : string) : option (Process -> Process -> Process) :=
  snd <$> find (fun p => String.eqb (fst p) f) process_fields.

Definition is_process_field (f : string) : bool :=
  match process_field f with Some _ => true | None => false end.

Fixpoint update_process_columns (fs : list string) (src row : Process) : Process :=
  match fs with
  | [] => row
  | f :: fs' =>
      update_process_columns fs' src
        (match process_field f with Some copy => copy src row | None => row end)
  end.

Definition set_process (p : Z) (row : Process) (s : Store) : Store :=
  mkStore (tasks s) (parent_links s) (<[p := row]> (processes s))
    (next_task_id s) (next_process_id s).

Definition put_process (p : Z) (row : Process) (s : Store) : Store :=
  mkStore (tasks s) (parent_links s) (<[p := row]> (processes s))
    (next_task_id s) (Z.max (next_process_id s) (p + 1)).

Definition insert_process (self : Process) : M Process :=
  c <~ timezone_now ;;
  m <~ timezone_now ;;
  s <~ get_store ;;
  let p := match process_pk self with Some p => p | None => next_process_id s end in
  let self := mkProcess (Some p) (Some c) (Some m) (process_data self) in
  write_store (put_process p self) ;;; ret self.

(** [models.Model.save] for a process. *)
Definition Model_save_process (self : Process) (update_fields : option (list string))
  : M Process :=
  match update_fields with
  | Some [] => ret self
  | Some fs =>
      if negb (forallb is_process_field fs) then raise ValueError
      else
        match process_pk self with
        | None => raise ValueError
        | Some p =>
            self <~ (if existsb (String.eqb "modified") fs
                     then m <~ timezone_now ;;
                          ret (mkProcess (process_pk self) (process_created self)
                                 (Some m) (process_data self))
                     else ret self) ;;
            s <~ get_store ;;
            match processes s !! p with
            | Some row =>
                write_store (set_process p (update_process_columns fs self row)) ;;;
                ret self
            | None => raise DatabaseError
            end
        end
  | None =>
      match process_pk self with
      | Some p =>
          m <~ timezone_now ;;
          let self := mkProcess (process_pk self) (process_created self)
                        (Some m) (process_data self) in
          s <~ get_store ;;
          match processes s !! p with
          | Some _ => write_store (set_process p self) ;;; ret self
          | None => insert_process self
          end
      | None => insert_process self
      end
  end.

(** The store after [(c, p)] is put into the through table. *)
Definition add_parent (c p : Z) (s : Store) : Store :=
  mkStore (tasks s) ({[ (c, p) ]} ∪ parent_links s) (processes s)
    (next_task_id s) (next_process_id s).

(** The store after the parent set of [c] is replaced by [ps]. *)
Definition set_parents (c : Z) (ps : list Z) (s : Store) : Store :=
  mkStore (tasks s)
    (filter (fun l => l.1 ≠ c) (parent_links s)
       ∪ list_to_set ((fun p => (c, p)) <$> ps))
    (processes s) (next_task_id s) (next_process_id s).

(** [task.parent_task_set.add(parent)].  Both instances need a key, and the
    through table references existing task rows. *)
Definition parent_task_set_add (task parent : Task) : M unit :=
  match task_pk task, task_pk parent with
  | Some c, Some p =>
      s <~ get_store ;;
      match tasks s !! c, tasks s !! p with
      | Some _, Some _ => write_store (add_parent c p)
      | _, _ => raise IntegrityError
      end
  | _, _ => raise ValueError
  end.

Fixpoint task_pks (objs : list Task) : option (list Z) :=
  match objs with
  | [] => Some []
  | o :: objs' =>
      match task_pk o, task_pks objs' with
      | Some p, Some ps => Some (p :: ps)
      | _, _ => None
      end
  end.

(** [task.parent_task_set.set(objs)]: afterwards the parent set of [task] is
    exactly [objs]; pairs of other tasks are not touched. *)
Definition parent_task_set_set (task : Task) (objs : list Task) : M unit :=
  match task_pk task, task_pks objs with
  | Some c, Some ps =>
      s <~ get_store ;;
      if bool_decide (is_Some (tasks s !! c))
         && forallb (fun p => bool_decide (is_Some (tasks s !! p))) ps
      then write_store (set_parents c ps)
      else raise IntegrityError
  | _, _ => raise ValueError
  end.

(** The parent set of the task with key [c]. *)
Definition parents_of (s : Store) (c : Z) : gset Z :=
  set_map snd (filter (fun l => l.1 = c) (parent_links s)).

(** [Meta.ordering = ('-completed', '-created')] on rows whose [completed] is
    NULL: newest [created] first. *)
Definition created_desc (a b : Task) : Prop :=
  default 0 (task_created b) ≤ default 0 (task_created a).

#[global] Instance created_desc_dec a b : Decision (created_desc a b).
Proof. unfold created_desc. apply _. Defined.

(** ** Nodes and process classes (models.py) *)

(** A node of a workflow graph: an attribute of the process class that occurs
    in [edges].  The metaclass [BaseProcess] stores the attribute name on the
    node as [node_name].  The other fields are the tests the code applies to a
    node: [isinstance(node, views.TaskViewMixin)] (a human node: an instance
    of a task view), [isinstance(node, BaseCreateView)], [callable(node)] (a
    node a machine can execute: a function; a view instance is not callable),
    and whether the node has a method [create_task] of its own (which is then
    given [self.process]). *)
Record Node := mkNode {
  node_name : string;
  is_task_view : bool;
  is_create_view : bool;
  is_callable : bool;
  create_task : option (option Process -> M Task)
}.

(** Modelled from the spec: the constants [tasks.HUMAN] and [tasks.MACHINE]
    of [galahad/tasks.py], which is not among the sources; the spec names the
    two node types human and machine, the values of [Task.HUMAN] and
    [Task.MACHINE].  [node_type] is the assignment of [BaseProcess.__new__]. *)
Definition node_type (n : Node) : string :=
  if is_task_view n then HUMAN else MACHINE.

Record ProcessClass := mkProcessClass {
  cls_name : string;              (* cls.__name__ *)
  cls_content_type : Z;           (* key of the class in the content-type table *)
  edges : list (Node * Node)
}.

(** Python builds a [set] of the node objects.  Node objects are told apart
    by their attribute name here, and the set is enumerated in the order of
    first occurrence in [edges]; Python leaves the order open. *)
Definition set_add (n : Node) (nodes : list Node) : list Node :=
  if existsb (fun m => String.eqb (node_name m) (node_name n)) nodes
  then nodes else nodes ++ [n].

Definition node_set (cls : ProcessClass) : list Node :=
  fold_left (fun nodes (edge : Node * Node) => set_add edge.2 (set_add edge.1 nodes))
    (edges cls) [].

Definition get_nodes (cls : ProcessClass) : list (string * Node) :=
  (fun n => (node_name n, n)) <$> node_set cls.

Definition get_url_namespace (cls : ProcessClass) : string := lower (cls_name cls).

Inductive View :=
| TaskView (node_name : string)   (* cls._wrap_view_instance(name, node) *)
| ProcessDetailView
| ManualOverrideView.

Record UrlPattern := path {
  route : string;
  view : View;
  url_name : string
}.

(** [Process.urls()] *)
Definition urls (cls : ProcessClass) : list UrlPattern * string :=
  let urls :=
    fold_left (fun urls (item : string * Node) =>
      let (name, node) := item in
      if is_task_view node then
        let route := if is_create_view node
                     then name +:+ "/"
                     else name +:+ "/<pk>/" in
        urls ++ [path route (TaskView name) name]
      else urls) (get_nodes cls) [] in
  (urls ++ [ path "<pk>/" ProcessDetailView "detail";
             path "<pk>/override" ManualOverrideView "override" ],
   get_url_namespace cls).

(** [dict(pairs)[name]]: a later pair with the same key wins. *)
Definition dict_get {A} (pairs : list (string * A)) (name : string) : option A :=
  snd <$> find (fun p => String.eqb (fst p) name) (reverse pairs).

(** [Process.get_node(name)] *)
Definition get_node (cls : ProcessClass) (name : string) : M Node :=
  match dict_get (get_nodes cls) name with
  | Some n => ret n
  | None => raise KeyError
  end.

(** [Process.get_next_nodes(prev_node)] *)
Definition get_next_nodes (cls : ProcessClass) (prev_node : Node) : list Node :=
  snd <$> filter (fun edge : Node * Node =>
                    node_name edge.1 = node_name prev_node) (edges cls).

(** [Process.save]; [update_fields = None] is a call without the keyword. *)
Definition Process_save (self : Process) (update_fields : option (list string))
  : M Process :=
  if truthy (process_pk self) then
    match update_fields with
    | None => Model_save_process self None
    | Some fs => Model_save_process self (Some (fs ++ ["modified"]))
    end
  else Model_save_process self update_fields.

(** ** [Process.finish] and the managers of [Task] (models.py) *)

(** [Process.finish()].  The assignment [self.completed = timezone.now()]
    sets a plain attribute of the instance: the model declares no column of
    that name (its columns are [id], [created], [modified] and what a workflow
    adds, [process_data] here), so the columns of the instance are as before
    when [save] is called with [update_fields=['completed']]. *)
Definition Process_finish (self : Process) : M Process :=
  now <~ timezone_now ;;
  Process_save self (Some ["completed"]).

(** A queryset is lazy: it stands for the condition its rows satisfy, and
    [filter] and [exclude] return a queryset with one more condition. *)
Definition QuerySet : Type := Task -> bool.

(** [Task.objects.all()] *)
Definition objects_all : QuerySet := fun _ => true.

Definition qs_filter (cond : Task -> bool) (self : QuerySet) : QuerySet :=
  fun t => self t && cond t.

Definition qs_exclude (cond : Task -> bool) (self : QuerySet) : QuerySet :=
  fun t => self t && negb (cond t).

(** The condition [status=value] *)
Definition status_is (value : string) (t : Task) : bool :=
  String.eqb (task_status t) value.

(** [TasksQuerySet.scheduled], [succeeded], [not_succeeded], [failed] *)
Definition scheduled (self : QuerySet) : QuerySet := qs_filter (status_is SCHEDULED) self.

Definition succeeded (self : QuerySet) : QuerySet := qs_filter (status_is SUCCEEDED) self.

Definition not_succeeded (self : QuerySet) : QuerySet :=
  qs_exclude (status_is SUCCEEDED) self.

Definition failed (self : QuerySet) : QuerySet := qs_filter (status_is FAILED) self.

(** Whether the row with key [p] is among the rows a queryset yields when it
    is evaluated on the store [s]. *)
Definition yields (self : QuerySet) (s : Store) (p : Z) : bool :=
  match tasks s !! p with
  | Some row => self row
  | None => false
  end.

(** ** The process graph (models.py) and the choices of the override form
       (galahad/views.py) *)

(** [dict(pairs).keys()]: the keys in the order in which they were first
    inserted. *)
Definition dict_keys {A} (pairs : list (string * A)) : list string :=
  fold_left (fun keys (item : string * A) =>
               if existsb (String.eqb item.1) keys then keys else keys ++ [item.1])
    pairs [].

(** [ManualOverrideView.get_task_choices(process)] *)
Definition get_task_choices (cls : ProcessClass) : list (string * string) :=
  (fun name => (name, name)) <$> dict_keys (get_nodes cls).

(** What [get_graph] hands to graphviz, statement by statement:
    [graph.attr(kw, ...)], [graph.node(name, ...)] and
    [graph.edge(tail_name, head_name, ...)], each with its attributes. *)
Inductive Statement :=
| GraphAttr (kw : string) (attrs : list (string * string))
| GraphNode (name : string) (attrs : list (string * string))
| GraphEdge (tail_name head_name : string) (attrs : list (string * string)).

(** [Process.get_graph(color)] *)
Definition get_graph (cls : ProcessClass) (color : string) : list Statement :=
  let graph :=
    [ GraphAttr "graph" [ ("rankdir", "LR") ];
      GraphAttr "node" [ ("fontname", "sans-serif"); ("shape", "rect");
                         ("style", "filled"); ("fillcolor", "white") ] ] in
  let graph :=
    fold_left (fun graph (item : string * Node) =>
      let (name, node) := item in
      let node_style := "filled" in
      let node_style :=
        if String.eqb (node_type node) HUMAN then node_style +:+ ", rounded"
        else node_style in
      graph ++ [ GraphNode name
                   [ ("style", node_style); ("color", color); ("fontcolor", color) ] ])
      (get_nodes cls) graph in
  fold_left (fun graph (e : Node * Node) =>
               graph ++ [ GraphEdge (node_name e.1) (node_name e.2) [] ])
    (edges cls) graph.

(** ** Tasks and their process *)

(** [task.process], a generic foreign key: the process row named by
    [content_type] and [_process_id], or [None]. *)
Definition Task_process (self : Task) : M (option Process) :=
  s <~ get_store ;;
  ret (match task_content_type self, task_process_id self with
       | Some _, Some pid => processes s !! pid
       | _, _ => None
       end).

(** Attribute access on [self.process]: on [None] it raises. *)
Definition process_of (self : Task) : M Process :=
  p <~ Task_process self ;;
  match p with
  | Some p => ret p
  | None => raise AttributeError
  end.

(** [Process.manual_override = views.ManualOverrideView]: the class object,
    whose attribute [node_name] is ['manual_override']; a class is callable
    and is no instance of a view. *)
Definition manual_override : Node :=
  mkNode "manual_override" false false true None.

(** [getattr(process, name)] as far as it yields a node: the class attribute
    of that name, a node of the graph or [manual_override]. *)
Definition getattr_node (cls : ProcessClass) (name : string) : option Node :=
  match dict_get (get_nodes cls) name with
  | Some n => Some n
  | None => if String.eqb name "manual_override" then Some manual_override else None
  end.

(** [Task.node = getattr(self.process, self.node_name)] *)
Definition Task_node (cls : ProcessClass) (self : Task) : M Node :=
  process_of self ;;;
  match getattr_node cls (task_node_name self) with
  | Some n => ret n
  | None => raise AttributeError
  end.

(** [process.task_set.create(node_name=..., node_type=...)] *)
Definition task_set_create (cls : ProcessClass) (process : Process)
    (name type : string) : M Task :=
  Task_save
    (set_node_type type
       (set_node_name name
          (set_content_type (Some (cls_content_type cls))
             (set_process_id (process_pk process) new_Task))))
    None.

Definition in_task_set (cls : ProcessClass) (process : Process) (t : Task) : bool :=
  bool_decide (task_content_type t = Some (cls_content_type cls))
  && bool_decide (is_Some (process_pk process))
  && bool_decide (task_process_id t = process_pk process).

(** [list(process.task_set.filter(completed=None))] *)
Definition active_tasks_of (cls : ProcessClass) (process : Process) : M (list Task) :=
  s <~ get_store ;;
  ret (merge_sort created_desc
         (filter (fun t => in_task_set cls process t = true ∧ task_completed t = None)
            (snd <$> map_to_list (tasks s)))).

(** [Task.start_next_tasks(next_nodes)].  [next_nodes] is an iterable whose
    items are produced while the loop runs (the override view passes a
    generator that looks each node up by name), so an item is a computation
    that may raise.  [start_task] is the body of the [for] loop. *)
Definition start_task (cls : ProcessClass) (self : Task) (item : M Node) : M Task :=
  node <~ item ;;
  task <~ try_except
            (match create_task node with
             | Some create => process <~ Task_process self ;; create process
             | None => raise AttributeError
             end)
            AttributeError
            (process <~ process_of self ;;
             task_set_create cls process (node_name node) (node_type node)) ;;
  parent_task_set_add task self ;;;
  (if is_callable node
   then on_commit (HookEnqueue task) (run_hook (HookEnqueue task))
   else ret tt) ;;;
  ret task.

Definition start_next_tasks (cls : ProcessClass) (self : Task)
    (next_nodes : option (list (M Node))) : M (list Task) :=
  atomic (
    next_nodes <~ match next_nodes with
                  | Some nodes => ret nodes
                  | None =>
                      process_of self ;;;
                      node <~ Task_node cls self ;;
                      ret (ret <$> get_next_nodes cls node)
                  end ;;
    mapM (start_task cls self) next_nodes).

(** ** URL reversal *)

Inductive RoutePart :=
| Lit (s : string)
| Param (name : string).

(** Splits a route such as ["review/<pk>/"] into literal text and
    parameters; a converter prefix as in [<int:pk>] is dropped. *)
Fixpoint parse_route (s : string) (cur : string) (in_param : bool) : list RoutePart :=
  match s with
  | EmptyString => if in_param then [Lit ("<" +:+ cur)] else [Lit cur]
  | String c s' =>
      if in_param then
        if Ascii.eqb c ">" then Param cur :: parse_route s' "" false
        else if Ascii.eqb c ":" then parse_route s' "" true
        else parse_route s' (cur +:+ String c "") true
      else
        if Ascii.eqb c "<" then Lit cur :: parse_route s' "" true
        else parse_route s' (cur +:+ String c "") false
  end.

Definition route_params (r : string) : list string :=
  omap (fun p => match p with Param n => Some n | Lit _ => None end)
       (parse_route r "" false).

(** [str(pk)] *)
Definition pk_text (pk : option Z) : string :=
  match pk with Some z => str_of_Z z | None => "None" end.

Definition fill_route (r : string) (pk : option Z) : string :=
  String.concat ""
    ((fun p => match p with Param _ => pk_text pk | Lit s => s end)
       <$> parse_route r "" false).

(** An entry [path(prefix, include(cls.urls()))] of the project's URL
    configuration: [inc_prefix] is literal text, and [inc_namespace] is the
    namespace that [urls()] returns with the patterns, the application
    namespace and the instance namespace of the entry alike. *)
Record Include := mkInclude {
  inc_prefix : string;
  inc_patterns : list UrlPattern;
  inc_namespace : string
}.

(** [viewname.split(':')] *)
Fixpoint split_colon (s : string) : list string :=
  match s with
  | EmptyString => [EmptyString]
  | String c s' =>
      if Ascii.eqb c ":" then EmptyString :: split_colon s'
      else match split_colon s' with
           | part :: parts => String c part :: parts
           | [] => [String c EmptyString]
           end
  end.

(** A pattern fits the reversal of [name] with the one argument [pk]. *)
Definition fits (name : string) (pat : UrlPattern) : bool :=
  String.eqb (url_name pat) name
  && bool_decide (route_params (route pat) = ["pk"]).

(** [reverse(viewname, kwargs=dict(pk=pk))].  The view name is split at its
    colons into a namespace and the name of a pattern.  The namespace is
    resolved to the first entry of the URL configuration that carries it, and
    the name is looked up among the patterns of that entry only, the last
    pattern first; a pattern fits when its parameters are exactly [pk].  A
    name without namespace, or with more than one, is registered by no entry
    of this shape.  The text of prefix and route is put together as it is:
    [reverse] also percent-encodes characters that are not safe in a path and
    escapes a second leading slash, and the properties below that give the
    text of a URL are stated for prefixes and names without such
    characters. *)
Definition reverse_url (urlconf : list Include) (viewname : string) (pk : option Z)
  : M string :=
  match split_colon viewname with
  | [ns; name] =>
      match find (fun inc => String.eqb (inc_namespace inc) ns) urlconf with
      | Some inc =>
          match find (fits name) (reverse (inc_patterns inc)) with
          | Some pat => ret ("/" +:+ inc_prefix inc +:+ fill_route (route pat) pk)
          | None => raise NoReverseMatch
          end
      | None => raise NoReverseMatch
      end
  | _ => raise NoReverseMatch
  end.

(** [Task.get_absolute_url()] *)
Definition Task_get_absolute_url (cls : ProcessClass) (urlconf : list Include)
    (self : Task) : M (option string) :=
  match task_completed self with
  | Some _ => ret None
  | None =>
      process_of self ;;;
      let url_name := get_url_namespace cls +:+ ":" +:+ task_node_name self in
      try_except
        (url <~ reverse_url urlconf url_name (task_pk self) ;; ret (Some url))
        NoReverseMatch
        (ret None)
  end.

(** ** The URLs of a process (models.py) *)

(** [Process.get_absolute_url()] *)
Definition Process_get_absolute_url (cls : ProcessClass) (urlconf : list Include)
    (self : Process) : M string :=
  reverse_url urlconf (get_url_namespace cls +:+ ":detail") (process_pk self).

(** [Process.get_override_url()] *)
Definition Process_get_override_url (cls : ProcessClass) (urlconf : list Include)
    (self : Process) : M string :=
  reverse_url urlconf (get_url_namespace cls +:+ ":override") (process_pk self).

(** ** Views (galahad/views.py) *)

(** [get_object_or_404(models.Task, pk=pk, node_name=node_name, completed=None)]
    for a lookup value that is the integer [pk], a key of the range of the
    column: the query and the 404 error of an empty result.  What the call
    does with the text that a URL carries is [TaskViewMixin.get_object_or_404]
    below. *)
Definition get_object_or_404 (pk : Z) (name : string) : M Task :=
  s <~ get_store ;;
  match tasks s !! pk with
  | Some t =>
      if bool_decide (task_node_name t = name ∧ task_completed t = None)
      then ret t else raise Http404
  | None => raise Http404
  end.

(** [TaskViewMixin.get_task()] for a request whose [pk] has been read as the
    key it denotes; [None] is the [KeyError] of [self.kwargs['pk']]. *)
Definition get_task (view_node_name : string) (kwargs_pk : option Z) : M Task :=
  match kwargs_pk with
  | Some pk => get_object_or_404 pk view_node_name
  | None => ret (set_node_name view_node_name new_Task)
  end.

(** [ManualOverrideView.get_next_task_nodes(form)], a generator over
    [form.cleaned_data['next_tasks']]. *)
Definition get_next_task_nodes (cls : ProcessClass) (node_names : list string)
  : list (M Node) :=
  get_node cls <$> node_names.

(** [ManualOverrideView.form_valid(form)].  [instance] is the process that the
    form carries and [next_tasks] its cleaned field of that name;
    [super().form_valid(form)] saves the instance and makes it [self.object].
    Returns [self.object]. *)
Definition form_valid (cls : ProcessClass) (instance : Process)
    (next_tasks : list string) : M Process :=
  atomic (
    let next_nodes := get_next_task_nodes cls next_tasks in
    object <~ Process_save instance None ;;
    active_tasks <~ active_tasks_of cls object ;;
    active_tasks <~ mapM (fun task => Task_finish task None) active_tasks ;;
    override_task <~ task_set_create cls object "manual_override" "" ;;
    parent_task_set_set override_task active_tasks ;;;
    override_task <~ Task_finish override_task None ;;
    start_next_tasks cls override_task (Some next_nodes) ;;;
    ret object).

(** ** The task views (galahad/views.py) *)

(** [task.process = value], the assignment to the generic foreign key: the
    content type of the class of [value] and the key of [value] are stored on
    the instance, or [None] twice.  [value] is an instance of the model of the
    view, [cls]. *)
Definition Task_set_process (cls : ProcessClass) (value : option Process)
    (self : Task) : Task :=
  match value with
  | Some process =>
      set_process_id (process_pk process)
        (set_content_type (Some (cls_content_type cls)) self)
  | None => set_process_id None (set_content_type None self)
  end.

(** [TaskViewMixin.get_object()], with the [pk] read as a key *)
Definition get_object (view_node_name : string) (kwargs_pk : option Z)
  : M (option Process) :=
  task <~ get_task view_node_name kwargs_pk ;;
  Task_process task.

(** [TaskViewMixin.post(request)], with the [pk] read as a key.  [super_post]
    is the [post] of the generic view the mixin is combined with: it handles
    the form and leaves in [self.object] the process (or [None]), which is
    what it returns here.  The response is not modelled; the result is
    [self.object]. *)
Definition post (cls : ProcessClass) (view_node_name : string) (kwargs_pk : option Z)
    (super_post : M (option Process)) : M (option Process) :=
  atomic (
    object <~ super_post ;;
    task <~ get_task view_node_name kwargs_pk ;;
    let task := Task_set_process cls object task in
    task <~ Task_finish task None ;;
    start_next_tasks cls task None ;;;
    ret object).

(** ** The task views on the text of the URL (galahad/views.py)

    The route of a task view is [name/<pk>/]: the resolver captures any text
    without a slash and hands it to the view as [self.kwargs['pk']].  The
    query converts the lookup value with [int], which raises [ValueError] for
    a text that is no numeral, and the database adapter refuses an integer
    outside the range of the column with [OverflowError]; neither is caught by
    [get_object_or_404] or by the view. *)

Module TaskViewMixin.

Definition get_object_or_404 (pk : string) (name : string) : M Task :=
  match int_of_text pk with
  | Some k => if int64 k then get_object_or_404 k name else raise OverflowError
  | None => raise ValueError
  end.

(** [TaskViewMixin.get_task()]; [kwargs_pk] is [self.kwargs.get('pk')], and
    [None] is the [KeyError] of [self.kwargs['pk']]. *)
Definition get_task (view_node_name : string) (kwargs_pk : option string) : M Task :=
  match kwargs_pk with
  | Some pk => get_object_or_404 pk view_node_name
  | None => ret (set_node_name view_node_name new_Task)
  end.

(** [TaskViewMixin.get_object()] *)
Definition get_object (view_node_name : string) (kwargs_pk : option string)
  : M (option Process) :=
  task <~ get_task view_node_name kwargs_pk ;;
  Task_process task.

(** [TaskViewMixin.post(request)] *)
Definition post (cls : ProcessClass) (view_node_name : string)
    (kwargs_pk : option string) (super_post : M (option Process))
  : M (option Process) :=
  atomic (
    object <~ super_post ;;
    task <~ get_task view_node_name kwargs_pk ;;
    let task := Task_set_process cls object task in
    task <~ Task_finish task None ;;
    start_next_tasks cls task None ;;;
    ret object).

End TaskViewMixin.

(** ** Views (joeflow/views.py) *)

Module Joeflow.

(** [TaskViewMixin.get_task()] of joeflow: the same lookup; the task fields
    are called [name] and [type] there, and a fresh task is given
    [type=models.Task.HUMAN]. *)
Definition get_task (view_name : string) (kwargs_pk : option Z) : M Task :=
  match kwargs_pk with
  | Some pk => get_object_or_404 pk view_name
  | None => ret (set_node_type HUMAN (set_node_name view_name new_Task))
  end.

Module TaskViewMixin.

(** The same method on the text of the URL. *)
Definition get_task (view_name : string) (kwargs_pk : option string) : M Task :=
  match kwargs_pk with
  | Some pk => TaskViewMixin.get_object_or_404 pk view_name
  | None => ret (set_node_type HUMAN (set_node_name view_name new_Task))
  end.

End TaskViewMixin.

End Joeflow.

(** * Specifications and sample data

    The predicates the properties are stated with, and the data of the
    closed examples. *)

Definition empty_store : Store := mkStore ∅ ∅ ∅ 1 1.

(** A connection in autocommit mode with no pending hook. *)
Definition idle (s : Store) (now : Z) : World := mkWorld s s 0 [] [] now.

(** The same database seen from inside one open [atomic] block. *)
Definition in_transaction (s : Store) (now : Z) : World := mkWorld s s 1 [] [] now.

Definition order_row : Process := mkProcess (Some 1) (Some 10) (Some 10) "draft".

Definition ship_row : Task :=
  mkTask (Some 1) (Some 1) (Some 7) "ship" MACHINE SCHEDULED None
    (Some 11) (Some 11) None "" "".

Definition review_row : Task :=
  mkTask (Some 2) (Some 1) (Some 7) "review" HUMAN SCHEDULED None
    (Some 12) (Some 12) None "" "".

Definition sample_store : Store :=
  mkStore {[ 1 := ship_row; 2 := review_row ]} ∅ {[ 1 := order_row ]} 3 2.

Definition stamp_process (self : Process) (now : Z) : Process :=
  mkProcess (process_pk self) (process_created self) (Some now) (process_data self).

(** The row (or instance) after the assignments of [enqueue] and the
    [modified] stamp of the save. *)
Definition enqueued (t : Task) (now : Z) : Task :=
  set_modified (Some now)
    (set_stacktrace "" (set_exception "" (set_completed None (set_status SCHEDULED t)))).

Definition sample_traceback : list string :=
  [ "Traceback (most recent call last):" +:+ String "010" "";
    "  File tasks.py, line 3, in ship" +:+ String "010" "";
    "ZeroDivisionError: division by zero" +:+ String "010" "" ].

Definition start : Node := mkNode "start" true true false None.

Definition review : Node := mkNode "review" true false false None.

Definition ship : Node := mkNode "ship" false false true None.

(** A machine node that brings its own [create_task]. *)
Definition audit : Node :=
  mkNode "audit" false false true
    (Some (fun process =>
       match process with
       | Some process =>
           task_set_create (mkProcessClass "Order" 7 []) process "audit" MACHINE
       | None => raise AttributeError
       end)).

Definition Order : ProcessClass :=
  mkProcessClass "Order" 7
    [ (start, review); (review, ship); (review, audit); (ship, review) ].

(** A human node that is no create view, and a workflow all of whose nodes
    leave the creation of their task to [start_next_tasks]. *)
Definition confirm : Node := mkNode "confirm" true false false None.

Definition Delivery : ProcessClass :=
  mkProcessClass "Delivery" 7
    [ (start, review); (review, ship); (review, confirm); (ship, review) ].

(** A [create_task] in the manner of a join, the example the code names for
    a node that creates its task itself: [get_or_create] on the node name
    gives back the task that the process already has for the node and creates
    one only when there is none. *)
Definition get_or_create_task (cls : ProcessClass) (name : string)
    (process : option Process) : M Task :=
  match process with
  | Some process =>
      s <~ get_store ;;
      match filter (fun t => in_task_set cls process t = true ∧ task_node_name t = name)
                   (snd <$> map_to_list (tasks s)) with
      | t :: _ => ret t
      | [] => task_set_create cls process name MACHINE
      end
  | None => raise AttributeError
  end.

Definition check : Node := mkNode "check" false false true None.

Definition collect : Node :=
  mkNode "collect" false false true
    (Some (get_or_create_task (mkProcessClass "Approval" 7 []) "collect")).

(** A workflow with a loop through a node that creates its task itself, and
    a database in which the process went round the loop once: the check (task
    1) started the collection (task 2), which started a second check (task 3)
    that is still open. *)
Definition Approval : ProcessClass :=
  mkProcessClass "Approval" 7 [ (check, collect); (collect, check) ].

Definition recheck_row : Task :=
  mkTask (Some 3) (Some 1) (Some 7) "check" MACHINE SCHEDULED None
    (Some 15) (Some 15) None "" "".

Definition approval_store : Store :=
  mkStore
    {[ 1 := mkTask (Some 1) (Some 1) (Some 7) "check" MACHINE SUCCEEDED None
              (Some 11) (Some 12) (Some 12) "" "";
       2 := mkTask (Some 2) (Some 1) (Some 7) "collect" MACHINE SUCCEEDED None
              (Some 13) (Some 14) (Some 14) "" "";
       3 := recheck_row ]}
    {[ (2, 1); (3, 2) ]} {[ 1 := order_row ]} 4 2.

(** The name of a node of the class that has no [create_task] of its own:
    [start_next_tasks] creates the task for it in its default branch. *)
Definition default_node (cls : ProcessClass) (name : string) : Prop :=
  ∃ n, dict_get (get_nodes cls) name = Some n ∧ create_task n = None.

Definition node_route (n : Node) : UrlPattern :=
  path (if is_create_view n then node_name n +:+ "/" else node_name n +:+ "/<pk>/")
       (TaskView (node_name n)) (node_name n).

Definition detail_route : UrlPattern := path "<pk>/" ProcessDetailView "detail".

Definition override_route : UrlPattern := path "<pk>/override" ManualOverrideView "override".

(** The request names a task the view can work on: a stored task with the
    view's node name that is not completed. *)
Definition open_task (w : World) (name : string) (pk : Z) (t : Task) : Prop :=
  tasks (store w) !! pk = Some t ∧ task_node_name t = name ∧ task_completed t = None.

Definition has_process (self : Task) (w : World) : Prop :=
  ∃ pid proc, is_Some (task_content_type self)
              ∧ task_process_id self = Some pid
              ∧ processes (store w) !! pid = Some proc.

Definition url_name_of (cls : ProcessClass) (self : Task) : string :=
  get_url_namespace cls +:+ ":" +:+ task_node_name self.

Definition sample_urlconf : list Include :=
  [ mkInclude "orders/" (urls Order).1 (urls Order).2 ].

(** A store whose task keys were drawn from the sequence, whose through
    table references stored tasks, and whose rows carry their own key. *)
Record store_wf (s : Store) : Prop := {
  wf_next : 0 < next_task_id s;
  wf_task_keys : ∀ p t, tasks s !! p = Some t ->
                   task_pk t = Some p ∧ 0 < p < next_task_id s;
  wf_links : ∀ c p, (c, p) ∈ parent_links s ->
               is_Some (tasks s !! c) ∧ is_Some (tasks s !! p);
  wf_process_keys : ∀ pid proc, processes s !! pid = Some proc ->
                      process_pk proc = Some pid
}.

(** What a step inside an [atomic] block did: the working store is now [s'],
    the hooks [hs] were registered, and neither the committed store nor the
    queue nor the nesting depth changed. *)
Record tx_effect (w w' : World) (s' : Store) (hs : list Hook) : Prop := {
  te_store : store w' = s';
  te_committed : committed w' = committed w;
  te_depth : atomic_depth w' = atomic_depth w;
  te_hooks : run_on_commit w' = run_on_commit w ++ hs;
  te_queue : queue w' = queue w
}.

(** A new task row for node [name] of process [pid] was inserted under the
    next key of the sequence, and nothing else happened. *)
Definition creates_task (name : string) (pid : Z) (w : World) (t : Task) (w' : World)
  : Prop :=
  task_pk t = Some (next_task_id (store w))
  ∧ task_node_name t = name
  ∧ task_process_id t = Some pid
  ∧ tx_effect w w' (put_task (next_task_id (store w)) t (store w)) [].

(** What is assumed of a node that has a [create_task] method of its own
    (the source mentions such nodes, their code is not part of it): called
    inside a transaction with a stored process, the method creates a new task
    for the node, as the default branch does. *)
Definition honours_create_task (n : Node) : Prop :=
  ∀ create, create_task n = Some create ->
  ∀ pid proc w,
    in_atomic_block w = true -> store_wf (store w) ->
    processes (store w) !! pid = Some proc ->
    ∃ t w', create (Some proc) w = Ok t w' ∧ creates_task (node_name n) pid w t w'.

(** The store after a new row [t] was inserted under the next key and
    linked to the parent [p]. *)
Definition link_child (p : Z) (s : Store) (t : Task) : Store :=
  add_parent (next_task_id s) p (put_task (next_task_id s) t s).

(** [started p pid s nodes ts s']: starting from store [s], one task per node
    of [nodes] was created, in order; [ts] are the created tasks and [s'] is
    the store afterwards.  Each task took the next key of the sequence, is a
    task of process [pid] for its node, and has [p] in its parent set; a task
    created by the default branch has the node's type and the field
    defaults. *)
Inductive started (p pid : Z) : Store -> list Node -> list Task -> Store -> Prop :=
| started_nil s : started p pid s [] [] s
| started_cons s n nodes t ts s' :
    task_pk t = Some (next_task_id s) ->
    task_node_name t = node_name n ->
    task_process_id t = Some pid ->
    (create_task n = None ->
       task_node_type t = node_type n ∧ task_status t = SCHEDULED
       ∧ task_completed t = None) ->
    started p pid (link_child p s t) nodes ts s' ->
    started p pid s (n :: nodes) (t :: ts) s'.

(** The created tasks whose node is callable, in order. *)
Fixpoint to_enqueue (nodes : list Node) (ts : list Task) : list Task :=
  match nodes, ts with
  | n :: nodes, t :: ts =>
      if is_callable n then t :: to_enqueue nodes ts else to_enqueue nodes ts
  | _, _ => []
  end.

(** The calling task and its process are stored, and a transaction is
    open. *)
Definition ready (p pid : Z) (proc : Process) (w : World) : Prop :=
  in_atomic_block w = true
  ∧ store_wf (store w)
  ∧ is_Some (tasks (store w) !! p)
  ∧ processes (store w) !! pid = Some proc.

Definition message_of (t : Task) : Message :=
  mkMessage (task_pk t) (task_process_id t) None None.

(** [updated_rows upd keys s s']: the stores differ at most in the task
    rows of [keys], each of which was rewritten by [upd] (at some time). *)
Definition updated_rows (upd : Task -> Z -> Task) (keys : list Z) (s s' : Store)
  : Prop :=
  parent_links s' = parent_links s
  ∧ processes s' = processes s
  ∧ next_task_id s' = next_task_id s
  ∧ next_process_id s' = next_process_id s
  ∧ (∀ q, q ∉ keys -> tasks s' !! q = tasks s !! q)
  ∧ (∀ q, q ∈ keys ->
       ∃ c, tasks s' !! q = (fun row => upd row c) <$> tasks s !! q).

(** [rescheduled keys s s']: the stores differ at most in the rows of
    [keys], each of which went through the save of [enqueue]. *)
Definition rescheduled : list Z -> Store -> Store -> Prop := updated_rows enqueued.

(** The nodes the loop of [start_next_tasks] runs over: the items given by
    the caller, each of which is a look-up that succeeds, or the successors
    of the node of the task. *)
Inductive next_nodes_are (cls : ProcessClass) (self : Task)
  : option (list (M Node)) -> list Node -> Prop :=
| next_nodes_given items nodes :
    Forall2 (fun (item : M Node) n => ∀ w, item w = Ok n w) items nodes ->
    next_nodes_are cls self (Some items) nodes
| next_nodes_default node :
    getattr_node cls (task_node_name self) = Some node ->
    next_nodes_are cls self None (get_next_nodes cls node).

(** The row (or instance) after the assignments of [finish] at time [c] and
    the [modified] stamp of the save. *)
Definition finished (user : option Z) (t : Task) (c : Z) : Task :=
  set_modified (Some (c + 1))
    (set_completed_by_user user (set_completed (Some c) (set_status SUCCEEDED t))).

(** The tasks that [filter(completed=None)] on the task set of a stored
    process yields. *)
Definition active (cls : ProcessClass) (pid : Z) (s : Store) (q : Z) (t : Task) : Prop :=
  tasks s !! q = Some t
  ∧ task_content_type t = Some (cls_content_type cls)
  ∧ task_process_id t = Some pid
  ∧ task_completed t = None.

(** The body of [form_valid], inside its [atomic] block. *)
Definition form_valid_body (cls : ProcessClass) (instance : Process)
    (next_tasks : list string) : M Process :=
  let next_nodes := get_next_task_nodes cls next_tasks in
  object <~ Process_save instance None ;;
  active_tasks <~ active_tasks_of cls object ;;
  active_tasks <~ mapM (fun task => Task_finish task None) active_tasks ;;
  override_task <~ task_set_create cls object "manual_override" "" ;;
  parent_task_set_set override_task active_tasks ;;;
  override_task <~ Task_finish override_task None ;;
  start_next_tasks cls override_task (Some next_nodes) ;;;
  ret object.

(** The store after the override, before the children are started: the
    process row is saved, the active tasks [keys] are finished, and the
    override task [o] is inserted under key [k], given [keys] as parent set
    and finished. *)
Definition overridden (pid : Z) (object : Process) (keys : list Z) (k : Z)
    (o : Task) (c : Z) (s s2 s5 : Store) : Prop :=
  updated_rows (finished None) keys (set_process pid object s) s2
  ∧ s5 = set_task k (finished None o c) (set_parents k keys (put_task k o s2)).

(** The store [s'] after a successful override that started [nodes], seen
    from the store [s] before it. *)
Record overridden_and_started (cls : ProcessClass) (pid : Z) (nodes : list Node)
    (s s' : Store) : Prop := {
  ov_finished : ∀ q t, active cls pid s q t ->
      ∃ c, tasks s' !! q = Some (finished None t c);
  ov_others : ∀ q t, tasks s !! q = Some t -> ¬ active cls pid s q t ->
      tasks s' !! q = Some t;
  ov_fresh : tasks s !! next_task_id s = None;
  ov_override : ∃ o,
      tasks s' !! next_task_id s = Some o
      ∧ task_node_name o = "manual_override"
      ∧ task_process_id o = Some pid
      ∧ task_status o = SUCCEEDED
      ∧ is_Some (task_completed o);
  ov_children : ∀ (i : nat) n, nodes !! i = Some n ->
      ∃ row,
        tasks s !! (next_task_id s + 1 + Z.of_nat i) = None
        ∧ tasks s' !! (next_task_id s + 1 + Z.of_nat i) = Some row
        ∧ task_node_name row = node_name n
        ∧ task_process_id row = Some pid
        ∧ (create_task n = None ->
             task_node_type row = node_type n ∧ task_status row = SCHEDULED
             ∧ task_completed row = None);
  ov_dom : ∀ q, is_Some (tasks s' !! q)
      ↔ is_Some (tasks s !! q)
        ∨ next_task_id s ≤ q < next_task_id s + 1 + Z.of_nat (length nodes);
  ov_links : ∀ c q, (c, q) ∈ parent_links s'
      ↔ (c, q) ∈ parent_links s
        ∨ (c = next_task_id s ∧ ∃ t, active cls pid s q t)
        ∨ (q = next_task_id s
           ∧ next_task_id s + 1 ≤ c < next_task_id s + 1 + Z.of_nat (length nodes))
}.

Definition is_parent (s : Store) (c q : Z) : Prop := (c, q) ∈ parent_links s.

(** No task is its own ancestor. *)
Definition acyclic (s : Store) : Prop := ∀ x, ¬ tc (is_parent s) x x.

(** [links_appended s s']: every pair of the through table of [s] is still
    in [s']; a pair [(c, q)] that is new makes [q] a parent of a task [c] that
    did not exist in [s], and [q] is a stored task with a smaller key (it was
    there before [c] was created); and if [s] had no cycle, [s'] has none. *)
Record links_appended (s s' : Store) : Prop := {
  la_kept : ∀ c q, (c, q) ∈ parent_links s -> (c, q) ∈ parent_links s';
  la_new : ∀ c q, (c, q) ∈ parent_links s' -> (c, q) ∉ parent_links s ->
      tasks s !! c = None ∧ is_Some (tasks s' !! c)
      ∧ is_Some (tasks s' !! q) ∧ q < c;
  la_acyclic : acyclic s -> acyclic s'
}.

(** A message names the row of a task that other connections can see. *)
Definition names_committed_row (w : World) (m : Message) : Prop :=
  ∃ p, msg_pk m = Some p ∧ is_Some (tasks (committed w) !! p).

Definition names_stored_row (w : World) (m : Message) : Prop :=
  ∃ p, msg_pk m = Some p ∧ is_Some (tasks (store w) !! p).

(** The invariant: every message that was handed to the queue names a
    committed row; every pending [apply_async] hook names a row of the
    working store; the working store has every committed row; and outside
    transactions the two stores agree and no hook is pending. *)
Record queue_safe (w : World) : Prop := {
  qs_queue : ∀ m, m ∈ queue w -> names_committed_row w m;
  qs_hooks : ∀ m, HookApplyAsync m ∈ run_on_commit w -> names_stored_row w m;
  qs_committed : ∀ p, is_Some (tasks (committed w) !! p) ->
                   is_Some (tasks (store w) !! p);
  qs_autocommit : in_atomic_block w = false ->
                    committed w = store w ∧ run_on_commit w = []
}.

(** What any operation leaves alone: the nesting depth; the stored rows (none
    disappears); and, inside a transaction, the committed store and the
    queue. *)
Record step (w w' : World) : Prop := {
  st_depth : atomic_depth w' = atomic_depth w;
  st_rows : ∀ p, is_Some (tasks (store w) !! p) -> is_Some (tasks (store w') !! p);
  st_tx : in_atomic_block w = true ->
            committed w' = committed w ∧ queue w' = queue w
}.

(** A computation keeps the invariant, whatever its outcome. *)
Definition sound {A} (m : M A) : Prop :=
  ∀ w, queue_safe w -> queue_safe (world_of (m w)) ∧ step w (world_of (m w)).

(** A write that deletes no task row. *)
Definition keeps_rows (f : Store -> Store) : Prop :=
  ∀ s p, is_Some (tasks s !! p) -> is_Some (tasks (f s) !! p).

(** What is assumed of a node's own [create_task] here: it keeps the
    invariant, as every operation of this code does. *)
Definition node_sound (n : Node) : Prop :=
  ∀ create, create_task n = Some create -> ∀ process, sound (create process).

Definition class_sound (cls : ProcessClass) : Prop :=
  ∀ a b, (a, b) ∈ edges cls -> node_sound a ∧ node_sound b.

(** A sequence of calls into this code, as a request handler or a worker
    makes them; [InAtomic] wraps calls in a transaction.  An exception ends
    the sequence (and rolls back the transaction it is raised in). *)
Inductive Script :=
| Stop
| CallEnqueue (t : Task) (countdown eta : option Z) (rest : Script)
| CallStartNextTasks (t : Task) (next_nodes : option (list string)) (rest : Script)
| CallFinish (t : Task) (user : option Z) (rest : Script)
| CallFail (t : Task) (tb : list string) (rest : Script)
| CallOverride (instance : Process) (next_tasks : list string) (rest : Script)
| InAtomic (body : Script) (rest : Script).

Fixpoint run (cls : ProcessClass) (script : Script) : M unit :=
  match script with
  | Stop => ret tt
  | CallEnqueue t countdown eta rest =>
      Task_enqueue t countdown eta ;;; run cls rest
  | CallStartNextTasks t next_nodes rest =>
      start_next_tasks cls t (get_next_task_nodes cls <$> next_nodes) ;;; run cls rest
  | CallFinish t user rest => Task_finish t user ;;; run cls rest
  | CallFail t tb rest => Task_fail t tb ;;; run cls rest
  | CallOverride instance next_tasks rest =>
      form_valid cls instance next_tasks ;;; run cls rest
  | InAtomic body rest => atomic (run cls body) ;;; run cls rest
  end.

Definition sample_script : Script :=
  InAtomic
    (CallEnqueue ship_row None None (CallStartNextTasks review_row None Stop))
    Stop.

(** The instance after the assignments of [finish] at time [c] and the stamps
    of the INSERT that follows when the task has no key: it takes the key
    [k]. *)
Definition finished_new (user : option Z) (t : Task) (c k : Z) : Task :=
  set_pk (Some k)
    (set_modified (Some (c + 1 + 1))
       (set_created (Some (c + 1))
          (set_completed_by_user user (set_status SUCCEEDED (set_completed (Some c) t))))).

Definition draft_task : Task :=
  mkTask None (Some 1) (Some 7) "start" HUMAN SCHEDULED None None None None "" "".

(** The statement [get_graph] issues for a node. *)
Definition node_statement (color : string) (n : Node) : Statement :=
  GraphNode (node_name n)
    [ ("style", if is_task_view n then "filled, rounded" else "filled");
      ("color", color); ("fontcolor", color) ].

Definition edge_statement (e : Node * Node) : Statement :=
  GraphEdge (node_name e.1) (node_name e.2) [].

(** Whether the character [c] occurs in [s]. *)
Fixpoint has_char (c : ascii) (s : string) : bool :=
  match s with
  | EmptyString => false
  | String c' s' => Ascii.eqb c' c || has_char c s'
  end.

(** The characters of an attribute name: letters, digits and the underscore.
    [reverse] leaves them as they are, and none of them ends a namespace or
    opens a parameter of a route. *)
Definition is_name_char (c : ascii) : bool :=
  let n := nat_of_ascii c in
  ((48 <=? n) && (n <=? 57) || (65 <=? n) && (n <=? 90)
   || (97 <=? n) && (n <=? 122) || (n =? 95))%nat.

Fixpoint all_chars (f : ascii -> bool) (s : string) : bool :=
  match s with
  | EmptyString => true
  | String c s' => f c && all_chars f s'
  end.

(** A name: one or more characters of an attribute name. *)
Definition is_name (s : string) : bool :=
  match s with
  | EmptyString => false
  | _ => all_chars is_name_char s
  end.

(** A prefix that [reverse] puts into the URL as it is: it does not begin
    with a slash and consists of the characters of a name, slashes, hyphens,
    dots and tildes. *)
Definition is_plain_prefix (s : string) : bool :=
  match s with
  | String c _ => negb (Ascii.eqb c "/")
  | EmptyString => true
  end
  && all_chars (fun c => is_name_char c || Ascii.eqb c "/" || Ascii.eqb c "-"
                         || Ascii.eqb c "." || Ascii.eqb c "~") s.

(** [path(prefix, include(cls.urls()))] *)
Definition include_urls (prefix : string) (cls : ProcessClass) : Include :=
  mkInclude prefix (urls cls).1 (urls cls).2.

(** A URL configuration in which the routes of the sample workflow are
    included twice, after the entry of another application. *)
Definition project_urlconf : list Include :=
  [ mkInclude "shop/" [] "shop"; include_urls "orders/" Order;
    include_urls "archive/" Order ].

(** A pattern answers the reversal of [name] with the one argument [pk]. *)
Definition answers (name : string) (pat : UrlPattern) : Prop :=
  url_name pat = name ∧ route_params (route pat) = ["pk"].

(** [post] of the generic editing views that the mixin is combined with, as
    far as this code depends on it.  An update view first sets
    [self.object = self.get_object()], the method that the mixin overrides,
    and a create view sets [self.object = None]; then the form is handled,
    which is [handle] here. *)
Definition update_view_post (get_object : M (option Process))
    (handle : option Process -> M (option Process)) : M (option Process) :=
  object <~ get_object ;; handle object.

Definition create_view_post (handle : option Process -> M (option Process))
  : M (option Process) :=
  handle None.

(** The handling of a valid form: the posted [data] is put on the instance
    of the form, which is [self.object] or a fresh instance, and the instance
    is saved and becomes [self.object]. *)
Definition save_form (data : string) (object : option Process) : M (option Process) :=
  let instance := match object with
                  | Some process => process
                  | None => mkProcess None None None ""
                  end in
  object <~ Process_save
              (mkProcess (process_pk instance) (process_created instance)
                 (process_modified instance) data) None ;;
  ret (Some object).

(** A text that [int] reads in every version of Python as [int_of_text] does:
    printable one-byte characters, at most 4300 of them. *)
Definition plain_text (text : string) : bool :=
  (String.length text <=? 4300)%nat
  && all_chars (fun c => (32 <=? nat_of_ascii c) && (nat_of_ascii c <=? 126))%nat text.

(** The exception of a request whose [pk] names no task the view can work
    on. *)
Definition refusal (pk : string) : Exn :=
  match int_of_text pk with
  | Some k => if int64 k then Http404 else OverflowError
  | None => ValueError
  end.

(** The rows of the tasks that a call started for [nodes], seen from the
    store [s] before the call and the store [s'] after it: one new row per
    node under the keys from [k] on, each a task of process [pid] for its node
    whose parent set is [parent] alone; no other row is new. *)
Record children_started (parent pid k : Z) (nodes : list Node) (s s' : Store)
  : Prop := {
  cs_rows : ∀ (i : nat) n, nodes !! i = Some n ->
      ∃ row,
        tasks s !! (k + Z.of_nat i) = None
        ∧ tasks s' !! (k + Z.of_nat i) = Some row
        ∧ task_pk row = Some (k + Z.of_nat i)
        ∧ task_node_name row = node_name n
        ∧ task_process_id row = Some pid
        ∧ (create_task n = None ->
             task_node_type row = node_type n ∧ task_status row = SCHEDULED
             ∧ task_completed row = None)
        ∧ parents_of s' (k + Z.of_nat i) = {[ parent ]};
  cs_dom : ∀ q, is_Some (tasks s' !! q)
      ↔ is_Some (tasks s !! q) ∨ k ≤ q < k + Z.of_nat (length nodes)
}.

(** How a transaction that started tasks for [nodes] ends, seen from the
    world [w] before it: inside an enclosing transaction nothing is committed
    or queued and one hook per callable node is registered; as the outermost
    transaction it commits and hands the queue one message per callable node,
    for the keys from [k] on. *)
Definition handed_over (k : Z) (nodes : list Node) (w w' : World) : Prop :=
  ∃ ts,
    length ts = length nodes
    ∧ (∀ (i : nat) t, ts !! i = Some t -> task_pk t = Some (k + Z.of_nat i))
    ∧ (in_atomic_block w = true ->
         committed w' = committed w
         ∧ atomic_depth w' = atomic_depth w
         ∧ queue w' = queue w
         ∧ run_on_commit w'
           = run_on_commit w ++ (HookEnqueue <$> to_enqueue nodes ts))
    ∧ (in_atomic_block w = false ->
         committed w' = store w'
         ∧ run_on_commit w' = []
         ∧ queue w' = queue w ++ (message_of <$> to_enqueue nodes ts)).

(** The status of a task is one of the three choices of the model. *)
Definition status_ok (t : Task) : Prop :=
  task_status t = SCHEDULED ∨ task_status t = SUCCEEDED ∨ task_status t = FAILED.

(** A database as this code leaves it: well-formed, and every task row has
    one of the three statuses. *)
Definition consistent (s : Store) : Prop :=
  store_wf s ∧ ∀ p t, tasks s !! p = Some t -> status_ok t.

(** Both what the connection sees and what is committed are consistent. *)
Definition consistent_world (w : World) : Prop :=
  consistent (store w) ∧ consistent (committed w).

(** A computation keeps the database consistent, whatever its outcome. *)
Definition preserves {A} (m : M A) : Prop :=
  ∀ w, consistent_world w -> consistent_world (world_of (m w)).





(** * Properties *)

(** ** Running computations *)

Lemma bind_Ok {A B} (m : M A) (k : A -> M B) w a w' :
  m w = Ok a w' -> bind m k w = k a w'.
Proof. intros H. unfold bind. now rewrite H. Qed.

Lemma bind_Raise {A B} (m : M A) (k : A -> M B) w e w' :
  m w = Raise e w' -> bind m k w = Raise e w'.
Proof. intros H. unfold bind. now rewrite H. Qed.

Lemma truthy_Some p : p ≠ 0 -> truthy (Some p) = true.
Proof. intros H. unfold truthy. now destruct (Z.eqb_spec p 0). Qed.

(** ** Saving needs [update_fields] for tasks, not for processes *)

Lemma Process_save_all_fields self p row w :
  process_pk self = Some p ->
  processes (store w) !! p = Some row ->
  Process_save self None w
  = Ok (stamp_process self (clock w))
       (after_write (set_process p (stamp_process self (clock w)) (store w)) (tick w)).
Proof.
  intros Hpk Hrow.
  assert (Model_save_process self None w
          = Ok (stamp_process self (clock w))
               (after_write (set_process p (stamp_process self (clock w)) (store w))
                  (tick w))) as E.
  { destruct self as [pk0 c0 m0 d0]. cbn in Hpk. subst pk0.
    unfold Model_save_process, bind, timezone_now, get_store. cbn.
    rewrite Hrow. reflexivity. }
  unfold Process_save. now destruct (truthy (process_pk self)).
Qed.

(** C3, as the code has it.  A task that has a (non-zero) primary key cannot
    be saved without [update_fields]: [Task.save] raises [ValueError] and the
    world is the one before the call.  [Process.save] does not enforce this: a
    persisted process saved without [update_fields] is written with all its
    columns, the [modified] stamp included. *)
Theorem save_requires_update_fields_for_tasks_only
    (t : Task) (pr : Process) (p : Z) (row : Process) (w : World) :
  truthy (task_pk t) = true ->
  process_pk pr = Some p ->
  processes (store w) !! p = Some row ->
  Task_save t None w = Raise ValueError w
  ∧ ∃ w', Process_save pr None w = Ok (stamp_process pr (clock w)) w'
          ∧ processes (store w') !! p = Some (stamp_process pr (clock w))
          ∧ tasks (store w') = tasks (store w).
Proof.
  intros Ht Hpk Hrow. split.
  - unfold Task_save. now rewrite Ht.
  - eexists. split; [now apply (Process_save_all_fields _ p row)|].
    cbn. split; [apply lookup_insert_eq | reflexivity].
Qed.

Lemma save_requires_update_fields_for_tasks_only_witness :
  Task_save ship_row None (idle sample_store 20)
  = Raise ValueError (idle sample_store 20)
  ∧ ∃ w', Process_save (mkProcess (Some 1) (Some 10) (Some 10) "approved") None
            (idle sample_store 20)
          = Ok (mkProcess (Some 1) (Some 10) (Some 20) "approved") w'
          ∧ processes (store w') !! 1
            = Some (mkProcess (Some 1) (Some 10) (Some 20) "approved")
          ∧ tasks (store w') = tasks (store (idle sample_store 20)).
Proof.
  apply (save_requires_update_fields_for_tasks_only ship_row
           (mkProcess (Some 1) (Some 10) (Some 10) "approved") 1 order_row
           (idle sample_store 20)); reflexivity.
Defined.

(** C3 as stated fails: a persisted process saved without [update_fields]
    does not raise; the call succeeds and overwrites the stored row. *)
Lemma Process_save_without_update_fields_succeeds :
  ∃ w', Process_save (mkProcess (Some 1) (Some 10) (Some 10) "approved") None
          (idle sample_store 20)
        = Ok (mkProcess (Some 1) (Some 10) (Some 20) "approved") w'
        ∧ processes (store (idle sample_store 20)) !! 1 = Some order_row
        ∧ processes (store w') !! 1
          = Some (mkProcess (Some 1) (Some 10) (Some 20) "approved")
        ∧ processes (committed w') !! 1
          = Some (mkProcess (Some 1) (Some 10) (Some 20) "approved").
Proof.
  eexists. split; [|split; [|split]].
  - rewrite (Process_save_all_fields _ 1 order_row); reflexivity.
  - reflexivity.
  - reflexivity.
  - reflexivity.
Qed.

(** ** [enqueue] and [fail] on a stored task *)

Lemma Task_enqueue_stored self countdown eta p row w :
  task_pk self = Some p -> p ≠ 0 ->
  tasks (store w) !! p = Some row ->
  Task_enqueue self countdown eta w
  = Ok (enqueued self (clock w))
       (let w1 := after_write (set_task p (enqueued row (clock w)) (store w)) (tick w) in
        let m := mkMessage (Some p) (task_process_id self) countdown eta in
        if in_atomic_block w then push_hook (HookApplyAsync m) w1 else send m w1).
Proof.
  intros Hpk Hp Hrow.
  destruct self as [pk0 ? ? ? ? ? ? ? ? ? ? ?]. cbn in Hpk. subst pk0.
  unfold Task_enqueue, Task_save. cbn [task_pk set_stacktrace set_exception set_completed set_status].
  rewrite (truthy_Some _ Hp).
  unfold Model_save, bind, timezone_now, get_store, write_store, ret, on_commit, apply_async.
  cbn. rewrite Hrow. cbn.
  change (in_atomic_block (after_write _ (tick w))) with (in_atomic_block w).
  destruct (in_atomic_block w); reflexivity.
Qed.

(** C9.  For a stored task, [enqueue] succeeds; the instance has status
    scheduled and [completed], [exception], [stacktrace] cleared; in the
    database only the row of the task changes, and of that row only those four
    columns and [modified]: every other column keeps the stored value,
    whatever the instance holds. *)
Theorem enqueue_resets_only_the_error_state
    (self : Task) (countdown eta : option Z) (p : Z) (row : Task) (w : World) :
  task_pk self = Some p -> p ≠ 0 ->
  tasks (store w) !! p = Some row ->
  ∃ self' w',
    Task_enqueue self countdown eta w = Ok self' w'
    ∧ task_status self' = SCHEDULED ∧ task_completed self' = None
    ∧ task_exception self' = "" ∧ task_stacktrace self' = ""
    ∧ store w'
      = mkStore
          (<[p := mkTask (task_pk row) (task_process_id row) (task_content_type row)
                    (task_node_name row) (task_node_type row) SCHEDULED
                    (task_completed_by_user row) (task_created row)
                    (Some (clock w)) None "" ""]> (tasks (store w)))
          (parent_links (store w)) (processes (store w))
          (next_task_id (store w)) (next_process_id (store w)).
Proof.
  intros Hpk Hp Hrow.
  eexists _, _. split; [apply (Task_enqueue_stored _ _ _ p row); assumption|].
  repeat split. destruct (in_atomic_block w); reflexivity.
Qed.

Lemma enqueue_resets_only_the_error_state_witness :
  ∃ self' w',
    Task_enqueue
      (mkTask (Some 1) (Some 1) (Some 7) "renamed" HUMAN FAILED (Some 3)
         None None (Some 15) "ZeroDivisionError: division by zero" "Traceback")
      None None (idle sample_store 20) = Ok self' w'
    ∧ task_status self' = SCHEDULED ∧ task_completed self' = None
    ∧ task_exception self' = "" ∧ task_stacktrace self' = ""
    ∧ store w'
      = mkStore
          (<[1 := mkTask (Some 1) (Some 1) (Some 7) "ship" MACHINE SCHEDULED None
                    (Some 11) (Some 20) None "" ""]> (tasks sample_store))
          ∅ (processes sample_store) 3 2.
Proof.
  apply (enqueue_resets_only_the_error_state
           (mkTask (Some 1) (Some 1) (Some 7) "renamed" HUMAN FAILED (Some 3)
              None None (Some 15) "ZeroDivisionError: division by zero" "Traceback")
           None None 1 ship_row (idle sample_store 20)).
  - reflexivity.
  - lia.
  - reflexivity.
Defined.

Lemma Task_fail_stored self tb line p row w :
  task_pk self = Some p -> p ≠ 0 ->
  tasks (store w) !! p = Some row ->
  last tb = Some line ->
  Task_fail self tb w
  = Ok (set_modified (Some (clock w + 1))
          (set_stacktrace (String.concat "" tb)
             (set_exception (strip line)
                (set_status FAILED (set_completed (Some (clock w)) self)))))
       (after_write
          (set_task p
             (set_modified (Some (clock w + 1))
                (set_stacktrace (String.concat "" tb)
                   (set_exception (strip line) (set_status FAILED row))))
             (store w))
          (tick (tick w))).
Proof.
  intros Hpk Hp Hrow Hlast.
  destruct self as [pk0 ? ? ? ? ? ? ? ? ? ? ?]. cbn in Hpk. subst pk0.
  unfold Task_fail, bind, timezone_now. rewrite Hlast.
  unfold Task_save. cbn [task_pk set_stacktrace set_exception set_completed set_status].
  rewrite (truthy_Some _ Hp).
  unfold Model_save, bind, timezone_now, get_store, write_store, ret.
  cbn. rewrite Hrow. reflexivity.
Qed.

(** C5, what the code does.  When [fail] runs on a stored task with a
    traceback whose last line is [line], the instance gets status failed and
    [completed] set to the current time, and the row gets status failed, the
    stripped last line as [exception] and the joined traceback as
    [stacktrace]; the [completed] column of the row keeps its old value,
    because ['completed'] is not among the [update_fields] of the save. *)
Theorem fail_records_the_traceback_but_not_completed
    (self : Task) (tb : list string) (line : string) (p : Z) (row : Task) (w : World) :
  task_pk self = Some p -> p ≠ 0 ->
  tasks (store w) !! p = Some row ->
  last tb = Some line ->
  ∃ self' w' row',
    Task_fail self tb w = Ok self' w'
    ∧ task_status self' = FAILED ∧ task_completed self' = Some (clock w)
    ∧ tasks (store w') !! p = Some row'
    ∧ task_status row' = FAILED
    ∧ task_exception row' = strip line
    ∧ task_stacktrace row' = String.concat "" tb
    ∧ task_completed row' = task_completed row.
Proof.
  intros Hpk Hp Hrow Hlast.
  eexists _, _, _. split; [apply (Task_fail_stored _ _ line p row); assumption|].
  cbn. rewrite lookup_insert_eq. repeat split.
Qed.

Lemma fail_records_the_traceback_but_not_completed_witness :
  ∃ self' w' row',
    Task_fail ship_row sample_traceback (idle sample_store 20) = Ok self' w'
    ∧ task_status self' = FAILED ∧ task_completed self' = Some 20
    ∧ tasks (store w') !! 1 = Some row'
    ∧ task_status row' = FAILED
    ∧ task_exception row' = "ZeroDivisionError: division by zero"
    ∧ task_stacktrace row' = String.concat "" sample_traceback
    ∧ task_completed row' = None.
Proof.
  apply (fail_records_the_traceback_but_not_completed ship_row sample_traceback
           ("ZeroDivisionError: division by zero" +:+ String "010" "")
           1 ship_row (idle sample_store 20)).
  - reflexivity.
  - lia.
  - reflexivity.
  - reflexivity.
Defined.

(** ** Generated routes *)

Lemma urls_fold (items : list Node) (acc : list UrlPattern) :
  fold_left (fun urls (item : string * Node) =>
      let (name, node) := item in
      if is_task_view node then
        let route := if is_create_view node
                     then name +:+ "/"
                     else name +:+ "/<pk>/" in
        urls ++ [path route (TaskView name) name]
      else urls) ((fun n => (node_name n, n)) <$> items) acc
  = acc ++ (node_route <$> filter (fun n => is_task_view n = true) items).
Proof.
  revert acc. induction items as [|n items IH]; intros acc; cbn.
  - now rewrite app_nil_r.
  - rewrite IH. unfold filter at 2. cbn.
    destruct (is_task_view n); cbn.
    + case_decide; [|congruence]. cbn. now rewrite <- app_assoc.
    + case_decide; [congruence|]. reflexivity.
Qed.

Lemma urls_eq cls :
  (urls cls).1
  = (node_route <$> filter (fun n => is_task_view n = true) (node_set cls))
      ++ [detail_route; override_route].
Proof.
  unfold urls, get_nodes. cbn [fst]. now rewrite urls_fold.
Qed.

Lemma set_add_names n nodes :
  NoDup (node_name <$> nodes) -> NoDup (node_name <$> set_add n nodes).
Proof.
  intros Hnd. unfold set_add.
  destruct (existsb _ nodes) eqn:E; [assumption|].
  rewrite fmap_app. cbn. apply NoDup_app. split; [assumption|]. split.
  - intros x Hx Hx'. apply list_elem_of_singleton in Hx'. subst x.
    apply list_elem_of_fmap in Hx as (m & Hm & Hin).
    assert (existsb (fun m => String.eqb (node_name m) (node_name n)) nodes = true) as E'.
    { apply existsb_exists. exists m. split; [now apply list_elem_of_In|].
      apply String.eqb_eq. congruence. }
    congruence.
  - apply NoDup_singleton.
Qed.

Lemma node_set_names cls : NoDup (node_name <$> node_set cls).
Proof.
  unfold node_set.
  assert (∀ es acc, NoDup (node_name <$> acc) ->
            NoDup (node_name <$> fold_left
               (fun nodes (edge : Node * Node) => set_add edge.2 (set_add edge.1 nodes))
               es acc)) as H.
  { induction es as [|e es IH]; intros acc Hacc; cbn; [assumption|].
    apply IH. now do 2 apply set_add_names. }
  apply H. constructor.
Qed.

(** C6, as the code has it.  The routes of a process class are, in order: one
    route per human node (a node that is an instance of [TaskViewMixin]),
    named after the node and handled by the node's view, at [name/] when the
    node is a create view and at [name/<pk>/] otherwise; then the detail route
    [<pk>/] and the override route [<pk>/override].  A machine node has no
    route, and the namespace is the lower-cased class name. *)
Theorem urls_routes (cls : ProcessClass) :
  (urls cls).1
  = (node_route <$> filter (fun n => is_task_view n = true) (node_set cls))
      ++ [detail_route; override_route]
  ∧ (urls cls).2 = lower (cls_name cls)
  ∧ (∀ n, n ∈ node_set cls -> is_task_view n = true ->
       is_create_view n = true ->
       path (node_name n +:+ "/") (TaskView (node_name n)) (node_name n) ∈ (urls cls).1)
  ∧ (∀ n, n ∈ node_set cls -> is_task_view n = true ->
       is_create_view n = false ->
       path (node_name n +:+ "/<pk>/") (TaskView (node_name n)) (node_name n)
         ∈ (urls cls).1)
  ∧ (∀ n pat, n ∈ node_set cls -> is_task_view n = false ->
       pat ∈ (urls cls).1 -> view pat ≠ TaskView (node_name n)).
Proof.
  split; [apply urls_eq|]. split; [reflexivity|].
  assert (∀ n, n ∈ node_set cls -> is_task_view n = true ->
            node_route n ∈ (urls cls).1) as Hin.
  { intros n Hn Hv. rewrite urls_eq. apply elem_of_app. left.
    apply list_elem_of_fmap. exists n. split; [reflexivity|].
    apply list_elem_of_filter. now split. }
  split; [|split].
  - intros n Hn Hv Hc. specialize (Hin n Hn Hv). unfold node_route in Hin.
    now rewrite Hc in Hin.
  - intros n Hn Hv Hc. specialize (Hin n Hn Hv). unfold node_route in Hin.
    now rewrite Hc in Hin.
  - intros n pat Hn Hv Hpat Hview. rewrite urls_eq in Hpat.
    apply elem_of_app in Hpat as [Hpat|Hpat].
    + apply list_elem_of_fmap in Hpat as (m & -> & Hm).
      apply list_elem_of_filter in Hm as [Hmv Hm]. cbn in Hview.
      injection Hview as Hname.
      assert (m = n) as ->; [|congruence].
      pose proof (node_set_names cls) as Hnd.
      apply list_elem_of_lookup in Hm as [i Hi].
      apply list_elem_of_lookup in Hn as [j Hj].
      assert (i = j) as ->; [|congruence].
      apply (NoDup_lookup _ i j (node_name m) Hnd).
      * rewrite list_lookup_fmap, Hi. reflexivity.
      * rewrite list_lookup_fmap, Hj. cbn. congruence.
    + apply elem_of_cons in Hpat as [->|Hpat]; [discriminate|].
      apply list_elem_of_singleton in Hpat as ->. discriminate.
Qed.

Lemma urls_routes_witness :
  (urls Order).1
  = [ path "start/" (TaskView "start") "start";
      path "review/<pk>/" (TaskView "review") "review";
      path "<pk>/" ProcessDetailView "detail";
      path "<pk>/override" ManualOverrideView "override" ]
  ∧ (urls Order).2 = "order".
Proof.
  destruct (urls_routes Order) as (H1 & H2 & _). split; [exact H1 | exact H2].
Defined.

(** C6 as stated fails: the human node [start] of the sample workflow is a
    create view; its route is [start/], and no route [start/<pk>/] exists. *)
Lemma create_view_route_has_no_pk :
  start ∈ node_set Order ∧ is_task_view start = true
  ∧ path "start/" (TaskView "start") "start" ∈ (urls Order).1
  ∧ ¬ ∃ pat, pat ∈ (urls Order).1 ∧ route pat = "start/<pk>/".
Proof.
  split; [|split; [|split]].
  - apply list_elem_of_In. cbn. auto.
  - reflexivity.
  - apply list_elem_of_In. cbn. auto.
  - intros (pat & Hpat & Hroute). apply list_elem_of_In in Hpat. cbn in Hpat.
    destruct Hpat as [<-|[<-|[<-|[<-|[]]]]]; discriminate Hroute.
Qed.

(** ** Looking up the task of a view *)

Lemma get_object_or_404_found w name pk t :
  open_task w name pk t -> get_object_or_404 pk name w = Ok t w.
Proof.
  intros (Hrow & Hname & Hc). unfold get_object_or_404, bind, get_store.
  rewrite Hrow. rewrite bool_decide_eq_true_2; [reflexivity|now split].
Qed.

Lemma get_object_or_404_missing w name pk :
  (∀ t, ¬ open_task w name pk t) -> get_object_or_404 pk name w = Raise Http404 w.
Proof.
  intros Hno. unfold get_object_or_404, bind, get_store.
  destruct (tasks (store w) !! pk) as [t|] eqn:Hrow; [|reflexivity].
  rewrite bool_decide_eq_false_2; [reflexivity|].
  intros [Hname Hc]. apply (Hno t). now split.
Qed.

Lemma get_object_or_404_inv w name pk t w' :
  get_object_or_404 pk name w = Ok t w' -> open_task w name pk t ∧ w' = w.
Proof.
  unfold get_object_or_404, bind, get_store.
  destruct (tasks (store w) !! pk) as [t0|] eqn:Hrow; [|discriminate].
  case_bool_decide as Hd; [|discriminate].
  intros [= <- <-]. destruct Hd. now repeat split.
Qed.

Lemma text_get_task_refused name pk w :
  (∀ k t, int_of_text pk = Some k -> ¬ open_task w name k t) ->
  TaskViewMixin.get_task name (Some pk) w = Raise (refusal pk) w
  ∧ Joeflow.TaskViewMixin.get_task name (Some pk) w = Raise (refusal pk) w.
Proof.
  intros Hno. unfold refusal. cbn [TaskViewMixin.get_task Joeflow.TaskViewMixin.get_task].
  unfold TaskViewMixin.get_object_or_404.
  destruct (int_of_text pk) as [k|]; [|now split].
  destruct (int64 k); [|now split].
  split; apply get_object_or_404_missing; intros t; now apply Hno.
Qed.

(** For a numeral of a key in the range of the column, the view on the text
    of the URL is the view on the key. *)
Lemma text_get_task_numeral name pk k :
  int_of_text pk = Some k -> int64 k = true ->
  TaskViewMixin.get_task name (Some pk) = get_task name (Some k)
  ∧ TaskViewMixin.get_object name (Some pk) = get_object name (Some k)
  ∧ Joeflow.TaskViewMixin.get_task name (Some pk) = Joeflow.get_task name (Some k).
Proof.
  intros Hk Hrange.
  assert (TaskViewMixin.get_object_or_404 pk name = get_object_or_404 k name) as E
    by (unfold TaskViewMixin.get_object_or_404; now rewrite Hk, Hrange).
  unfold TaskViewMixin.get_object, get_object.
  cbn [TaskViewMixin.get_task get_task Joeflow.TaskViewMixin.get_task Joeflow.get_task].
  now rewrite E.
Qed.

(** C8.  In both versions of the view mixin, for the [pk] that the URL
    carries, a short text of printable one-byte characters.  When the text is
    a numeral of a key in the range of the column and no stored, uncompleted
    task of the view's node has that key, the request gets the 404 error.  A
    text that is no numeral gets [ValueError] instead, and a numeral outside
    the range of the column [OverflowError]: neither is turned into the 404
    error.  When the numeral is the key of a stored, uncompleted task of the
    node, that task is returned.  A request without [pk] gets a fresh task
    that has no key; and whenever a request with a [pk] gets a task at all, it
    is the stored, uncompleted task of that key and node, never a fresh one.
    The world is left as it was in all cases. *)
Theorem get_task_404_unless_no_pk (name : string) (w : World) :
  (∀ pk k, plain_text pk = true -> int_of_text pk = Some k -> int64 k = true ->
     (∀ t, ¬ open_task w name k t) ->
     TaskViewMixin.get_task name (Some pk) w = Raise Http404 w
     ∧ Joeflow.TaskViewMixin.get_task name (Some pk) w = Raise Http404 w)
  ∧ (∀ pk, plain_text pk = true -> int_of_text pk = None ->
       TaskViewMixin.get_task name (Some pk) w = Raise ValueError w
       ∧ Joeflow.TaskViewMixin.get_task name (Some pk) w = Raise ValueError w)
  ∧ (∀ pk k, plain_text pk = true -> int_of_text pk = Some k -> int64 k = false ->
       TaskViewMixin.get_task name (Some pk) w = Raise OverflowError w
       ∧ Joeflow.TaskViewMixin.get_task name (Some pk) w = Raise OverflowError w)
  ∧ (∀ pk k t, plain_text pk = true -> int_of_text pk = Some k -> int64 k = true ->
       open_task w name k t ->
       TaskViewMixin.get_task name (Some pk) w = Ok t w
       ∧ Joeflow.TaskViewMixin.get_task name (Some pk) w = Ok t w)
  ∧ (∃ t, TaskViewMixin.get_task name None w = Ok t w
          ∧ task_pk t = None ∧ task_node_name t = name)
  ∧ (∃ t, Joeflow.TaskViewMixin.get_task name None w = Ok t w
          ∧ task_pk t = None ∧ task_node_name t = name ∧ task_node_type t = HUMAN)
  ∧ (∀ pk t w', plain_text pk = true ->
       TaskViewMixin.get_task name (Some pk) w = Ok t w'
       ∨ Joeflow.TaskViewMixin.get_task name (Some pk) w = Ok t w' ->
       ∃ k, int_of_text pk = Some k ∧ int64 k = true ∧ open_task w name k t ∧ w' = w).
Proof.
  split; [|split; [|split; [|split; [|split; [|split]]]]].
  - intros pk k _ Hk Hrange Hno.
    destruct (text_get_task_refused name pk w) as [H1 H2].
    { intros k' t Hk'. rewrite Hk in Hk'. injection Hk' as <-. apply Hno. }
    unfold refusal in H1, H2. rewrite Hk, Hrange in H1, H2. now split.
  - intros pk _ Hk.
    destruct (text_get_task_refused name pk w) as [H1 H2].
    { intros k' t Hk'. congruence. }
    unfold refusal in H1, H2. rewrite Hk in H1, H2. now split.
  - intros pk k _ Hk Hrange.
    cbn [TaskViewMixin.get_task Joeflow.TaskViewMixin.get_task].
    unfold TaskViewMixin.get_object_or_404. now rewrite Hk, Hrange.
  - intros pk k t _ Hk Hrange Hopen.
    cbn [TaskViewMixin.get_task Joeflow.TaskViewMixin.get_task].
    unfold TaskViewMixin.get_object_or_404. rewrite Hk, Hrange.
    split; now apply get_object_or_404_found.
  - eexists. split; [reflexivity|]. now split.
  - eexists. split; [reflexivity|]. now repeat split.
  - intros pk t w' _ H.
    cbn [TaskViewMixin.get_task Joeflow.TaskViewMixin.get_task] in H.
    unfold TaskViewMixin.get_object_or_404 in H.
    destruct (int_of_text pk) as [k|]; [|destruct H; discriminate].
    destruct (int64 k) eqn:Hrange; [|destruct H; discriminate].
    exists k. split; [reflexivity|]. split; [exact Hrange|].
    destruct H as [H|H]; now apply get_object_or_404_inv in H.
Qed.

Lemma get_task_404_unless_no_pk_witness :
  TaskViewMixin.get_task "ship" (Some "5") (idle sample_store 20)
  = Raise Http404 (idle sample_store 20)
  ∧ TaskViewMixin.get_task "review" (Some "1") (idle sample_store 20)
    = Raise Http404 (idle sample_store 20)
  ∧ TaskViewMixin.get_task "ship" (Some "1") (idle sample_store 20)
    = Ok ship_row (idle sample_store 20)
  ∧ TaskViewMixin.get_task "ship" (Some "+0_1") (idle sample_store 20)
    = Ok ship_row (idle sample_store 20)
  ∧ TaskViewMixin.get_task "ship" (Some "1.0") (idle sample_store 20)
    = Raise ValueError (idle sample_store 20)
  ∧ TaskViewMixin.get_task "ship" None (idle sample_store 20)
    = Ok (set_node_name "ship" new_Task) (idle sample_store 20).
Proof.
  destruct (get_task_404_unless_no_pk "ship" (idle sample_store 20))
    as (H404 & Hvalue & _ & Hfound & _).
  destruct (get_task_404_unless_no_pk "review" (idle sample_store 20)) as (H404' & _).
  split; [|split; [|split; [|split; [|split]]]].
  - apply (H404 "5" 5); try reflexivity.
    intros t (Hrow & _). vm_compute in Hrow. discriminate.
  - apply (H404' "1" 1); try reflexivity.
    intros t (Hrow & Hname & _). vm_compute in Hrow.
    injection Hrow as <-. discriminate.
  - apply (Hfound "1" 1); try reflexivity. now repeat split.
  - apply (Hfound "+0_1" 1); try reflexivity. now repeat split.
  - now apply (Hvalue "1.0").
  - reflexivity.
Defined.

(** C8 as stated fails: a [pk] that matches no task does not always get the
    404 error.  The route [name/<pk>/] passes any text to the view; for a text
    that is no numeral the query raises [ValueError], and for a numeral beyond
    64 bits the database adapter raises [OverflowError].  [get_task] catches
    [KeyError] only, in both versions of the view mixin. *)
Lemma pk_that_is_no_key_gets_another_error :
  (∀ k t, int_of_text "abc" = Some k -> ¬ open_task (idle sample_store 20) "ship" k t)
  ∧ TaskViewMixin.get_task "ship" (Some "abc") (idle sample_store 20)
    = Raise ValueError (idle sample_store 20)
  ∧ Joeflow.TaskViewMixin.get_task "ship" (Some "abc") (idle sample_store 20)
    = Raise ValueError (idle sample_store 20)
  ∧ int_of_text "9223372036854775808" = Some (2 ^ 63)
  ∧ (∀ t, ¬ open_task (idle sample_store 20) "ship" (2 ^ 63) t)
  ∧ TaskViewMixin.get_task "ship" (Some "9223372036854775808") (idle sample_store 20)
    = Raise OverflowError (idle sample_store 20)
  ∧ Joeflow.TaskViewMixin.get_task "ship" (Some "9223372036854775808")
      (idle sample_store 20)
    = Raise OverflowError (idle sample_store 20).
Proof.
  split; [|split; [|split; [|split; [|split; [|split]]]]]; try reflexivity.
  - intros k t Hk. vm_compute in Hk. discriminate.
  - intros t (Hrow & _). vm_compute in Hrow. discriminate.
Qed.

(** ** The URL of a task *)

Lemma process_of_has_process self w :
  has_process self w -> ∃ proc, process_of self w = Ok proc w.
Proof.
  intros (pid & proc & [ct Hct] & Hpid & Hproc). exists proc.
  unfold process_of, Task_process, bind, get_store, ret.
  now rewrite Hct, Hpid, Hproc.
Qed.

Lemma process_of_cases self w :
  (has_process self w ∧ ∃ proc, process_of self w = Ok proc w)
  ∨ (¬ has_process self w ∧ process_of self w = Raise AttributeError w).
Proof.
  unfold has_process, process_of, Task_process, bind, get_store, ret, raise.
  destruct (task_content_type self) as [ct|].
  - destruct (task_process_id self) as [pid|].
    + destruct (processes (store w) !! pid) as [proc|] eqn:Hproc.
      * left. split; [|now exists proc]. exists pid, proc. split; [eauto|now split].
      * right. split; [|reflexivity]. intros (pid' & proc & _ & [= <-] & H). congruence.
    + right. split; [|reflexivity]. intros (pid' & proc & _ & H & _). discriminate.
  - right. split; [|reflexivity]. intros (pid' & proc & [ct H] & _). discriminate.
Qed.

Lemma reverse_url_cases urlconf viewname pk w :
  reverse_url urlconf viewname pk w = Raise NoReverseMatch w
  ∨ ∃ url, reverse_url urlconf viewname pk w = Ok url w.
Proof.
  unfold reverse_url.
  destruct (split_colon viewname) as [|ns [|name [|? ?]]]; try (now left).
  destruct (find _ urlconf) as [inc|]; [|now left].
  destruct (find _ (reverse _)) as [pat|]; [|now left].
  right. eexists. reflexivity.
Qed.

Lemma split_colon_nonempty s : split_colon s ≠ [].
Proof.
  destruct s as [|c s]; cbn [split_colon]; [discriminate|].
  destruct (Ascii.eqb c ":"); [discriminate|].
  destruct (split_colon s); discriminate.
Qed.

(** Joining the parts with colons gives the text back. *)
Lemma split_colon_join s : String.concat ":" (split_colon s) = s.
Proof.
  induction s as [|c s IH]; [reflexivity|]. cbn [split_colon].
  pose proof (split_colon_nonempty s) as Hne.
  destruct (split_colon s) as [|part parts]; [contradiction|].
  destruct (Ascii.eqb_spec c ":") as [->|Hc].
  - change (String.concat ":" ("" :: part :: parts))
      with (String ":" (String.concat ":" (part :: parts))).
    now rewrite IH.
  - destruct parts as [|part' parts].
    + cbn in IH |- *. now rewrite IH.
    + change (String.concat ":" (String c part :: part' :: parts))
        with (String c (String.concat ":" (part :: part' :: parts))).
      now rewrite IH.
Qed.

Lemma reverse_url_unregistered urlconf viewname pk w :
  (∀ inc pat, inc ∈ urlconf -> pat ∈ inc_patterns inc ->
     inc_namespace inc +:+ ":" +:+ url_name pat ≠ viewname) ->
  reverse_url urlconf viewname pk w = Raise NoReverseMatch w.
Proof.
  intros Hno. unfold reverse_url.
  pose proof (split_colon_join viewname) as Hjoin.
  destruct (split_colon viewname) as [|ns [|name [|? ?]]]; try reflexivity.
  destruct (find _ urlconf) as [inc|] eqn:Hinc; [|reflexivity].
  destruct (find _ (reverse _)) as [pat|] eqn:Hpat; [|reflexivity].
  exfalso. apply find_some in Hinc as [Hinc Hns]. apply find_some in Hpat as [Hpat Hfits].
  apply String.eqb_eq in Hns. unfold fits in Hfits.
  apply andb_true_iff in Hfits as [Hname _]. apply String.eqb_eq in Hname.
  apply (Hno inc pat).
  - now apply list_elem_of_In.
  - apply list_elem_of_In in Hpat. now apply (proj1 (elem_of_reverse _ _)) in Hpat.
  - rewrite Hns, Hname. exact Hjoin.
Qed.

(** C10.  [get_absolute_url] gives [None] for a task whose [completed] is
    set.  For an uncompleted task it reads [self.process] before the [try]:
    when the task has no stored process it raises [AttributeError].  When it
    has one, the call does not raise: it gives [None] when the reversal raises
    [NoReverseMatch], in particular when no route is registered under the
    namespaced node name, and the URL when the reversal gives one.  A URL is
    only ever returned for an uncompleted task whose route resolves, and
    [AttributeError] for a task without process is the only exception.  The
    world is left as it was in all cases. *)
Theorem get_absolute_url_raises_only_without_process
    (cls : ProcessClass) (urlconf : list Include) (self : Task) (w : World) :
  (task_completed self ≠ None ->
     Task_get_absolute_url cls urlconf self w = Ok None w)
  ∧ (task_completed self = None -> ¬ has_process self w ->
       Task_get_absolute_url cls urlconf self w = Raise AttributeError w)
  ∧ (task_completed self = None -> has_process self w ->
       (∃ r, Task_get_absolute_url cls urlconf self w = Ok r w)
       ∧ (reverse_url urlconf (url_name_of cls self) (task_pk self) w
            = Raise NoReverseMatch w ->
          Task_get_absolute_url cls urlconf self w = Ok None w)
       ∧ ((∀ inc pat, inc ∈ urlconf -> pat ∈ inc_patterns inc ->
             inc_namespace inc +:+ ":" +:+ url_name pat ≠ url_name_of cls self) ->
          Task_get_absolute_url cls urlconf self w = Ok None w)
       ∧ (∀ url, reverse_url urlconf (url_name_of cls self) (task_pk self) w
                 = Ok url w ->
          Task_get_absolute_url cls urlconf self w = Ok (Some url) w))
  ∧ (∀ url w', Task_get_absolute_url cls urlconf self w = Ok (Some url) w' ->
       task_completed self = None
       ∧ reverse_url urlconf (url_name_of cls self) (task_pk self) w = Ok url w
       ∧ w' = w)
  ∧ (∀ e w', Task_get_absolute_url cls urlconf self w = Raise e w' ->
       e = AttributeError ∧ task_completed self = None ∧ ¬ has_process self w
       ∧ w' = w).
Proof.
  assert (task_completed self = None ->
          ∀ proc, process_of self w = Ok proc w ->
          Task_get_absolute_url cls urlconf self w
          = try_except
              (url <~ reverse_url urlconf (url_name_of cls self) (task_pk self) ;;
               ret (Some url)) NoReverseMatch (ret None) w) as E.
  { intros Hc proc Hproc. unfold Task_get_absolute_url. rewrite Hc.
    now rewrite (bind_Ok _ _ _ _ _ Hproc). }
  assert (task_completed self = None -> ¬ has_process self w ->
          Task_get_absolute_url cls urlconf self w = Raise AttributeError w) as Hnone.
  { intros Hc Hp. destruct (process_of_cases self w) as [[Hp' _]|[_ Hproc]];
      [contradiction|].
    unfold Task_get_absolute_url. rewrite Hc. now apply bind_Raise. }
  assert (∀ proc, task_completed self = None -> process_of self w = Ok proc w ->
          reverse_url urlconf (url_name_of cls self) (task_pk self) w
            = Raise NoReverseMatch w ->
          Task_get_absolute_url cls urlconf self w = Ok None w) as Hraise.
  { intros proc Hc Hproc Hr. rewrite (E Hc proc Hproc). unfold try_except.
    rewrite (bind_Raise _ _ _ _ _ Hr). now rewrite decide_True. }
  assert (∀ proc url, task_completed self = None -> process_of self w = Ok proc w ->
          reverse_url urlconf (url_name_of cls self) (task_pk self) w = Ok url w ->
          Task_get_absolute_url cls urlconf self w = Ok (Some url) w) as Hok.
  { intros proc url Hc Hproc Hr. rewrite (E Hc proc Hproc). unfold try_except.
    now rewrite (bind_Ok _ _ _ _ _ Hr). }
  split; [|split; [exact Hnone|split; [|split]]].
  - intros Hc. unfold Task_get_absolute_url.
    destruct (task_completed self); [reflexivity|congruence].
  - intros Hc Hp. destruct (process_of_cases self w) as [[_ [proc Hproc]]|[Hp' _]];
      [|contradiction].
    split; [|split; [|split]].
    + destruct (reverse_url_cases urlconf (url_name_of cls self) (task_pk self) w)
        as [Hr|[url Hr]]; eauto.
    + now apply (Hraise proc).
    + intros Hno. apply (Hraise proc); [assumption|assumption|].
      now apply reverse_url_unregistered.
    + intros url. now apply (Hok proc).
  - intros url w' H.
    destruct (task_completed self) eqn:Hc.
    { unfold Task_get_absolute_url in H. rewrite Hc in H. discriminate. }
    destruct (process_of_cases self w) as [[_ [proc Hproc]]|[Hp Hproc]].
    + destruct (reverse_url_cases urlconf (url_name_of cls self) (task_pk self) w)
        as [Hr|[url' Hr]].
      * rewrite (Hraise proc eq_refl Hproc Hr) in H. discriminate.
      * rewrite (Hok proc url' eq_refl Hproc Hr) in H. injection H as -> ->.
        now split.
    + rewrite (Hnone eq_refl Hp) in H. discriminate.
  - intros e w' H.
    destruct (task_completed self) eqn:Hc.
    { unfold Task_get_absolute_url in H. rewrite Hc in H. discriminate. }
    destruct (process_of_cases self w) as [[_ [proc Hproc]]|[Hp Hproc]].
    + destruct (reverse_url_cases urlconf (url_name_of cls self) (task_pk self) w)
        as [Hr|[url' Hr]].
      * rewrite (Hraise proc eq_refl Hproc Hr) in H. discriminate.
      * rewrite (Hok proc url' eq_refl Hproc Hr) in H. discriminate.
    + rewrite (Hnone eq_refl Hp) in H. injection H as <- <-. now repeat split.
Qed.

Lemma sample_has_process t :
  task_content_type t = Some 7 -> task_process_id t = Some 1 ->
  has_process t (idle sample_store 20).
Proof.
  intros Hct Hpid. exists 1, order_row. rewrite Hct, Hpid.
  split; [eexists; reflexivity|]. split; reflexivity.
Qed.

Lemma get_absolute_url_raises_only_without_process_witness :
  Task_get_absolute_url Order sample_urlconf review_row (idle sample_store 20)
  = Ok (Some "/orders/review/2/") (idle sample_store 20)
  ∧ Task_get_absolute_url Order sample_urlconf ship_row (idle sample_store 20)
    = Ok None (idle sample_store 20)
  ∧ Task_get_absolute_url Order sample_urlconf
      (set_completed (Some 15) review_row) (idle sample_store 20)
    = Ok None (idle sample_store 20)
  ∧ Task_get_absolute_url Order sample_urlconf
      (set_process_id None review_row) (idle sample_store 20)
    = Raise AttributeError (idle sample_store 20).
Proof.
  destruct (get_absolute_url_raises_only_without_process Order sample_urlconf
              review_row (idle sample_store 20)) as (_ & _ & Hreview & _).
  destruct (get_absolute_url_raises_only_without_process Order sample_urlconf
              ship_row (idle sample_store 20)) as (_ & _ & Hship & _).
  destruct (get_absolute_url_raises_only_without_process Order sample_urlconf
              (set_completed (Some 15) review_row) (idle sample_store 20))
    as (Hdone & _).
  destruct (get_absolute_url_raises_only_without_process Order sample_urlconf
              (set_process_id None review_row) (idle sample_store 20))
    as (_ & Hnone & _).
  destruct (Hreview eq_refl (sample_has_process review_row eq_refl eq_refl))
    as (_ & _ & _ & Hurl).
  destruct (Hship eq_refl (sample_has_process ship_row eq_refl eq_refl))
    as (_ & Hnoroute & _).
  split; [|split; [|split]].
  - apply Hurl. reflexivity.
  - apply Hnoroute. reflexivity.
  - apply Hdone. discriminate.
  - apply Hnone; [reflexivity|]. intros (pid & proc & _ & Hpid & _). discriminate.
Defined.

(** C10 as stated fails: [get_absolute_url] raises for a task that is not
    completed and has no process, such as the fresh task a create view builds
    from its node name.  [self.process] is [None] for it, and the attribute
    access [self.process.get_url_namespace] is outside the [try]. *)
Lemma get_absolute_url_raises_without_process :
  task_completed (set_node_name "start" new_Task) = None
  ∧ Task_get_absolute_url Order sample_urlconf (set_node_name "start" new_Task)
      (idle sample_store 20)
    = Raise AttributeError (idle sample_store 20).
Proof. split; reflexivity. Qed.

(** ** Well-formed stores and effects inside a transaction *)

Lemma tx_effect_refl w : tx_effect w w (store w) [].
Proof. split; try reflexivity. now rewrite app_nil_r. Qed.

Lemma tx_effect_trans w w1 w2 s1 s2 hs1 hs2 :
  tx_effect w w1 s1 hs1 -> tx_effect w1 w2 s2 hs2 ->
  tx_effect w w2 s2 (hs1 ++ hs2).
Proof.
  intros [] []. split; try congruence.
  rewrite app_assoc. congruence.
Qed.

Lemma tx_effect_in_atomic w w' s' hs :
  tx_effect w w' s' hs -> in_atomic_block w' = in_atomic_block w.
Proof. intros []. unfold in_atomic_block. congruence. Qed.

Lemma tx_effect_write w s' :
  in_atomic_block w = true -> tx_effect w (after_write s' w) s' [].
Proof.
  intros Hin. unfold after_write. rewrite Hin.
  split; cbn; try reflexivity. now rewrite app_nil_r.
Qed.

Lemma tx_effect_tick w : tx_effect w (tick w) (store w) [].
Proof. split; cbn; try reflexivity. now rewrite app_nil_r. Qed.

Lemma in_atomic_block_tick w : in_atomic_block (tick w) = in_atomic_block w.
Proof. reflexivity. Qed.

Lemma tx_effect_push w h : tx_effect w (push_hook h w) (store w) [h].
Proof. split; reflexivity. Qed.

Lemma tx_effect_then_write w w1 s1 hs s' :
  in_atomic_block w = true -> tx_effect w w1 s1 hs ->
  tx_effect w (after_write s' w1) s' hs.
Proof.
  intros Hin H1.
  assert (in_atomic_block w1 = true) as Hin1
    by now rewrite (tx_effect_in_atomic _ _ _ _ H1).
  pose proof (tx_effect_trans _ _ _ _ _ _ _ H1 (tx_effect_write w1 s' Hin1)) as H.
  now rewrite app_nil_r in H.
Qed.

Lemma tx_effect_then_tick w w1 s1 hs :
  tx_effect w w1 s1 hs -> tx_effect w (tick w1) s1 hs.
Proof.
  intros H1.
  pose proof (tx_effect_trans _ _ _ _ _ _ _ H1 (tx_effect_tick w1)) as H.
  rewrite app_nil_r in H. now rewrite <- (te_store _ _ _ _ H1).
Qed.

Lemma store_wf_put_fresh s t :
  store_wf s -> task_pk t = Some (next_task_id s) ->
  store_wf (put_task (next_task_id s) t s).
Proof.
  intros [Hn Hk Hl Hp] Ht. split; cbn.
  - lia.
  - intros p t' Hlook. destruct (decide (next_task_id s = p)) as [<-|Hne].
    + rewrite lookup_insert_eq in Hlook. injection Hlook as <-. split; [assumption|lia].
    + rewrite lookup_insert_ne in Hlook by assumption.
      destruct (Hk _ _ Hlook). split; [assumption|lia].
  - intros c p Hin. destruct (Hl _ _ Hin) as [Hc Hp'].
    split; rewrite lookup_insert_is_Some; destruct (decide (next_task_id s = c)),
      (decide (next_task_id s = p)); auto.
  - assumption.
Qed.

Lemma store_wf_set_task s p row row' :
  store_wf s -> tasks s !! p = Some row -> task_pk row' = Some p ->
  store_wf (set_task p row' s).
Proof.
  intros [Hn Hk Hl Hp] Hrow Hpk. split; cbn.
  - assumption.
  - intros q t' Hlook. destruct (decide (p = q)) as [<-|Hne].
    + rewrite lookup_insert_eq in Hlook. injection Hlook as <-.
      split; [assumption|]. now destruct (Hk _ _ Hrow).
    + rewrite lookup_insert_ne in Hlook by assumption. now apply Hk.
  - intros c q Hin. destruct (Hl _ _ Hin) as [Hc Hq].
    split; rewrite lookup_insert_is_Some; destruct (decide (p = c)),
      (decide (p = q)); auto.
  - assumption.
Qed.

Lemma store_wf_add_parent s c p :
  store_wf s -> is_Some (tasks s !! c) -> is_Some (tasks s !! p) ->
  store_wf (add_parent c p s).
Proof.
  intros [Hn Hk Hl Hp] Hc Hq. split; cbn; try assumption.
  intros c' p' Hin. apply elem_of_union in Hin as [Hin|Hin].
  - apply elem_of_singleton in Hin. injection Hin as -> ->. now split.
  - now apply Hl.
Qed.

Lemma store_wf_fresh s :
  store_wf s -> tasks s !! next_task_id s = None.
Proof.
  intros [Hn Hk Hl Hp]. destruct (tasks s !! next_task_id s) as [t|] eqn:E; [|reflexivity].
  destruct (Hk _ _ E). lia.
Qed.

Lemma store_wf_fresh_links s c p :
  store_wf s -> (c, p) ∈ parent_links s ->
  c < next_task_id s ∧ p < next_task_id s.
Proof.
  intros Hwf Hin. destruct (wf_links _ Hwf _ _ Hin) as [[tc Hc] [tp Hp]].
  destruct (wf_task_keys _ Hwf _ _ Hc), (wf_task_keys _ Hwf _ _ Hp). lia.
Qed.

(** ** Creating and linking a task *)

Lemma task_set_create_spec cls proc pid name type w :
  in_atomic_block w = true ->
  process_pk proc = Some pid ->
  is_Some (processes (store w) !! pid) ->
  ∃ t w',
    task_set_create cls proc name type w = Ok t w'
    ∧ t = mkTask (Some (next_task_id (store w))) (Some pid)
            (Some (cls_content_type cls)) name type SCHEDULED None
            (Some (clock w)) (Some (clock w + 1)) None "" ""
    ∧ creates_task name pid w t w'.
Proof.
  intros Hin Hpk [row Hrow].
  eexists _, _. split; [|split; [reflexivity|]].
  - unfold task_set_create, Task_save. cbn. rewrite Hpk.
    unfold insert_task, bind, timezone_now, get_store, write_store, ret. cbn.
    rewrite Hrow. reflexivity.
  - split; [reflexivity|]. split; [reflexivity|]. split; [reflexivity|].
    eapply tx_effect_then_write; [assumption|].
    do 2 eapply tx_effect_then_tick. apply tx_effect_refl.
Qed.

Lemma parent_task_set_add_spec task parent c p w :
  in_atomic_block w = true ->
  task_pk task = Some c -> task_pk parent = Some p ->
  is_Some (tasks (store w) !! c) -> is_Some (tasks (store w) !! p) ->
  ∃ w', parent_task_set_add task parent w = Ok tt w'
        ∧ tx_effect w w' (add_parent c p (store w)) [].
Proof.
  intros Hin Hc Hp [rc Hrc] [rp Hrp]. eexists. split.
  - unfold parent_task_set_add. rewrite Hc, Hp.
    unfold bind, get_store, write_store. rewrite Hrc, Hrp. reflexivity.
  - now apply tx_effect_write.
Qed.

(** ** One round of the loop of [start_next_tasks] *)

Section Loop.
Variable cls : ProcessClass.
Variable self : Task.
Variables p pid : Z.
Variable proc : Process.
Hypothesis self_pk : task_pk self = Some p.
Hypothesis self_content_type : is_Some (task_content_type self).
Hypothesis self_process_id : task_process_id self = Some pid.

Lemma Task_process_ready w :
  ready p pid proc w -> Task_process self w = Ok (Some proc) w.
Proof.
  intros (_ & _ & _ & Hproc). destruct self_content_type as [ct Hct].
  unfold Task_process, bind, get_store, ret.
  now rewrite Hct, self_process_id, Hproc.
Qed.

Lemma process_of_ready w : ready p pid proc w -> process_of self w = Ok proc w.
Proof.
  intros Hr. unfold process_of.
  now rewrite (bind_Ok _ _ _ _ _ (Task_process_ready w Hr)).
Qed.

Lemma create_step n w :
  ready p pid proc w -> honours_create_task n ->
  ∃ t w',
    try_except
      (match create_task n with
       | Some create => process <~ Task_process self ;; create process
       | None => raise AttributeError
       end)
      AttributeError
      (process <~ process_of self ;;
       task_set_create cls process (node_name n) (node_type n)) w
    = Ok t w'
    ∧ creates_task (node_name n) pid w t w'
    ∧ (create_task n = None ->
         task_node_type t = node_type n ∧ task_status t = SCHEDULED
         ∧ task_completed t = None).
Proof.
  intros Hr Hn. pose proof Hr as (Hin & Hwf & Hrow & Hproc).
  destruct (create_task n) as [create|] eqn:Hc.
  - destruct (Hn create Hc pid proc w Hin Hwf Hproc) as (t & w' & Hrun & Hpost).
    exists t, w'. split; [|split; [assumption|discriminate]].
    unfold try_except.
    rewrite (bind_Ok _ _ _ _ _ (Task_process_ready w Hr)). now rewrite Hrun.
  - destruct (task_set_create_spec cls proc pid (node_name n) (node_type n) w)
      as (t & w' & Hrun & Ht & Hpost).
    { assumption. }
    { now apply (wf_process_keys _ Hwf). }
    { now rewrite Hproc. }
    exists t, w'. split; [|split; [assumption|]].
    + unfold try_except, raise. rewrite decide_True by reflexivity.
      now rewrite (bind_Ok _ _ _ _ _ (process_of_ready w Hr)).
    + intros _. now rewrite Ht.
Qed.

Lemma start_task_spec item n w :
  ready p pid proc w -> item w = Ok n w -> honours_create_task n ->
  ∃ t w',
    start_task cls self item w = Ok t w'
    ∧ started p pid (store w) [n] [t] (store w')
    ∧ tx_effect w w' (link_child p (store w) t)
        (if is_callable n then [HookEnqueue t] else [])
    ∧ ready p pid proc w'.
Proof.
  intros Hr Hitem Hn. pose proof Hr as (Hin & Hwf & Hrow & Hproc).
  destruct (create_step n w Hr Hn) as (t & w1 & Hcreate & Hct & Hdefault).
  destruct Hct as (Hpk & Hname & Hpid & He1).
  assert (p ≠ next_task_id (store w)) as Hne.
  { intros ->. rewrite store_wf_fresh in Hrow by assumption. now destruct Hrow. }
  destruct (parent_task_set_add_spec t self (next_task_id (store w)) p w1)
    as (w2 & Hadd & He2); try assumption.
  { now rewrite (tx_effect_in_atomic _ _ _ _ He1). }
  { rewrite (te_store _ _ _ _ He1). cbn. rewrite lookup_insert_eq. eauto. }
  { rewrite (te_store _ _ _ _ He1). cbn. now rewrite lookup_insert_ne. }
  rewrite (te_store _ _ _ _ He1) in He2.
  pose proof (tx_effect_trans _ _ _ _ _ _ _ He1 He2) as He12. cbn in He12.
  assert (in_atomic_block w2 = true) as Hin2
    by now rewrite (tx_effect_in_atomic _ _ _ _ He12).
  set (w3 := if is_callable n then push_hook (HookEnqueue t) w2 else w2).
  assert (tx_effect w w3 (link_child p (store w) t)
            (if is_callable n then [HookEnqueue t] else [])) as He3.
  { unfold w3. destruct (is_callable n).
    - pose proof (tx_effect_trans _ _ _ _ _ _ _ He12
                    (tx_effect_push w2 (HookEnqueue t))) as H.
      cbn in H. now rewrite (te_store _ _ _ _ He12) in H.
    - assumption. }
  exists t, w3. split; [|split; [|split]].
  - unfold start_task.
    rewrite (bind_Ok _ _ _ _ _ Hitem).
    rewrite (bind_Ok _ _ _ _ _ Hcreate).
    rewrite (bind_Ok _ _ _ _ _ Hadd).
    unfold w3. destruct (is_callable n); [|reflexivity].
    unfold bind, on_commit. now rewrite Hin2.
  - rewrite (te_store _ _ _ _ He3).
    apply started_cons; try assumption. apply started_nil.
  - assumption.
  - split; [now rewrite (tx_effect_in_atomic _ _ _ _ He3)|].
    rewrite (te_store _ _ _ _ He3). split; [|split].
    + apply store_wf_add_parent.
      * now apply store_wf_put_fresh.
      * cbn. rewrite lookup_insert_eq. eauto.
      * cbn. now rewrite lookup_insert_ne.
    + cbn. now rewrite lookup_insert_ne.
    + assumption.
Qed.

Lemma started_app s nodes1 ts1 s1 nodes2 ts2 s2 :
  started p pid s nodes1 ts1 s1 -> started p pid s1 nodes2 ts2 s2 ->
  started p pid s (nodes1 ++ nodes2) (ts1 ++ ts2) s2.
Proof.
  induction 1 as [|s n nodes t ts s' Hpk Hname Hpid Hdef Hrest IH]; intros H2.
  - assumption.
  - cbn. apply started_cons; auto.
Qed.

Lemma start_tasks_spec items nodes w :
  ready p pid proc w ->
  Forall2 (fun (item : M Node) n => ∀ w, item w = Ok n w) items nodes ->
  Forall honours_create_task nodes ->
  ∃ ts w',
    mapM (start_task cls self) items w = Ok ts w'
    ∧ started p pid (store w) nodes ts (store w')
    ∧ tx_effect w w' (store w') (HookEnqueue <$> to_enqueue nodes ts)
    ∧ ready p pid proc w'.
Proof.
  intros Hr Hitems. revert w Hr.
  induction Hitems as [|item n items nodes Hitem Hitems IH]; intros w Hr Hnodes.
  - exists [], w. split; [reflexivity|]. split; [constructor|].
    split; [apply tx_effect_refl|assumption].
  - apply Forall_cons in Hnodes as [Hn Hnodes].
    destruct (start_task_spec item n w Hr (Hitem w) Hn)
      as (t & w1 & Hrun1 & Hst1 & He1 & Hr1).
    destruct (IH w1 Hr1 Hnodes) as (ts & w2 & Hrun2 & Hst2 & He2 & Hr2).
    exists (t :: ts), w2. split; [|split; [|split]].
    + cbn [mapM]. rewrite (bind_Ok _ _ _ _ _ Hrun1).
      now rewrite (bind_Ok _ _ _ _ _ Hrun2).
    + apply (started_app _ [n] [t] (store w1)); assumption.
    + pose proof (tx_effect_trans _ _ _ _ _ _ _ He1 He2) as He.
      cbn [to_enqueue]. destruct (is_callable n); cbn in He |- *; exact He.
    + assumption.
Qed.

End Loop.

(** ** What [started] says about the store *)

Lemma link_child_next p s t :
  next_task_id (link_child p s t) = next_task_id s + 1.
Proof. cbn. lia. Qed.

Lemma started_length p pid s nodes ts s' :
  started p pid s nodes ts s' -> length ts = length nodes.
Proof. induction 1; cbn; congruence. Qed.

Lemma started_next p pid s nodes ts s' :
  started p pid s nodes ts s' ->
  next_task_id s' = next_task_id s + Z.of_nat (length nodes)
  ∧ processes s' = processes s
  ∧ next_process_id s' = next_process_id s.
Proof.
  induction 1 as [|s n nodes t ts s' Hpk Hname Hpid Hdef Hrest IH].
  - cbn. repeat split. lia.
  - destruct IH as (IH1 & IH2 & IH3). rewrite link_child_next in IH1.
    cbn [length]. cbn in IH2, IH3. repeat split; try assumption. lia.
Qed.

Lemma started_old_rows p pid s nodes ts s' q :
  started p pid s nodes ts s' -> q < next_task_id s ->
  tasks s' !! q = tasks s !! q.
Proof.
  induction 1 as [|s n nodes t ts s' Hpk Hname Hpid Hdef Hrest IH]; intros Hq.
  - reflexivity.
  - rewrite IH by (rewrite link_child_next; lia).
    cbn. apply lookup_insert_ne. lia.
Qed.

Lemma started_new_rows p pid s nodes ts s' i t :
  started p pid s nodes ts s' -> ts !! i = Some t ->
  task_pk t = Some (next_task_id s + Z.of_nat i)
  ∧ tasks s' !! (next_task_id s + Z.of_nat i) = Some t.
Proof.
  intros H. revert i.
  induction H as [|s n nodes t0 ts s' Hpk Hname Hpid Hdef Hrest IH]; intros i Hi.
  - discriminate.
  - destruct i as [|i]; cbn in Hi.
    + injection Hi as <-. rewrite Z.add_0_r. split; [assumption|].
      rewrite (started_old_rows _ _ _ _ _ _ _ Hrest)
        by (rewrite link_child_next; lia).
      cbn. apply lookup_insert_eq.
    + destruct (IH i Hi) as [IH1 IH2]. rewrite link_child_next in IH1, IH2.
      replace (next_task_id s + Z.of_nat (S i))
        with (next_task_id s + 1 + Z.of_nat i) by lia.
      now split.
Qed.

Lemma started_nodes p pid s nodes ts s' i n :
  started p pid s nodes ts s' -> nodes !! i = Some n ->
  ∃ t, ts !! i = Some t
       ∧ task_node_name t = node_name n
       ∧ task_process_id t = Some pid
       ∧ (create_task n = None ->
            task_node_type t = node_type n ∧ task_status t = SCHEDULED
            ∧ task_completed t = None).
Proof.
  intros H. revert i.
  induction H as [|s n0 nodes t0 ts s' Hpk Hname Hpid Hdef Hrest IH]; intros i Hi.
  - discriminate.
  - destruct i as [|i]; cbn in Hi.
    + injection Hi as ->. exists t0. split; [reflexivity|]. auto.
    + now apply IH.
Qed.

Lemma started_dom p pid s nodes ts s' q :
  started p pid s nodes ts s' ->
  is_Some (tasks s' !! q)
  ↔ is_Some (tasks s !! q)
    ∨ next_task_id s ≤ q < next_task_id s + Z.of_nat (length nodes).
Proof.
  induction 1 as [|s n nodes t ts s' Hpk Hname Hpid Hdef Hrest IH].
  - cbn. split; [auto|]. intros [H|H]; [assumption|lia].
  - rewrite IH. rewrite link_child_next. cbn [length].
    cbn. rewrite lookup_insert_is_Some. split.
    + intros [[->|[_ H]]|H]; [right; lia | now left | right; lia].
    + intros [H|H].
      * left. destruct (decide (next_task_id s = q)); auto.
      * destruct (decide (next_task_id s = q)); [now left; left|right; lia].
Qed.

Lemma started_links p pid s nodes ts s' c q :
  started p pid s nodes ts s' ->
  (c, q) ∈ parent_links s'
  ↔ (c, q) ∈ parent_links s
    ∨ (q = p ∧ next_task_id s ≤ c < next_task_id s + Z.of_nat (length nodes)).
Proof.
  induction 1 as [|s n nodes t ts s' Hpk Hname Hpid Hdef Hrest IH].
  - cbn. split; [auto|]. intros [H|[_ H]]; [assumption|lia].
  - rewrite IH. rewrite link_child_next. cbn [length].
    cbn. rewrite elem_of_union, elem_of_singleton. split.
    + intros [[H|H]|[-> H]].
      * injection H as -> ->. right. split; [reflexivity|lia].
      * now left.
      * right. split; [reflexivity|lia].
    + intros [H|[-> H]].
      * left. now right.
      * destruct (decide (c = next_task_id s)) as [->|Hne].
        -- left. now left.
        -- right. split; [reflexivity|lia].
Qed.

Lemma started_wf p pid s nodes ts s' :
  started p pid s nodes ts s' ->
  store_wf s -> is_Some (tasks s !! p) -> store_wf s'.
Proof.
  induction 1 as [|s n nodes t ts s' Hpk Hname Hpid Hdef Hrest IH];
    intros Hwf Hrow; [assumption|].
  assert (p ≠ next_task_id s) as Hne.
  { intros ->. rewrite store_wf_fresh in Hrow by assumption. now destruct Hrow. }
  apply IH.
  - apply store_wf_add_parent.
    + now apply store_wf_put_fresh.
    + cbn. rewrite lookup_insert_eq. eauto.
    + cbn. now rewrite lookup_insert_ne.
  - cbn. now rewrite lookup_insert_ne.
Qed.

(** The parent set of a created task is the calling task alone. *)
Lemma started_parents p pid s nodes ts s' i :
  started p pid s nodes ts s' -> store_wf s ->
  (i < length nodes)%nat ->
  parents_of s' (next_task_id s + Z.of_nat i) = {[ p ]}.
Proof.
  intros Hst Hwf Hi. apply set_eq. intros q.
  unfold parents_of. rewrite elem_of_map, elem_of_singleton. split.
  - intros ([c q'] & -> & Hin). apply elem_of_filter in Hin as [Hc Hin].
    cbn in Hc. subst c. cbn.
    apply (started_links _ _ _ _ _ _ _ _ Hst) in Hin as [Hin|[-> _]]; [|reflexivity].
    destruct (store_wf_fresh_links _ _ _ Hwf Hin). lia.
  - intros ->. exists (next_task_id s + Z.of_nat i, p). split; [reflexivity|].
    apply elem_of_filter. split; [reflexivity|].
    apply (started_links _ _ _ _ _ _ _ _ Hst). right. split; [reflexivity|lia].
Qed.

(** ** The hooks of [start_next_tasks] at commit *)

Section UpdatedRows.
Variable upd : Task -> Z -> Task.
Hypothesis upd_twice : ∀ row c c', upd (upd row c) c' = upd row c'.
Hypothesis upd_pk : ∀ row c, task_pk (upd row c) = task_pk row.

Lemma updated_rows_nil s : updated_rows upd [] s s.
Proof.
  repeat split; try reflexivity. intros q Hq. now apply elem_of_nil in Hq.
Qed.

Lemma updated_rows_cons k row c keys s s' :
  tasks s !! k = Some row ->
  updated_rows upd keys (set_task k (upd row c) s) s' ->
  updated_rows upd (k :: keys) s s'.
Proof.
  intros Hrow (Hl & Hp & Hn & Hnp & Hother & Hkeys).
  split; [assumption|]. split; [assumption|]. split; [assumption|].
  split; [assumption|]. split.
  - intros q Hq. apply not_elem_of_cons in Hq as [Hqk Hq].
    rewrite (Hother q Hq). cbn. now apply lookup_insert_ne.
  - intros q Hq. destruct (decide (q ∈ keys)) as [Hin|Hnin].
    + destruct (Hkeys q Hin) as [c' Hc']. exists c'. rewrite Hc'. cbn.
      destruct (decide (k = q)) as [<-|Hne].
      * rewrite lookup_insert_eq, Hrow. cbn. now rewrite upd_twice.
      * now rewrite lookup_insert_ne.
    + apply elem_of_cons in Hq as [->|Hq]; [|contradiction].
      exists c. rewrite (Hother k Hnin). cbn.
      now rewrite lookup_insert_eq, Hrow.
Qed.

Lemma updated_rows_row keys s s' q t :
  updated_rows upd keys s s' -> tasks s !! q = Some t ->
  ∃ row, tasks s' !! q = Some row
         ∧ (((q ∉ keys) ∧ row = t) ∨ ((q ∈ keys) ∧ (∃ c, row = upd t c))).
Proof.
  intros (_ & _ & _ & _ & Hother & Hkeys) Hq.
  destruct (decide (q ∈ keys)) as [Hin|Hnin].
  - destruct (Hkeys q Hin) as [c Hc]. rewrite Hq in Hc. cbn in Hc. eauto 7.
  - rewrite <- (Hother q Hnin) in Hq. eauto.
Qed.

Lemma updated_rows_dom keys s s' q :
  updated_rows upd keys s s' -> is_Some (tasks s' !! q) ↔ is_Some (tasks s !! q).
Proof.
  intros (_ & _ & _ & _ & Hother & Hkeys).
  destruct (decide (q ∈ keys)) as [Hin|Hnin].
  - destruct (Hkeys q Hin) as [c ->]. apply fmap_is_Some.
  - now rewrite (Hother q Hnin).
Qed.

Lemma updated_rows_parents keys s s' q :
  updated_rows upd keys s s' -> parents_of s' q = parents_of s q.
Proof. intros (Hl & _). unfold parents_of. now rewrite Hl. Qed.

Lemma updated_rows_wf keys s s' :
  updated_rows upd keys s s' -> store_wf s -> store_wf s'.
Proof.
  intros Hupd [Hnext Hk Hlinks Hproc].
  pose proof Hupd as (Hl & Hp & Hn & Hnp & Hother & Hkeys).
  assert (∀ q t', tasks s' !! q = Some t' ->
            ∃ t, tasks s !! q = Some t ∧ task_pk t' = task_pk t) as Hrows.
  { intros q t' Hq. destruct (decide (q ∈ keys)) as [Hin|Hnin].
    - destruct (Hkeys q Hin) as [c Hc]. rewrite Hq in Hc.
      destruct (tasks s !! q) as [t|]; [|discriminate].
      injection Hc as ->. eauto.
    - rewrite (Hother q Hnin) in Hq. eauto. }
  split.
  - congruence.
  - intros q t' Hq. destruct (Hrows q t' Hq) as (t & Ht & ->).
    rewrite Hn. now apply Hk.
  - intros c q Hin. rewrite Hl in Hin. destruct (Hlinks c q Hin).
    split; now apply (updated_rows_dom keys s s').
  - rewrite Hp. assumption.
Qed.

End UpdatedRows.

Lemma enqueued_twice row c c' : enqueued (enqueued row c) c' = enqueued row c'.
Proof. reflexivity. Qed.

Lemma rescheduled_nil s : rescheduled [] s s.
Proof. apply updated_rows_nil. Qed.

Lemma rescheduled_cons k row c keys s s' :
  tasks s !! k = Some row ->
  rescheduled keys (set_task k (enqueued row c) s) s' ->
  rescheduled (k :: keys) s s'.
Proof. apply updated_rows_cons. apply enqueued_twice. Qed.

Lemma rescheduled_wf keys s s' :
  rescheduled keys s s' -> store_wf s -> store_wf s'.
Proof. apply updated_rows_wf. reflexivity. Qed.

Lemma run_enqueue_hook t k row w :
  atomic_depth w = 0%nat ->
  task_pk t = Some k -> k ≠ 0 -> tasks (store w) !! k = Some row ->
  run_hook (HookEnqueue t) w
  = Ok tt (send (message_of t)
             (after_write (set_task k (enqueued row (clock w)) (store w)) (tick w))).
Proof.
  intros Hd Hpk Hk Hrow. unfold run_hook.
  rewrite (bind_Ok _ _ _ _ _ (Task_enqueue_stored t None None k row w Hpk Hk Hrow)).
  unfold in_atomic_block. rewrite Hd. cbn. unfold message_of. now rewrite Hpk.
Qed.

Lemma run_enqueue_hooks ts w :
  atomic_depth w = 0%nat ->
  committed w = store w ->
  (∀ t, t ∈ ts -> ∃ k, task_pk t = Some k ∧ k ≠ 0 ∧ is_Some (tasks (store w) !! k)) ->
  ∃ us w' keys,
    mapM run_hook (HookEnqueue <$> ts) w = Ok us w'
    ∧ task_pks ts = Some keys
    ∧ rescheduled keys (store w) (store w')
    ∧ committed w' = store w'
    ∧ atomic_depth w' = 0%nat
    ∧ run_on_commit w' = run_on_commit w
    ∧ queue w' = queue w ++ (message_of <$> ts).
Proof.
  revert w. induction ts as [|t ts IH]; intros w Hd Hc Hts.
  - exists [], w, []. cbn. split; [reflexivity|]. split; [reflexivity|].
    split; [apply rescheduled_nil|]. rewrite app_nil_r. now repeat split.
  - destruct (Hts t) as (k & Hpk & Hk & [row Hrow]); [now left|].
    pose proof (run_enqueue_hook t k row w Hd Hpk Hk Hrow) as Hrun.
    set (w1 := send (message_of t)
                 (after_write (set_task k (enqueued row (clock w)) (store w)) (tick w)))
      in Hrun.
    assert (store w1 = set_task k (enqueued row (clock w)) (store w)) as Hs1
      by reflexivity.
    assert (atomic_depth w1 = 0%nat) as Hd1 by exact Hd.
    assert (committed w1 = store w1) as Hc1.
    { unfold w1, send, after_write, in_atomic_block. cbn. now rewrite Hd. }
    destruct (IH w1 Hd1 Hc1) as (us & w' & keys & Hrun' & Hkeys & Hres & Hc' & Hd' & Hh' & Hq').
    { intros t' Ht'. destruct (Hts t') as (k' & Hpk' & Hk' & Hrow'); [now right|].
      exists k'. split; [assumption|]. split; [assumption|].
      rewrite Hs1. cbn. rewrite lookup_insert_is_Some.
      destruct (decide (k = k')); auto. }
    exists (tt :: us), w', (k :: keys).
    split; [|split; [|split; [|split; [|split; [|split]]]]].
    + cbn [fmap list_fmap mapM]. rewrite (bind_Ok _ _ _ _ _ Hrun).
      now rewrite (bind_Ok _ _ _ _ _ Hrun').
    + cbn. now rewrite Hpk, Hkeys.
    + apply (rescheduled_cons k row (clock w)); [assumption|]. now rewrite <- Hs1.
    + assumption.
    + assumption.
    + rewrite Hh'. reflexivity.
    + rewrite Hq'. unfold w1. cbn. now rewrite <- app_assoc.
Qed.

(** ** [start_next_tasks], nested and outermost *)

Lemma to_enqueue_subset nodes ts t : t ∈ to_enqueue nodes ts -> t ∈ ts.
Proof.
  revert ts. induction nodes as [|n nodes IH]; intros [|t0 ts] H; cbn in H;
    try (now apply elem_of_nil in H).
  destruct (is_callable n).
  - apply elem_of_cons in H as [->|H]; [now left|right; now apply IH].
  - right. now apply IH.
Qed.

Lemma rescheduled_row keys s s' q t :
  rescheduled keys s s' -> tasks s !! q = Some t ->
  ∃ row, tasks s' !! q = Some row ∧ (row = t ∨ ∃ c, row = enqueued t c).
Proof.
  intros Hres Hq.
  destruct (updated_rows_row enqueued keys s s' q t Hres Hq) as (row & Hrow & Hcase).
  exists row. split; [assumption|]. destruct Hcase as [[_ ->]|[_ Hc]]; auto.
Qed.

Lemma rescheduled_dom keys s s' q :
  rescheduled keys s s' -> is_Some (tasks s' !! q) ↔ is_Some (tasks s !! q).
Proof. apply updated_rows_dom. Qed.

Lemma rescheduled_parents keys s s' q :
  rescheduled keys s s' -> parents_of s' q = parents_of s q.
Proof. apply updated_rows_parents. Qed.

Section StartNextTasks.
Variable cls : ProcessClass.
Variable self : Task.
Variables p pid : Z.
Variable proc : Process.
Hypothesis self_pk : task_pk self = Some p.
Hypothesis self_content_type : is_Some (task_content_type self).
Hypothesis self_process_id : task_process_id self = Some pid.

Lemma ret_items nodes :
  Forall2 (fun (item : M Node) n => ∀ w, item w = Ok n w)
    ((ret <$> nodes) : list (M Node)) nodes.
Proof. induction nodes; constructor; auto. Qed.

Lemma start_next_tasks_loop next_nodes nodes w :
  ready p pid proc w ->
  next_nodes_are cls self next_nodes nodes ->
  Forall honours_create_task nodes ->
  ∃ ts w',
    (next_nodes <~ match next_nodes with
                   | Some nodes => ret nodes
                   | None =>
                       process_of self ;;;
                       node <~ Task_node cls self ;;
                       ret (ret <$> get_next_nodes cls node)
                   end ;;
     mapM (start_task cls self) next_nodes) w = Ok ts w'
    ∧ started p pid (store w) nodes ts (store w')
    ∧ tx_effect w w' (store w') (HookEnqueue <$> to_enqueue nodes ts)
    ∧ ready p pid proc w'.
Proof.
  intros Hr Hnn Hnodes. destruct Hnn as [items nodes Hitems|node Hnode].
  - destruct (start_tasks_spec cls self p pid proc self_pk self_content_type
                self_process_id items nodes w Hr Hitems Hnodes)
      as (ts & w' & Hrun & Hpost).
    exists ts, w'. split; [|assumption]. unfold bind at 1, ret at 1. exact Hrun.
  - destruct (start_tasks_spec cls self p pid proc self_pk self_content_type
                self_process_id (ret <$> get_next_nodes cls node)
                (get_next_nodes cls node) w Hr (ret_items _) Hnodes)
      as (ts & w' & Hrun & Hpost).
    exists ts, w'. split; [|assumption].
    pose proof (process_of_ready self p pid proc self_content_type
                  self_process_id w Hr) as Hproc.
    assert (Task_node cls self w = Ok node w) as Hnode'.
    { unfold Task_node. rewrite (bind_Ok _ _ _ _ _ Hproc). now rewrite Hnode. }
    unfold bind at 1. unfold bind at 1.
    rewrite Hproc. unfold bind at 1. rewrite Hnode'. exact Hrun.
Qed.

Lemma ready_enter w :
  store_wf (store w) -> is_Some (tasks (store w) !! p) ->
  processes (store w) !! pid = Some proc ->
  ready p pid proc (enter_atomic w).
Proof.
  intros Hwf Hrow Hproc. split; [reflexivity|]. split; [assumption|].
  split; assumption.
Qed.

Lemma start_next_tasks_nested next_nodes nodes w :
  ready p pid proc w ->
  next_nodes_are cls self next_nodes nodes ->
  Forall honours_create_task nodes ->
  ∃ ts w',
    start_next_tasks cls self next_nodes w = Ok ts w'
    ∧ started p pid (store w) nodes ts (store w')
    ∧ tx_effect w w' (store w') (HookEnqueue <$> to_enqueue nodes ts)
    ∧ ready p pid proc w'.
Proof.
  intros Hr Hnn Hnodes. pose proof Hr as (Hin & Hwf & Hrow & Hproc).
  destruct (start_next_tasks_loop next_nodes nodes (enter_atomic w))
    as (ts & w1 & Hrun & Hst & He & Hr1); try assumption.
  { now apply ready_enter. }
  exists ts, (release_savepoint w w1). split; [|split; [|split]].
  - unfold start_next_tasks, atomic. rewrite Hrun. now rewrite Hin.
  - exact Hst.
  - destruct He as [Hs Hc Hd Hh Hq]. cbn in Hc, Hd, Hh, Hq.
    split; cbn; try assumption; reflexivity.
  - destruct Hr1 as (_ & Hwf1 & Hrow1 & Hproc1).
    split; [exact Hin|]. split; [assumption|]. split; assumption.
Qed.

Lemma start_next_tasks_outermost next_nodes nodes w :
  atomic_depth w = 0%nat -> run_on_commit w = [] ->
  store_wf (store w) -> is_Some (tasks (store w) !! p) ->
  processes (store w) !! pid = Some proc ->
  next_nodes_are cls self next_nodes nodes ->
  Forall honours_create_task nodes ->
  ∃ ts w' s1 keys,
    start_next_tasks cls self next_nodes w = Ok ts w'
    ∧ started p pid (store w) nodes ts s1
    ∧ task_pks (to_enqueue nodes ts) = Some keys
    ∧ rescheduled keys s1 (store w')
    ∧ committed w' = store w'
    ∧ atomic_depth w' = 0%nat
    ∧ run_on_commit w' = []
    ∧ queue w' = queue w ++ (message_of <$> to_enqueue nodes ts).
Proof.
  intros Hd Hh Hwf Hrow Hproc Hnn Hnodes.
  destruct (start_next_tasks_loop next_nodes nodes (enter_atomic w))
    as (ts & w1 & Hrun & Hst & He & Hr1); try assumption.
  { now apply ready_enter. }
  cbn [store enter_atomic] in Hst.
  destruct He as [Hs1 Hc1 Hd1 Hh1 Hq1]. cbn in Hc1, Hd1, Hh1, Hq1.
  rewrite Hh in Hh1. cbn in Hh1.
  destruct (run_enqueue_hooks (to_enqueue nodes ts) (commit w1))
    as (us & w2 & keys & Hhooks & Hkeys & Hres & Hc2 & Hd2 & Hh2 & Hq2);
    try reflexivity.
  { intros t Ht. apply to_enqueue_subset in Ht.
    apply list_elem_of_lookup in Ht as [i Hi].
    destruct (started_new_rows _ _ _ _ _ _ _ _ Hst Hi) as [Hpk Hlook].
    exists (next_task_id (store w) + Z.of_nat i). split; [assumption|].
    pose proof (wf_next _ Hwf). split; [lia|]. cbn. rewrite Hlook. eauto. }
  exists ts, w2, (store w1), keys.
  split; [|split; [|split; [|split; [|split; [|split; [|split]]]]]];
    try assumption.
  - unfold start_next_tasks, atomic. rewrite Hrun.
    unfold in_atomic_block. rewrite Hd. cbn [negb Nat.eqb].
    rewrite Hh1. now rewrite Hhooks.
  - rewrite Hq2. cbn. now rewrite Hq1.
Qed.

End StartNextTasks.

(** ** The children of a task *)

Lemma get_next_nodes_spec cls node n :
  n ∈ get_next_nodes cls node
  ↔ ∃ start, (start, n) ∈ edges cls ∧ node_name start = node_name node.
Proof.
  unfold get_next_nodes. rewrite list_elem_of_fmap. split.
  - intros ([a b] & -> & Hin). apply list_elem_of_filter in Hin as [Hname Hin].
    exists a. now split.
  - intros (a & Hin & Hname). exists (a, n). split; [reflexivity|].
    apply list_elem_of_filter. now split.
Qed.

Lemma task_pks_elem ts keys q :
  task_pks ts = Some keys -> q ∈ keys -> ∃ t, t ∈ ts ∧ task_pk t = Some q.
Proof.
  revert keys. induction ts as [|t ts IH]; intros keys Hk Hq; cbn in Hk.
  - injection Hk as <-. now apply elem_of_nil in Hq.
  - destruct (task_pk t) as [k|] eqn:Hpk; [|discriminate].
    destruct (task_pks ts) as [ks|]; [|discriminate].
    injection Hk as <-. apply elem_of_cons in Hq as [->|Hq].
    + exists t. split; [now left|assumption].
    + destruct (IH ks eq_refl Hq) as (t' & Ht' & Hpk'). exists t'. split; [now right|assumption].
Qed.

(** The rows of the children in a store [s'] that is the store [s1] after
    the loop, up to the saves of [enqueue] on some of the children. *)
Lemma children_rows p pid s nodes ts s1 keys s' :
  store_wf s ->
  started p pid s nodes ts s1 ->
  (∀ q, q ∈ keys -> next_task_id s ≤ q) ->
  rescheduled keys s1 s' ->
  length ts = length nodes
  ∧ (∀ q, is_Some (tasks s' !! q)
          ↔ is_Some (tasks s !! q)
            ∨ next_task_id s ≤ q < next_task_id s + Z.of_nat (length nodes))
  ∧ (∀ q, q < next_task_id s -> tasks s' !! q = tasks s !! q)
  ∧ (∀ c q, (c, q) ∈ parent_links s'
            ↔ (c, q) ∈ parent_links s
              ∨ (q = p ∧ next_task_id s ≤ c
                         < next_task_id s + Z.of_nat (length nodes)))
  ∧ (∀ (i : nat) n, nodes !! i = Some n ->
       ∃ t row,
         ts !! i = Some t
         ∧ task_pk t = Some (next_task_id s + Z.of_nat i)
         ∧ tasks s !! (next_task_id s + Z.of_nat i) = None
         ∧ tasks s' !! (next_task_id s + Z.of_nat i) = Some row
         ∧ task_pk row = Some (next_task_id s + Z.of_nat i)
         ∧ task_node_name row = node_name n
         ∧ task_process_id row = Some pid
         ∧ (create_task n = None ->
              task_node_type row = node_type n ∧ task_status row = SCHEDULED
              ∧ task_completed row = None)
         ∧ parents_of s' (next_task_id s + Z.of_nat i) = {[ p ]}).
Proof.
  intros Hwf Hst Hkeys Hres.
  split; [now apply (started_length _ _ _ _ _ _ Hst)|].
  split; [|split; [|split]].
  - intros q. rewrite (rescheduled_dom _ _ _ _ Hres).
    exact (started_dom p pid s nodes ts s1 q Hst).
  - intros q Hq. destruct Hres as (_ & _ & _ & _ & Hother & _).
    rewrite Hother; [now apply (started_old_rows _ _ _ _ _ _ _ Hst)|].
    intros Hin. specialize (Hkeys q Hin). lia.
  - intros c q. destruct Hres as (-> & _).
    exact (started_links p pid s nodes ts s1 c q Hst).
  - intros i n Hi.
    destruct (started_nodes _ _ _ _ _ _ _ _ Hst Hi) as (t & Hti & Hname & Hpid & Hdef).
    destruct (started_new_rows _ _ _ _ _ _ _ _ Hst Hti) as [Hpk Hrow].
    destruct (rescheduled_row _ _ _ _ _ Hres Hrow) as (row & Hrow' & Hcase).
    exists t, row. split; [assumption|]. split; [assumption|].
    split.
    { destruct (tasks s !! (next_task_id s + Z.of_nat i)) as [t0|] eqn:E; [|reflexivity].
      destruct (wf_task_keys _ Hwf _ _ E). lia. }
    split; [assumption|].
    assert (task_pk row = task_pk t ∧ task_node_name row = task_node_name t
            ∧ task_process_id row = task_process_id t
            ∧ task_node_type row = task_node_type t
            ∧ (task_status t = SCHEDULED -> task_status row = SCHEDULED)
            ∧ (task_completed t = None -> task_completed row = None))
      as (E1 & E2 & E3 & E4 & E5 & E6).
    { destruct Hcase as [->|[c ->]]; now repeat split. }
    rewrite E1, E2, E3, E4. split; [assumption|]. split; [assumption|].
    split; [assumption|]. split.
    + intros Hnone. destruct (Hdef Hnone) as (? & ? & ?). auto.
    + rewrite (rescheduled_parents _ _ _ _ Hres).
      apply (started_parents _ _ _ _ _ _ _ Hst Hwf).
      apply lookup_lt_Some in Hi. assumption.
Qed.

Lemma default_node_honours n : create_task n = None -> honours_create_task n.
Proof. intros Hn create Hc. congruence. Qed.

(** The children of a call of [start_next_tasks] without [next_nodes], for
    successors that create a new task. *)
Lemma start_next_tasks_children
    (cls : ProcessClass) (self : Task) (p pid : Z) (proc : Process)
    (node : Node) (w : World) :
  task_pk self = Some p ->
  is_Some (task_content_type self) ->
  task_process_id self = Some pid ->
  store_wf (store w) ->
  is_Some (tasks (store w) !! p) ->
  processes (store w) !! pid = Some proc ->
  getattr_node cls (task_node_name self) = Some node ->
  Forall honours_create_task (get_next_nodes cls node) ->
  (in_atomic_block w = false -> run_on_commit w = []) ->
  let successors := get_next_nodes cls node in
  let k := next_task_id (store w) in
  ∃ children w',
    start_next_tasks cls self None w = Ok children w'
    ∧ length children = length successors
    ∧ (∀ q, is_Some (tasks (store w') !! q)
            ↔ is_Some (tasks (store w) !! q)
              ∨ k ≤ q < k + Z.of_nat (length successors))
    ∧ (∀ q, q < k -> tasks (store w') !! q = tasks (store w) !! q)
    ∧ (∀ (i : nat) n, successors !! i = Some n ->
         ∃ t row,
           children !! i = Some t
           ∧ task_pk t = Some (k + Z.of_nat i)
           ∧ tasks (store w) !! (k + Z.of_nat i) = None
           ∧ tasks (store w') !! (k + Z.of_nat i) = Some row
           ∧ task_pk row = Some (k + Z.of_nat i)
           ∧ task_node_name row = node_name n
           ∧ task_process_id row = Some pid
           ∧ (create_task n = None ->
                task_node_type row = node_type n ∧ task_status row = SCHEDULED
                ∧ task_completed row = None)
           ∧ parents_of (store w') (k + Z.of_nat i) = {[ p ]})
    ∧ (in_atomic_block w = true ->
         committed w' = committed w
         ∧ atomic_depth w' = atomic_depth w
         ∧ queue w' = queue w
         ∧ run_on_commit w'
           = run_on_commit w ++ (HookEnqueue <$> to_enqueue successors children))
    ∧ (in_atomic_block w = false ->
         committed w' = store w'
         ∧ run_on_commit w' = []
         ∧ queue w' = queue w ++ (message_of <$> to_enqueue successors children)).
Proof.
  intros Hpk Hct Hpid Hwf Hrow Hproc Hnode Hnodes Hidle successors k.
  pose proof (next_nodes_default cls self node Hnode) as Hnn.
  destruct (in_atomic_block w) eqn:Hin.
  - destruct (start_next_tasks_nested cls self p pid proc Hpk Hct Hpid None
                successors w) as (ts & w' & Hrun & Hst & He & _);
      [split; [assumption|]; split; [assumption|]; split; assumption
      |assumption|assumption|].
    destruct (children_rows p pid (store w) successors ts (store w') [] (store w'))
      as (Hlen & Hdom & Hold & _ & Hrows); try assumption.
    { intros q Hq. now apply elem_of_nil in Hq. }
    { apply rescheduled_nil. }
    exists ts, w'. split; [assumption|]. split; [assumption|].
    split; [assumption|]. split; [assumption|]. split; [assumption|].
    split; [|discriminate]. intros _. destruct He. now repeat split.
  - assert (atomic_depth w = 0%nat) as Hd.
    { unfold in_atomic_block in Hin. destruct (atomic_depth w); [reflexivity|discriminate]. }
    destruct (start_next_tasks_outermost cls self p pid proc Hpk Hct Hpid None
                successors w Hd (Hidle eq_refl) Hwf Hrow Hproc Hnn Hnodes)
      as (ts & w' & s1 & keys & Hrun & Hst & Hkeys & Hres & Hc & Hd' & Hh & Hq).
    destruct (children_rows p pid (store w) successors ts s1 keys (store w'))
      as (Hlen & Hdom & Hold & _ & Hrows); try assumption.
    { intros q Hin'. destruct (task_pks_elem _ _ _ Hkeys Hin') as (t & Ht & Hpk').
      apply to_enqueue_subset in Ht. apply list_elem_of_lookup in Ht as [i Hi].
      destruct (started_new_rows _ _ _ _ _ _ _ _ Hst Hi) as [Hpk'' _].
      rewrite Hpk' in Hpk''. injection Hpk'' as ->. lia. }
    exists ts, w'. split; [assumption|]. split; [assumption|].
    split; [assumption|]. split; [assumption|]. split; [assumption|].
    split; [discriminate|]. intros _. now repeat split.
Qed.

Lemma sample_store_wf : store_wf sample_store.
Proof.
  split.
  - reflexivity.
  - intros q t Hq. unfold sample_store in Hq. cbn [tasks] in Hq.
    apply lookup_insert_Some in Hq as [[<- <-]|[Hne Hq]]; [now split|].
    apply lookup_singleton_Some in Hq as [<- <-]. now split.
  - intros c q Hin. cbn in Hin. now apply elem_of_empty in Hin.
  - intros q proc Hq. unfold sample_store in Hq. cbn [processes] in Hq.
    now apply lookup_singleton_Some in Hq as [<- <-].
Qed.

Lemma audit_honours : honours_create_task audit.
Proof.
  intros create Hc pid proc w Hin Hwf Hproc. injection Hc as <-.
  destruct (task_set_create_spec (mkProcessClass "Order" 7 []) proc pid "audit"
              MACHINE w Hin) as (t & w' & Hrun & _ & Hpost).
  - now apply (wf_process_keys _ Hwf).
  - now rewrite Hproc.
  - eauto.
Qed.

Example sample_run_queue :
  queue (world_of (start_next_tasks Order review_row None (idle sample_store 20)))
  = [ mkMessage (Some 3) (Some 1) None None; mkMessage (Some 4) (Some 1) None None ].
Proof. vm_compute. reflexivity. Qed.

(** C1.  Let [self] be a stored task of a stored process whose node is
    [node], let the successors be the end nodes of the edges that start at a
    node of that name, and let no successor have a [create_task] of its own.
    [start_next_tasks] without [next_nodes] succeeds and creates exactly one
    new task row per successor, under the next keys of the sequence: no other
    row appears, and the rows that were there are left alone.  The row of a
    successor is a task of the same process for that node, with the node's
    type, scheduled and not completed, and its parent set is the calling task
    alone.  Inside an enclosing transaction the call leaves the queue and the
    committed store as they were and registers one on-commit hook per
    callable (machine-executable) successor; as the outermost transaction it
    commits and then hands the queue exactly one message per callable
    successor, in order, and none for a successor that is not callable (a
    human node, which waits for its view to be posted). *)
Theorem start_next_tasks_creates_one_child_per_successor
    (cls : ProcessClass) (self : Task) (p pid : Z) (proc : Process)
    (node : Node) (w : World) :
  task_pk self = Some p ->
  is_Some (task_content_type self) ->
  task_process_id self = Some pid ->
  store_wf (store w) ->
  is_Some (tasks (store w) !! p) ->
  processes (store w) !! pid = Some proc ->
  getattr_node cls (task_node_name self) = Some node ->
  Forall (fun n => create_task n = None) (get_next_nodes cls node) ->
  (in_atomic_block w = false -> run_on_commit w = []) ->
  let successors := get_next_nodes cls node in
  let k := next_task_id (store w) in
  ∃ children w',
    start_next_tasks cls self None w = Ok children w'
    ∧ length children = length successors
    ∧ (∀ q, is_Some (tasks (store w') !! q)
            ↔ is_Some (tasks (store w) !! q)
              ∨ k ≤ q < k + Z.of_nat (length successors))
    ∧ (∀ q, q < k -> tasks (store w') !! q = tasks (store w) !! q)
    ∧ (∀ (i : nat) n, successors !! i = Some n ->
         ∃ t row,
           children !! i = Some t
           ∧ task_pk t = Some (k + Z.of_nat i)
           ∧ tasks (store w) !! (k + Z.of_nat i) = None
           ∧ tasks (store w') !! (k + Z.of_nat i) = Some row
           ∧ task_pk row = Some (k + Z.of_nat i)
           ∧ task_node_name row = node_name n
           ∧ task_process_id row = Some pid
           ∧ task_node_type row = node_type n
           ∧ task_status row = SCHEDULED
           ∧ task_completed row = None
           ∧ parents_of (store w') (k + Z.of_nat i) = {[ p ]})
    ∧ (in_atomic_block w = true ->
         committed w' = committed w
         ∧ atomic_depth w' = atomic_depth w
         ∧ queue w' = queue w
         ∧ run_on_commit w'
           = run_on_commit w ++ (HookEnqueue <$> to_enqueue successors children))
    ∧ (in_atomic_block w = false ->
         committed w' = store w'
         ∧ run_on_commit w' = []
         ∧ queue w' = queue w ++ (message_of <$> to_enqueue successors children)).
Proof.
  intros Hpk Hct Hpid Hwf Hrow Hproc Hnode Hdefault Hidle successors k.
  assert (Forall honours_create_task successors) as Hnodes.
  { eapply Forall_impl; [exact Hdefault|]. intros n. apply default_node_honours. }
  destruct (start_next_tasks_children cls self p pid proc node w
              Hpk Hct Hpid Hwf Hrow Hproc Hnode Hnodes Hidle)
    as (children & w' & Hrun & Hlen & Hdom & Hold & Hrows & Hin & Hout).
  exists children, w'. split; [exact Hrun|]. split; [exact Hlen|].
  split; [exact Hdom|]. split; [exact Hold|]. split; [|split; [exact Hin|exact Hout]].
  intros i n Hi.
  destruct (Hrows i n Hi)
    as (t & row & Ht & Htpk & Hnew & Hrow' & Hrpk & Hname & Hrpid & Hdef & Hpar).
  destruct (Hdef (proj1 (Forall_lookup _ _) Hdefault i n Hi)) as (Htype & Hstatus & Hc).
  exists t, row. now repeat split.
Qed.

Lemma start_next_tasks_creates_one_child_per_successor_witness :
  ∃ ready_to_ship awaiting_confirmation w',
    start_next_tasks Delivery review_row None (idle sample_store 20)
    = Ok [ ready_to_ship; awaiting_confirmation ] w'
    ∧ (∃ row, tasks (store w') !! 3 = Some row
              ∧ task_node_name row = "ship" ∧ task_node_type row = MACHINE
              ∧ parents_of (store w') 3 = {[ 2 ]})
    ∧ (∃ row, tasks (store w') !! 4 = Some row
              ∧ task_node_name row = "confirm" ∧ task_node_type row = HUMAN
              ∧ parents_of (store w') 4 = {[ 2 ]})
    ∧ tasks (store w') !! 5 = None
    ∧ committed w' = store w'
    ∧ task_pk ready_to_ship = Some 3
    ∧ queue w' = [ message_of ready_to_ship ].
Proof.
  destruct (start_next_tasks_creates_one_child_per_successor
              Delivery review_row 2 1 order_row review (idle sample_store 20))
    as (children & w' & Hrun & Hlen & Hdom & _ & Hrows & _ & Hcommit).
  - reflexivity.
  - eexists. reflexivity.
  - reflexivity.
  - apply sample_store_wf.
  - eexists. reflexivity.
  - reflexivity.
  - reflexivity.
  - repeat constructor.
  - reflexivity.
  - destruct children as [|c0 [|c1 [|c2 cs]]]; try discriminate Hlen.
    exists c0, c1, w'. split; [exact Hrun|].
    destruct (Hrows 0%nat ship eq_refl)
      as (t0 & row0 & Ht0 & Hpk0 & _ & Hrow0 & _ & Hname0 & _ & Htype0 & _ & _ & Hpar0).
    destruct (Hrows 1%nat confirm eq_refl)
      as (t1 & row1 & Ht1 & _ & _ & Hrow1 & _ & Hname1 & _ & Htype1 & _ & _ & Hpar1).
    destruct (Hcommit eq_refl) as (Hc & _ & Hq).
    injection Ht0 as <-.
    split; [exists row0; repeat split; assumption|].
    split; [exists row1; repeat split; assumption|].
    split; [|split; [exact Hc|split; [exact Hpk0|exact Hq]]].
    destruct (tasks (store w') !! 5) as [t5|] eqn:E; [|reflexivity].
    assert (is_Some (tasks (store w') !! 5)) as H5 by (rewrite E; eauto).
    apply Hdom in H5 as [[t H5]|H5].
    + destruct (wf_task_keys _ sample_store_wf _ _ H5) as [_ Hr]. cbn in Hr. lia.
    + change (get_next_nodes Delivery review) with [ ship; confirm ] in H5.
      cbn in H5. lia.
Defined.

(** C1 as stated fails for a successor that creates its task itself, the
    branch [node.create_task(self.process)] of the loop.  In the sample
    workflow the successor of [check] is [collect], whose [create_task] gives
    back the task the process already has for the node: the call returns
    task 2, no row is created, and the existing task 2 is linked to the
    calling task 3 and handed to the queue. *)
Lemma successor_with_its_own_create_task_creates_no_row :
  get_next_nodes Approval check = [ collect ]
  ∧ ∃ child w',
      start_next_tasks Approval recheck_row None (idle approval_store 20)
      = Ok [ child ] w'
      ∧ task_pk child = Some 2
      ∧ is_Some (tasks approval_store !! 2)
      ∧ next_task_id (store w') = next_task_id approval_store
      ∧ tasks (store w') !! 4 = None
      ∧ size (tasks (store w')) = size (tasks approval_store)
      ∧ msg_pk <$> queue w' = [ Some 2 ].
Proof.
  split; [reflexivity|]. eexists _, _.
  split; [vm_compute; reflexivity|]. vm_compute.
  split; [reflexivity|]. split; [eexists; reflexivity|]. now repeat split.
Qed.

(** ** The steps of the override view *)

Lemma store_wf_set_process s pid row :
  store_wf s -> process_pk row = Some pid -> store_wf (set_process pid row s).
Proof.
  intros [Hn Hk Hl Hp] Hpk. split; cbn; try assumption.
  intros q proc Hq. destruct (decide (pid = q)) as [<-|Hne].
  - rewrite lookup_insert_eq in Hq. now injection Hq as <-.
  - rewrite lookup_insert_ne in Hq by assumption. now apply Hp.
Qed.

Lemma Task_finish_stored self user p row w :
  task_pk self = Some p -> p ≠ 0 ->
  tasks (store w) !! p = Some row ->
  Task_finish self user w
  = Ok (finished user self (clock w))
       (after_write (set_task p (finished user row (clock w)) (store w))
          (tick (tick w))).
Proof.
  intros Hpk Hp Hrow.
  destruct self as [pk0 ? ? ? ? ? ? ? ? ? ? ?]. cbn in Hpk. subst pk0.
  unfold Task_finish, bind, timezone_now.
  cbn [task_pk set_completed_by_user set_completed set_status].
  rewrite (truthy_Some _ Hp). unfold Task_save.
  cbn [task_pk set_completed_by_user set_completed set_status].
  rewrite (truthy_Some _ Hp).
  unfold Model_save, bind, timezone_now, get_store, write_store, ret.
  cbn. rewrite Hrow. reflexivity.
Qed.

Lemma finish_all ts w :
  in_atomic_block w = true ->
  (∀ t, t ∈ ts -> ∃ k, task_pk t = Some k ∧ k ≠ 0 ∧ is_Some (tasks (store w) !! k)) ->
  ∃ ts' w' keys,
    mapM (fun task => Task_finish task None) ts w = Ok ts' w'
    ∧ task_pks ts = Some keys
    ∧ task_pks ts' = Some keys
    ∧ updated_rows (finished None) keys (store w) (store w')
    ∧ tx_effect w w' (store w') [].
Proof.
  revert w. induction ts as [|t ts IH]; intros w Hin Hts.
  - exists [], w, []. split; [reflexivity|]. split; [reflexivity|].
    split; [reflexivity|]. split; [now apply updated_rows_nil|apply tx_effect_refl].
  - destruct (Hts t) as (k & Hpk & Hk & [row Hrow]); [now left|].
    pose proof (Task_finish_stored t None k row w Hpk Hk Hrow) as Hrun.
    set (w1 := after_write (set_task k (finished None row (clock w)) (store w))
                 (tick (tick w))) in Hrun.
    assert (tx_effect w w1 (set_task k (finished None row (clock w)) (store w)) [])
      as He1.
    { unfold w1. eapply tx_effect_then_write; [assumption|].
      do 2 eapply tx_effect_then_tick. apply tx_effect_refl. }
    assert (in_atomic_block w1 = true) as Hin1
      by now rewrite (tx_effect_in_atomic _ _ _ _ He1).
    destruct (IH w1 Hin1) as (ts' & w' & keys & Hrun' & Hkeys & Hkeys' & Hupd & He').
    { intros t' Ht'. destruct (Hts t') as (k' & Hpk' & Hk' & Hrow'); [now right|].
      exists k'. split; [assumption|]. split; [assumption|].
      rewrite (te_store _ _ _ _ He1). cbn. rewrite lookup_insert_is_Some.
      destruct (decide (k = k')); auto. }
    exists (finished None t (clock w) :: ts'), w', (k :: keys).
    split; [|split; [|split; [|split]]].
    + cbn [mapM]. rewrite (bind_Ok _ _ _ _ _ Hrun).
      now rewrite (bind_Ok _ _ _ _ _ Hrun').
    + cbn. now rewrite Hpk, Hkeys.
    + cbn. now rewrite Hpk, Hkeys'.
    + apply (updated_rows_cons (finished None) (fun _ _ _ => eq_refl) k row
               (clock w) keys (store w) (store w')); [assumption|].
      now rewrite <- (te_store _ _ _ _ He1).
    + pose proof (tx_effect_trans _ _ _ _ _ _ _ He1 He') as He. exact He.
Qed.

Lemma active_tasks_of_spec cls object pid w :
  process_pk object = Some pid ->
  ∃ acts,
    active_tasks_of cls object w = Ok acts w
    ∧ (∀ t, t ∈ acts ↔ ∃ q, active cls pid (store w) q t).
Proof.
  intros Hpk. eexists. split; [reflexivity|].
  intros t. rewrite merge_sort_Permutation. rewrite list_elem_of_filter.
  rewrite list_elem_of_fmap. unfold active, in_task_set. rewrite Hpk. split.
  - intros [[Hset Hc] ([q t'] & -> & Hin)].
    apply elem_of_map_to_list in Hin. exists q. cbn.
    apply andb_true_iff in Hset as [Hset Hpid].
    apply andb_true_iff in Hset as [Hct _].
    apply bool_decide_eq_true in Hct, Hpid. now repeat split.
  - intros (q & Hq & Hct & Hpid & Hc). split.
    + split; [|assumption].
      rewrite !andb_true_iff, !bool_decide_eq_true. repeat split; eauto.
    + exists (q, t). split; [reflexivity|]. now apply elem_of_map_to_list.
Qed.

Lemma parent_task_set_set_spec task objs c keys w :
  in_atomic_block w = true ->
  task_pk task = Some c -> task_pks objs = Some keys ->
  is_Some (tasks (store w) !! c) ->
  (∀ q, q ∈ keys -> is_Some (tasks (store w) !! q)) ->
  ∃ w', parent_task_set_set task objs w = Ok tt w'
        ∧ tx_effect w w' (set_parents c keys (store w)) [].
Proof.
  intros Hin Hc Hkeys Hrow Hrows. eexists. split.
  - unfold parent_task_set_set. rewrite Hc, Hkeys.
    unfold bind, get_store, write_store.
    rewrite bool_decide_eq_true_2 by assumption.
    replace (forallb _ keys) with true; [reflexivity|].
    symmetry. apply forallb_forall. intros q Hq.
    apply bool_decide_eq_true. apply Hrows. now apply list_elem_of_In.
  - now apply tx_effect_write.
Qed.

Lemma task_pks_mem ts keys q :
  task_pks ts = Some keys -> (q ∈ keys ↔ ∃ t, t ∈ ts ∧ task_pk t = Some q).
Proof.
  intros Hk. split; [now apply task_pks_elem|].
  revert keys Hk. induction ts as [|t ts IH]; intros keys Hk (t' & Ht' & Hpk').
  - now apply elem_of_nil in Ht'.
  - cbn in Hk. destruct (task_pk t) as [k|] eqn:Hpk; [|discriminate].
    destruct (task_pks ts) as [ks|]; [|discriminate]. injection Hk as <-.
    apply elem_of_cons in Ht' as [->|Ht'].
    + rewrite Hpk in Hpk'. injection Hpk' as ->. now left.
    + right. apply (IH ks eq_refl). eauto.
Qed.

Lemma store_wf_set_parents s c keys :
  store_wf s -> is_Some (tasks s !! c) ->
  (∀ q, q ∈ keys -> is_Some (tasks s !! q)) ->
  store_wf (set_parents c keys s).
Proof.
  intros [Hn Hk Hl Hp] Hc Hkeys. split; cbn; try assumption.
  intros c' q Hin. apply elem_of_union in Hin as [Hin|Hin].
  - apply elem_of_filter in Hin as [_ Hin]. now apply Hl.
  - apply elem_of_list_to_set in Hin. apply list_elem_of_fmap in Hin as (q' & Heq & Hq').
    injection Heq as -> ->. split; [assumption|now apply Hkeys].
Qed.

Lemma form_valid_unfold cls instance next_tasks :
  form_valid cls instance next_tasks = atomic (form_valid_body cls instance next_tasks).
Proof. reflexivity. Qed.

Lemma get_node_items cls names nodes :
  Forall2 (fun name n => dict_get (get_nodes cls) name = Some n) names nodes ->
  Forall2 (fun (item : M Node) n => ∀ w, item w = Ok n w)
    (get_next_task_nodes cls names) nodes.
Proof.
  unfold get_next_task_nodes. induction 1 as [|name n names nodes Hn Hrest IH]; cbn.
  - constructor.
  - constructor; [|assumption]. intros w. unfold get_node. now rewrite Hn.
Qed.

Lemma form_valid_body_spec cls instance pid row names nodes w :
  in_atomic_block w = true ->
  store_wf (store w) ->
  process_pk instance = Some pid ->
  processes (store w) !! pid = Some row ->
  Forall2 (fun name n => dict_get (get_nodes cls) name = Some n) names nodes ->
  Forall honours_create_task nodes ->
  let k := next_task_id (store w) in
  ∃ object w' keys o c ts s2 s5,
    form_valid_body cls instance names w = Ok object w'
    ∧ process_pk object = Some pid
    ∧ (∀ q, q ∈ keys ↔ ∃ t, active cls pid (store w) q t)
    ∧ task_pk o = Some k
    ∧ task_node_name o = "manual_override"
    ∧ task_process_id o = Some pid
    ∧ overridden pid object keys k o c (store w) s2 s5
    ∧ store_wf s5
    ∧ started k pid s5 nodes ts (store w')
    ∧ tx_effect w w' (store w') (HookEnqueue <$> to_enqueue nodes ts).
Proof.
  intros Hin Hwf Hpk Hrow Hnames Hnodes k.
  (* the process is saved *)
  pose proof (Process_save_all_fields instance pid row w Hpk Hrow) as Hsave.
  set (object := stamp_process instance (clock w)) in *.
  set (w1 := after_write (set_process pid object (store w)) (tick w)) in *.
  assert (process_pk object = Some pid) as Hopk by exact Hpk.
  assert (tx_effect w w1 (set_process pid object (store w)) []) as He1.
  { unfold w1. eapply tx_effect_then_write; [assumption|].
    eapply tx_effect_then_tick. apply tx_effect_refl. }
  pose proof (te_store _ _ _ _ He1) as Hs1.
  assert (in_atomic_block w1 = true) as Hin1
    by now rewrite (tx_effect_in_atomic _ _ _ _ He1).
  assert (store_wf (store w1)) as Hwf1
    by (rewrite Hs1; now apply store_wf_set_process).
  (* the active tasks are listed and finished *)
  destruct (active_tasks_of_spec cls object pid w1 Hopk) as (acts & Hacts & Hmem).
  assert (∀ q t, active cls pid (store w1) q t ↔ active cls pid (store w) q t) as Hact.
  { intros q t. unfold active. now rewrite Hs1. }
  destruct (finish_all acts w1 Hin1) as (acts' & w2 & keys & Hfin & Hkeys & Hkeys' & Hupd & He2).
  { intros t Ht. apply Hmem in Ht as (q & Hq & _).
    destruct (wf_task_keys _ Hwf1 _ _ Hq) as [Htpk Hrange].
    exists q. split; [assumption|]. split; [lia|]. rewrite Hq. eauto. }
  assert (∀ q, q ∈ keys ↔ ∃ t, active cls pid (store w) q t) as Hkeys_active.
  { intros q. rewrite (task_pks_mem _ _ q Hkeys). split.
    - intros (t & Ht & Htpk). apply Hmem in Ht as (q' & Hq').
      destruct (wf_task_keys _ Hwf1 _ _ (proj1 Hq')) as [Htpk' _].
      rewrite Htpk in Htpk'. injection Htpk' as ->. exists t. now apply Hact.
    - intros (t & Ht). apply Hact in Ht. exists t. split; [apply Hmem; eauto|].
      now destruct (wf_task_keys _ Hwf1 _ _ (proj1 Ht)). }
  rewrite Hs1 in Hupd.
  assert (in_atomic_block w2 = true) as Hin2
    by now rewrite (tx_effect_in_atomic _ _ _ _ He2).
  assert (store_wf (store w2)) as Hwf2.
  { apply (updated_rows_wf (finished None) (fun _ _ => eq_refl) keys
             (set_process pid object (store w))); [assumption|].
    now rewrite <- Hs1. }
  pose proof Hupd as (Hl2 & Hp2 & Hn2 & _ & _ & _). cbn in Hl2, Hp2, Hn2.
  (* the override task is created *)
  destruct (task_set_create_spec cls object pid "manual_override" "" w2 Hin2 Hopk)
    as (o & w3 & Hcreate & Ho & Hopk' & Honame & Hopid & He3).
  { rewrite Hp2. rewrite lookup_insert_eq. eauto. }
  rewrite Hn2 in Hopk', He3. fold k in Hopk', He3.
  pose proof (te_store _ _ _ _ He3) as Hs3.
  assert (in_atomic_block w3 = true) as Hin3
    by now rewrite (tx_effect_in_atomic _ _ _ _ He3).
  assert (store_wf (store w3)) as Hwf3.
  { rewrite Hs3. unfold k. rewrite <- Hn2. apply store_wf_put_fresh; [assumption|].
    now rewrite Hn2. }
  assert (∀ q, q ∈ keys -> is_Some (tasks (store w3) !! q)) as Hrows3.
  { intros q Hq. rewrite Hs3. cbn. rewrite lookup_insert_is_Some'. right.
    apply (updated_rows_dom (finished None) keys _ _ q Hupd). cbn.
    apply Hkeys_active in Hq as (t & Hq & _). rewrite Hq. eauto. }
  (* its parent set is set *)
  destruct (parent_task_set_set_spec o acts' k keys w3 Hin3 Hopk' Hkeys')
    as (w4 & Hset & He4); [|assumption|].
  { rewrite Hs3. cbn. rewrite lookup_insert_eq. eauto. }
  rewrite Hs3 in He4.
  pose proof (te_store _ _ _ _ He4) as Hs4.
  assert (in_atomic_block w4 = true) as Hin4
    by now rewrite (tx_effect_in_atomic _ _ _ _ He4).
  assert (store_wf (store w4)) as Hwf4.
  { rewrite Hs4, <- Hs3. apply store_wf_set_parents; [assumption| |assumption].
    rewrite Hs3. cbn. rewrite lookup_insert_eq. eauto. }
  (* the override task is finished *)
  assert (k ≠ 0) as Hk0 by (pose proof (wf_next _ Hwf); unfold k; lia).
  assert (tasks (store w4) !! k = Some o) as Hrow4.
  { rewrite Hs4. cbn. apply lookup_insert_eq. }
  pose proof (Task_finish_stored o None k o w4 Hopk' Hk0 Hrow4) as Hfinish.
  set (o' := finished None o (clock w4)) in *.
  set (w5 := after_write (set_task k o' (store w4)) (tick (tick w4))) in *.
  assert (tx_effect w4 w5 (set_task k o' (store w4)) []) as He5.
  { unfold w5. eapply tx_effect_then_write; [assumption|].
    do 2 eapply tx_effect_then_tick. apply tx_effect_refl. }
  pose proof (te_store _ _ _ _ He5) as Hs5.
  assert (store_wf (store w5)) as Hwf5.
  { rewrite Hs5. now apply (store_wf_set_task _ k o). }
  (* the chosen nodes are started *)
  destruct (start_next_tasks_nested cls o' k pid object) with
    (next_nodes := Some (get_next_task_nodes cls names)) (nodes := nodes) (w := w5)
    as (ts & w6 & Hstart & Hst & He6 & _).
  { exact Hopk'. }
  { unfold o'. rewrite Ho. cbn. eauto. }
  { exact Hopid. }
  { split; [now rewrite (tx_effect_in_atomic _ _ _ _ He5)|]. split; [assumption|].
    rewrite Hs5. cbn. split; [rewrite lookup_insert_eq; eauto|].
    rewrite Hs4. cbn. rewrite Hp2. apply lookup_insert_eq. }
  { constructor. now apply get_node_items. }
  { assumption. }
  exists object, w6, keys, o, (clock w4), ts, (store w2), (store w5).
  split; [|split; [|split; [|split; [|split; [|split; [|split; [|split; [|split]]]]]]]];
    try assumption.
  - unfold form_valid_body.
    rewrite (bind_Ok _ _ _ _ _ Hsave).
    rewrite (bind_Ok _ _ _ _ _ Hacts).
    rewrite (bind_Ok _ _ _ _ _ Hfin).
    rewrite (bind_Ok _ _ _ _ _ Hcreate).
    rewrite (bind_Ok _ _ _ _ _ Hset).
    rewrite (bind_Ok _ _ _ _ _ Hfinish).
    now rewrite (bind_Ok _ _ _ _ _ Hstart).
  - split; [assumption|]. rewrite Hs5, Hs4. reflexivity.
  - pose proof (tx_effect_trans _ _ _ _ _ _ _ He1 He2) as H12.
    pose proof (tx_effect_trans _ _ _ _ _ _ _ H12 He3) as H13.
    pose proof (tx_effect_trans _ _ _ _ _ _ _ H13 He4) as H14.
    pose proof (tx_effect_trans _ _ _ _ _ _ _ H14 He5) as H15.
    pose proof (tx_effect_trans _ _ _ _ _ _ _ H15 He6) as H16.
    exact H16.
Qed.

Lemma overridden_store pid object keys k o c s s2 s5 :
  store_wf s -> k = next_task_id s ->
  (∀ q, q ∈ keys -> is_Some (tasks s !! q)) ->
  overridden pid object keys k o c s s2 s5 ->
  next_task_id s5 = k + 1
  ∧ tasks s !! k = None
  ∧ tasks s5 !! k = Some (finished None o c)
  ∧ (∀ q t, tasks s !! q = Some t -> q ∈ keys ->
       ∃ c', tasks s5 !! q = Some (finished None t c'))
  ∧ (∀ q t, tasks s !! q = Some t -> q ∉ keys -> tasks s5 !! q = Some t)
  ∧ (∀ q, is_Some (tasks s5 !! q) ↔ is_Some (tasks s !! q) ∨ q = k)
  ∧ (∀ c' q, (c', q) ∈ parent_links s5
             ↔ (c', q) ∈ parent_links s ∨ (c' = k ∧ q ∈ keys)).
Proof.
  intros Hwf -> Hkeys [Hupd ->].
  pose proof Hupd as (Hl & Hp & Hn & _ & Hother & Hin). cbn in Hl, Hp, Hn, Hother, Hin.
  pose proof (store_wf_fresh _ Hwf) as Hfresh.
  assert (∀ q, is_Some (tasks s !! q) -> q ≠ next_task_id s) as Hne.
  { intros q [t Hq] ->. congruence. }
  split; [cbn; lia|]. split; [assumption|]. split; [cbn; apply lookup_insert_eq|].
  split; [|split; [|split]].
  - intros q t Hq Hqk. cbn.
    rewrite lookup_insert_ne by (apply not_eq_sym, Hne; rewrite Hq; eauto).
    rewrite lookup_insert_ne by (apply not_eq_sym, Hne; rewrite Hq; eauto).
    destruct (Hin q Hqk) as [c' Hc']. rewrite Hq in Hc'. cbn in Hc'. eauto.
  - intros q t Hq Hqk. cbn.
    rewrite lookup_insert_ne by (apply not_eq_sym, Hne; rewrite Hq; eauto).
    rewrite lookup_insert_ne by (apply not_eq_sym, Hne; rewrite Hq; eauto).
    now rewrite (Hother q Hqk).
  - intros q. cbn. rewrite !lookup_insert_is_Some.
    pose proof (updated_rows_dom (finished None) keys _ _ q Hupd) as Hdom.
    cbn in Hdom. rewrite Hdom.
    destruct (decide (next_task_id s = q)) as [<-|Hq]; [tauto|].
    split; [intros [?|[_ [?|[_ ?]]]]; try congruence; auto|].
    intros [?|?]; [|congruence]. right. split; [assumption|]. right. now split.
  - intros c' q. cbn. rewrite Hl. rewrite elem_of_union, elem_of_filter.
    rewrite elem_of_list_to_set, list_elem_of_fmap. cbn. split.
    + intros [[_ H]|(q' & Heq & Hq')]; [now left|].
      injection Heq as -> ->. right. now split.
    + intros [H|[-> Hq]].
      * left. split; [|assumption].
        destruct (store_wf_fresh_links _ _ _ Hwf H). lia.
      * right. exists q. now split.
Qed.

(** ** The override view as a whole *)

Lemma overridden_and_started_intro cls pid object keys o c nodes ts s s2 s5 s6 keys' s7 :
  store_wf s ->
  (∀ q, q ∈ keys ↔ ∃ t, active cls pid s q t) ->
  task_pk o = Some (next_task_id s) ->
  task_node_name o = "manual_override" ->
  task_process_id o = Some pid ->
  overridden pid object keys (next_task_id s) o c s s2 s5 ->
  store_wf s5 ->
  started (next_task_id s) pid s5 nodes ts s6 ->
  (∀ q, q ∈ keys' -> next_task_id s + 1 ≤ q) ->
  rescheduled keys' s6 s7 ->
  overridden_and_started cls pid nodes s s7.
Proof.
  intros Hwf Hkeys Hopk Honame Hopid Hov Hwf5 Hst Hkeys' Hres.
  destruct (overridden_store pid object keys (next_task_id s) o c s s2 s5 Hwf eq_refl)
    as (Hn5 & Hfresh & Hk5 & Hfin5 & Hoth5 & Hdom5 & Hl5); [|assumption|].
  { intros q Hq. apply Hkeys in Hq as (t & Hq & _). rewrite Hq. eauto. }
  destruct (children_rows (next_task_id s) pid s5 nodes ts s6 keys' s7 Hwf5 Hst)
    as (Hlen & Hdom7 & Hold7 & Hl7 & Hrows7); [|assumption|].
  { intros q Hq. rewrite Hn5. now apply Hkeys'. }
  rewrite Hn5 in Hdom7, Hold7, Hl7, Hrows7.
  assert (∀ q t, tasks s !! q = Some t -> q < next_task_id s) as Hlt.
  { intros q t Hq. destruct (wf_task_keys _ Hwf _ _ Hq). lia. }
  split.
  - intros q t Hact. pose proof Hact as (Hq & _).
    destruct (Hfin5 q t Hq) as [c' Hc']; [apply Hkeys; eauto|].
    exists c'. rewrite Hold7 by (specialize (Hlt _ _ Hq); lia). assumption.
  - intros q t Hq Hnact.
    rewrite Hold7 by (specialize (Hlt _ _ Hq); lia).
    apply Hoth5; [assumption|]. intros Hin. apply Hkeys in Hin as (t' & Hact).
    pose proof Hact as (Hq' & _). rewrite Hq in Hq'. injection Hq' as <-. contradiction.
  - assumption.
  - exists (finished None o c). rewrite Hold7 by lia.
    split; [assumption|]. cbn. repeat split; try assumption. eauto.
  - intros i n Hi.
    destruct (Hrows7 i n Hi) as (t & row & _ & _ & _ & Hrow & _ & Hname & Hpid & Hdef & _).
    exists row.
    split; [|split; [assumption|split; [assumption|split; assumption]]].
    destruct (tasks s !! (next_task_id s + 1 + Z.of_nat i)) as [t0|] eqn:E; [|reflexivity].
    specialize (Hlt _ _ E). lia.
  - intros q. rewrite Hdom7, Hdom5. split.
    + intros [[?| ->]|?]; [now left|right; lia|right; lia].
    + intros [?|?]; [now left; left|].
      destruct (decide (q = next_task_id s)) as [-> |?]; [now left; right|right; lia].
  - intros c' q. rewrite Hl7, Hl5. split.
    + intros [[?|[-> Hq]]|[-> ?]]; [now left| |].
      * right. left. split; [reflexivity|]. now apply Hkeys.
      * right. right. now split.
    + intros [?|[[-> Hq]|[-> ?]]]; [now left; left| |].
      * left. right. split; [reflexivity|]. now apply Hkeys.
      * right. now split.
Qed.

Lemma form_valid_spec cls instance pid row names nodes w :
  store_wf (store w) ->
  process_pk instance = Some pid ->
  processes (store w) !! pid = Some row ->
  Forall2 (fun name n => dict_get (get_nodes cls) name = Some n) names nodes ->
  Forall honours_create_task nodes ->
  (in_atomic_block w = false -> run_on_commit w = []) ->
  ∃ object w' ts,
    form_valid cls instance names w = Ok object w'
    ∧ process_pk object = Some pid
    ∧ overridden_and_started cls pid nodes (store w) (store w')
    ∧ length ts = length nodes
    ∧ (∀ (i : nat) t, ts !! i = Some t ->
         task_pk t = Some (next_task_id (store w) + 1 + Z.of_nat i))
    ∧ (in_atomic_block w = true ->
         committed w' = committed w
         ∧ atomic_depth w' = atomic_depth w
         ∧ queue w' = queue w
         ∧ run_on_commit w'
           = run_on_commit w ++ (HookEnqueue <$> to_enqueue nodes ts))
    ∧ (in_atomic_block w = false ->
         committed w' = store w'
         ∧ run_on_commit w' = []
         ∧ queue w' = queue w ++ (message_of <$> to_enqueue nodes ts)).
Proof.
  intros Hwf Hpk Hrow Hnames Hnodes Hidle.
  destruct (form_valid_body_spec cls instance pid row names nodes (enter_atomic w))
    as (object & w1 & keys & o & c & ts & s2 & s5 & Hrun & Hopk & Hkeys & Ho & Honame
        & Hopid & Hov & Hwf5 & Hst & He); try assumption; [reflexivity|].
  cbn [store enter_atomic] in Hkeys, Ho, Hov, Hst.
  destruct He as [_ Hc1 Hd1 Hh1 Hq1]. cbn in Hc1, Hd1, Hh1, Hq1.
  assert (next_task_id s5 = next_task_id (store w) + 1) as Hn5.
  { destruct (overridden_store pid object keys (next_task_id (store w)) o c
                (store w) s2 s5 Hwf eq_refl) as (H & _); [|assumption|assumption].
    intros q Hq. apply Hkeys in Hq as (t & Hq & _). rewrite Hq. eauto. }
  assert (∀ (i : nat) t, ts !! i = Some t ->
            task_pk t = Some (next_task_id (store w) + 1 + Z.of_nat i)
            ∧ tasks (store w1) !! (next_task_id (store w) + 1 + Z.of_nat i) = Some t)
    as Hts.
  { intros i t Hi. rewrite <- Hn5. now apply (started_new_rows _ _ _ _ _ _ _ _ Hst). }
  pose proof (started_length _ _ _ _ _ _ Hst) as Hlen.
  destruct (in_atomic_block w) eqn:Hin.
  - exists object, (release_savepoint w w1), ts.
    split; [|split; [assumption|split; [|split; [assumption|split; [|split]]]]].
    + rewrite form_valid_unfold. unfold atomic. rewrite Hrun. now rewrite Hin.
    + apply (overridden_and_started_intro cls pid object keys o c nodes ts
               (store w) s2 s5 (store w1) [] (store w1)); try assumption.
      * intros q Hq. now apply elem_of_nil in Hq.
      * apply rescheduled_nil.
    + intros i t Hi. now apply Hts.
    + intros _. cbn. now repeat split.
    + discriminate.
  - assert (atomic_depth w = 0%nat) as Hd.
    { unfold in_atomic_block in Hin. destruct (atomic_depth w); [reflexivity|discriminate]. }
    rewrite (Hidle eq_refl) in Hh1. cbn in Hh1.
    destruct (run_enqueue_hooks (to_enqueue nodes ts) (commit w1))
      as (us & w2 & keys' & Hhooks & Hkeys' & Hres & Hc2 & Hd2 & Hh2 & Hq2);
      try reflexivity.
    { intros t Ht. apply to_enqueue_subset in Ht.
      apply list_elem_of_lookup in Ht as [i Hi]. destruct (Hts i t Hi) as [Htpk Hlook].
      exists (next_task_id (store w) + 1 + Z.of_nat i). split; [assumption|].
      pose proof (wf_next _ Hwf). split; [lia|]. cbn. rewrite Hlook. eauto. }
    exists object, w2, ts.
    split; [|split; [assumption|split; [|split; [assumption|split; [|split]]]]].
    + rewrite form_valid_unfold. unfold atomic. rewrite Hrun, Hin.
      rewrite Hh1. now rewrite Hhooks.
    + apply (overridden_and_started_intro cls pid object keys o c nodes ts
               (store w) s2 s5 (store w1) keys' (store w2)); try assumption.
      intros q Hq. destruct (task_pks_elem _ _ _ Hkeys' Hq) as (t & Ht & Htpk).
      apply to_enqueue_subset in Ht. apply list_elem_of_lookup in Ht as [i Hi].
      destruct (Hts i t Hi) as [Htpk' _]. rewrite Htpk in Htpk'.
      injection Htpk' as ->. lia.
    + intros i t Hi. now apply Hts.
    + discriminate.
    + intros _. split; [assumption|]. split; [now rewrite Hh2|].
      rewrite Hq2. cbn. now rewrite Hq1.
Qed.

Lemma elem_of_parents_of s c q : q ∈ parents_of s c ↔ (c, q) ∈ parent_links s.
Proof.
  unfold parents_of. rewrite elem_of_map. split.
  - intros ([c' q'] & -> & Hin). apply elem_of_filter in Hin as [Hc Hin].
    cbn in Hc. now subst c'.
  - intros Hin. exists (c, q). split; [reflexivity|]. now apply elem_of_filter.
Qed.

Lemma dict_get_node cls name n :
  dict_get (get_nodes cls) name = Some n -> n ∈ node_set cls ∧ node_name n = name.
Proof.
  unfold dict_get, get_nodes. intros H.
  destruct (find _ _) as [[nm n']|] eqn:E; [|discriminate].
  cbn in H. injection H as ->.
  apply find_some in E as [Hin Heq]. cbn in Heq. apply String.eqb_eq in Heq.
  apply list_elem_of_In, elem_of_reverse, list_elem_of_fmap in Hin as (m & Hm & Hin).
  injection Hm as -> ->. now split.
Qed.


Lemma chosen_default_nodes cls names :
  Forall (default_node cls) names ->
  ∃ nodes,
    Forall2 (fun name n => dict_get (get_nodes cls) name = Some n) names nodes
    ∧ Forall (fun n => create_task n = None) nodes.
Proof.
  induction 1 as [|name names (n & Hn & Hdef) Hrest (nodes & IH & IHdef)].
  - exists []. split; constructor.
  - exists (n :: nodes). split; now constructor.
Qed.

(** C2.  Let the form carry a stored process and a list of names, each the
    name of a node of the class that has no [create_task] of its own.  The
    override succeeds.  Afterwards every task of the process that was active
    (stored with [completed] NULL) is succeeded with [completed] set, and the
    other stored tasks are as before; there is one new task
    ['manual_override'] of the process, under the next key, itself succeeded
    and completed, whose parent set is exactly the set of the tasks that were
    active; for each chosen name, in order, there is one new task for that
    node under the following keys, with the node's type, scheduled and not
    completed, whose parent set is the override task alone; and no other task
    row was created.  The new tasks of callable nodes are handed to the queue
    as [start_next_tasks] does it: inside an enclosing transaction one
    on-commit hook each is registered and the queue is left alone, and as the
    outermost transaction the override commits and then hands the queue one
    message each. *)
Theorem override_force_completes_and_restarts
    (cls : ProcessClass) (instance : Process) (pid : Z) (row : Process)
    (names : list string) (w : World) :
  store_wf (store w) ->
  process_pk instance = Some pid ->
  processes (store w) !! pid = Some row ->
  Forall (default_node cls) names ->
  (in_atomic_block w = false -> run_on_commit w = []) ->
  let k := next_task_id (store w) in
  ∃ object w' nodes,
    form_valid cls instance names w = Ok object w'
    ∧ Forall2 (fun name n => dict_get (get_nodes cls) name = Some n) names nodes
    ∧ (∀ q t, active cls pid (store w) q t ->
         ∃ t', tasks (store w') !! q = Some t'
               ∧ task_status t' = SUCCEEDED
               ∧ is_Some (task_completed t')
               ∧ task_node_name t' = task_node_name t
               ∧ task_process_id t' = Some pid)
    ∧ (∀ q t, tasks (store w) !! q = Some t -> ¬ active cls pid (store w) q t ->
         tasks (store w') !! q = Some t)
    ∧ tasks (store w) !! k = None
    ∧ (∃ o, tasks (store w') !! k = Some o
            ∧ task_node_name o = "manual_override"
            ∧ task_process_id o = Some pid
            ∧ task_status o = SUCCEEDED
            ∧ is_Some (task_completed o))
    ∧ (∀ q, q ∈ parents_of (store w') k ↔ ∃ t, active cls pid (store w) q t)
    ∧ (∀ (i : nat) name, names !! i = Some name ->
         ∃ n child,
           nodes !! i = Some n
           ∧ tasks (store w) !! (k + 1 + Z.of_nat i) = None
           ∧ tasks (store w') !! (k + 1 + Z.of_nat i) = Some child
           ∧ task_node_name child = name
           ∧ task_process_id child = Some pid
           ∧ task_node_type child = node_type n
           ∧ task_status child = SCHEDULED
           ∧ task_completed child = None
           ∧ parents_of (store w') (k + 1 + Z.of_nat i) = {[ k ]})
    ∧ (∀ q, is_Some (tasks (store w') !! q)
            ↔ is_Some (tasks (store w) !! q)
              ∨ k ≤ q < k + 1 + Z.of_nat (length names))
    ∧ handed_over (k + 1) nodes w w'.
Proof.
  intros Hwf Hpk Hrow Hnames Hidle k.
  destruct (chosen_default_nodes cls names Hnames) as (nodes & Hnodes & Hdefault).
  assert (Forall honours_create_task nodes) as Hhon'.
  { eapply Forall_impl; [exact Hdefault|]. intros n. apply default_node_honours. }
  destruct (form_valid_spec cls instance pid row names nodes w Hwf Hpk Hrow Hnodes
              Hhon' Hidle)
    as (object & w' & ts & Hrun & _ & [Hfin Hoth Hfresh Hover Hchild Hdom Hlinks]
        & Hlents & Htspk & Hin & Hout).
  pose proof (Forall2_length _ _ _ Hnodes) as Hlen.
  assert (∀ c q, (c, q) ∈ parent_links (store w) -> c < k ∧ q < k) as Hold.
  { intros c q Hin'. now apply store_wf_fresh_links. }
  exists object, w', nodes. split; [assumption|]. split; [assumption|].
  split; [|split; [assumption|split; [assumption|split; [assumption|split;
    [|split; [|split]]]]]].
  - intros q t Hact. destruct (Hfin q t Hact) as [c Hc].
    exists (finished None t c). split; [assumption|]. cbn.
    destruct Hact as (_ & _ & Hp & _). repeat split; eauto.
  - intros q. rewrite elem_of_parents_of, Hlinks. fold k. split.
    + intros [H|[[_ H]|[_ H]]]; [destruct (Hold _ _ H)|assumption|]; lia.
    + intros H. right. left. now split.
  - intros i name Hi.
    destruct (Forall2_lookup_l _ _ _ _ _ Hnodes Hi) as (n & Hn & Hname).
    apply dict_get_node in Hname as [_ Hname].
    destruct (Hchild i n Hn) as (child & Hnew & Hrow' & Hcname & Hcpid & Hdef).
    destruct (Hdef (proj1 (Forall_lookup _ _) Hdefault i n Hn)) as (Htype & Hstatus & Hc).
    exists n, child. fold k in Hnew, Hrow'.
    split; [assumption|]. split; [assumption|]. split; [assumption|].
    split; [congruence|]. split; [assumption|]. split; [assumption|].
    split; [assumption|]. split; [assumption|].
    apply set_eq. intros q. rewrite elem_of_parents_of, Hlinks, elem_of_singleton.
    fold k. apply lookup_lt_Some in Hn. split.
    + intros [H|[[H _]|[H _]]]; [destruct (Hold _ _ H)| |assumption]; lia.
    + intros ->. right. right. split; [reflexivity|lia].
  - intros q. rewrite Hdom. fold k. now rewrite Hlen.
  - exists ts. split; [assumption|]. split; [assumption|]. split; assumption.
Qed.



Lemma sample_active_ship : active Order 1 sample_store 1 ship_row.
Proof. now repeat split. Qed.

Lemma sample_active_review : active Order 1 sample_store 2 review_row.
Proof. now repeat split. Qed.

Lemma override_force_completes_and_restarts_witness :
  ∃ object w' shipping,
    form_valid Order (mkProcess (Some 1) (Some 10) (Some 10) "approved")
      [ "ship"; "review" ] (idle sample_store 20) = Ok object w'
    ∧ (∃ t', tasks (store w') !! 1 = Some t' ∧ task_status t' = SUCCEEDED
             ∧ is_Some (task_completed t'))
    ∧ (∃ t', tasks (store w') !! 2 = Some t' ∧ task_status t' = SUCCEEDED
             ∧ is_Some (task_completed t'))
    ∧ (∃ o, tasks (store w') !! 3 = Some o
            ∧ task_node_name o = "manual_override" ∧ task_status o = SUCCEEDED)
    ∧ 1 ∈ parents_of (store w') 3 ∧ 2 ∈ parents_of (store w') 3
    ∧ (∃ child, tasks (store w') !! 4 = Some child ∧ task_node_name child = "ship"
                ∧ task_node_type child = MACHINE
                ∧ parents_of (store w') 4 = {[ 3 ]})
    ∧ (∃ child, tasks (store w') !! 5 = Some child ∧ task_node_name child = "review"
                ∧ task_node_type child = HUMAN
                ∧ parents_of (store w') 5 = {[ 3 ]})
    ∧ tasks (store w') !! 6 = None
    ∧ task_pk shipping = Some 4
    ∧ queue w' = [ message_of shipping ].
Proof.
  destruct (override_force_completes_and_restarts Order
              (mkProcess (Some 1) (Some 10) (Some 10) "approved") 1 order_row
              [ "ship"; "review" ] (idle sample_store 20))
    as (object & w' & nodes & Hrun & Hnodes & Hfin & _ & _ & Hover & Hparents
        & Hchildren & Hdom & (ts & Hlen & Htspk & _ & Hout)).
  - apply sample_store_wf.
  - reflexivity.
  - reflexivity.
  - repeat constructor; eexists; split; reflexivity.
  - reflexivity.
  - apply Forall2_cons_inv_l in Hnodes as (n0 & nodes' & Hn0 & Hnodes & ->).
    apply Forall2_cons_inv_l in Hnodes as (n1 & nodes'' & Hn1 & Hnodes & ->).
    apply Forall2_nil_inv_l in Hnodes as ->.
    vm_compute in Hn0, Hn1. injection Hn0 as <-. injection Hn1 as <-.
    destruct ts as [|t0 [|t1 [|t2 ts]]]; try discriminate Hlen.
    exists object, w', t0. split; [exact Hrun|].
    destruct (Hfin 1 ship_row sample_active_ship) as (t1' & Ht1 & Hs1 & Hc1 & _).
    destruct (Hfin 2 review_row sample_active_review) as (t2' & Ht2 & Hs2 & Hc2 & _).
    destruct Hover as (o & Ho & Honame & _ & Hostatus & _).
    destruct (Hchildren 0%nat "ship" eq_refl)
      as (m0 & c0 & [= <-] & _ & Hc0 & Hn0 & _ & Hty0 & _ & _ & Hp0).
    destruct (Hchildren 1%nat "review" eq_refl)
      as (m1 & c1' & [= <-] & _ & Hc1' & Hn1 & _ & Hty1 & _ & _ & Hp1).
    destruct (Hout eq_refl) as (_ & _ & Hq).
    split; [eauto|]. split; [eauto|]. split; [eauto|].
    split; [apply Hparents; exists ship_row; apply sample_active_ship|].
    split; [apply Hparents; exists review_row; apply sample_active_review|].
    split; [eauto|]. split; [eauto|].
    split; [|split; [exact (Htspk 0%nat t0 eq_refl)|exact Hq]].
    destruct (tasks (store w') !! 6) as [t6|] eqn:E; [|reflexivity].
    assert (is_Some (tasks (store w') !! 6)) as H6 by (rewrite E; eauto).
    apply Hdom in H6 as [[t H6]|H6].
    + destruct (wf_task_keys _ sample_store_wf _ _ H6) as [_ Hr]. cbn in Hr. lia.
    + cbn in H6. lia.
Defined.

(** C2 as stated fails for a chosen node that creates its task itself.  In
    the sample workflow the override is asked to start [collect], whose
    [create_task] gives back the task the process already has for the node:
    the only new row is the override task, no task is started at the chosen
    node, and the finished task 2 is linked to the override task and handed
    to the queue again. *)
Lemma override_at_a_node_with_its_own_create_task_starts_no_task :
  is_Some (dict_get (get_nodes Approval) "collect")
  ∧ ∃ object w',
      form_valid Approval order_row [ "collect" ] (idle approval_store 20)
      = Ok object w'
      ∧ (∃ o, tasks (store w') !! 4 = Some o ∧ task_node_name o = "manual_override")
      ∧ tasks (store w') !! 5 = None
      ∧ next_task_id (store w') = 5
      ∧ size (tasks (store w')) = 4%nat
      ∧ parents_of (store w') 2 = {[ 1; 4 ]}
      ∧ msg_pk <$> queue w' = [ Some 2 ].
Proof.
  split; [eexists; reflexivity|]. eexists _, _.
  split; [vm_compute; reflexivity|]. vm_compute.
  split; [eexists; split; reflexivity|]. now repeat split.
Qed.

(** ** The parent relation only grows, and stays acyclic *)

Lemma tc_below s n x y :
  (∀ c q, (c, q) ∈ parent_links s -> c < n ∧ q < n) ->
  tc (is_parent s) x y -> x < n ∧ y < n.
Proof.
  intros Hold. induction 1 as [x y H|x z y H _ IH].
  - now apply Hold.
  - destruct (Hold _ _ H). lia.
Qed.

Lemma acyclic_extend s s' n :
  (∀ c q, (c, q) ∈ parent_links s -> c < n ∧ q < n) ->
  (∀ c q, (c, q) ∈ parent_links s' ->
     (c, q) ∈ parent_links s ∨ (n ≤ c ∧ q < c)) ->
  acyclic s -> acyclic s'.
Proof.
  intros Hold Hnew Hacyc.
  assert (∀ x y, tc (is_parent s') x y ->
            tc (is_parent s) x y ∨ (n ≤ x ∧ y < x)) as Hpath.
  { induction 1 as [x y H|x z y H Hrest IH].
    - destruct (Hnew _ _ H) as [Ho|Hn]; [left; now apply tc_once|now right].
    - destruct (Hnew _ _ H) as [Ho|[Hn Hlt]].
      + destruct IH as [IH|[IH _]].
        * left. now apply (tc_l _ x z y).
        * destruct (Hold _ _ Ho). lia.
      + right. split; [assumption|]. destruct IH as [IH|[_ IH]].
        * destruct (tc_below s n z y Hold IH). lia.
        * lia. }
  intros x Hx. destruct (Hpath x x Hx) as [H|[_ H]]; [now apply (Hacyc x)|lia].
Qed.

Lemma atomic_raise_in_transaction {A} (body : M A) w e w' :
  in_atomic_block w = true -> atomic body w = Raise e w' -> store w' = store w.
Proof.
  intros Hin. unfold atomic. destruct (body (enter_atomic w)) as [a w1|e1 w1].
  - rewrite Hin. discriminate.
  - intros [= _ <-]. reflexivity.
Qed.

Lemma start_next_tasks_links cls self p pid proc next_nodes nodes w :
  task_pk self = Some p ->
  is_Some (task_content_type self) ->
  task_process_id self = Some pid ->
  store_wf (store w) ->
  is_Some (tasks (store w) !! p) ->
  processes (store w) !! pid = Some proc ->
  next_nodes_are cls self next_nodes nodes ->
  Forall honours_create_task nodes ->
  (in_atomic_block w = false -> run_on_commit w = []) ->
  ∃ ts w',
    start_next_tasks cls self next_nodes w = Ok ts w'
    ∧ (∀ q, is_Some (tasks (store w') !! q)
            ↔ is_Some (tasks (store w) !! q)
              ∨ next_task_id (store w) ≤ q
                < next_task_id (store w) + Z.of_nat (length nodes))
    ∧ (∀ c q, (c, q) ∈ parent_links (store w')
              ↔ (c, q) ∈ parent_links (store w)
                ∨ (q = p ∧ next_task_id (store w) ≤ c
                           < next_task_id (store w) + Z.of_nat (length nodes))).
Proof.
  intros Hpk Hct Hpid Hwf Hrow Hproc Hnn Hnodes Hidle.
  destruct (in_atomic_block w) eqn:Hin.
  - destruct (start_next_tasks_nested cls self p pid proc Hpk Hct Hpid next_nodes
                nodes w) as (ts & w' & Hrun & Hst & _);
      [split; [assumption|]; split; [assumption|]; split; assumption
      |assumption|assumption|].
    destruct (children_rows p pid (store w) nodes ts (store w') [] (store w'))
      as (_ & Hdom & _ & Hlinks & _); try assumption.
    { intros q Hq. now apply elem_of_nil in Hq. }
    { apply rescheduled_nil. }
    exists ts, w'. split; [assumption|]. split; assumption.
  - assert (atomic_depth w = 0%nat) as Hd.
    { unfold in_atomic_block in Hin. destruct (atomic_depth w); [reflexivity|discriminate]. }
    destruct (start_next_tasks_outermost cls self p pid proc Hpk Hct Hpid next_nodes
                nodes w Hd (Hidle eq_refl) Hwf Hrow Hproc Hnn Hnodes)
      as (ts & w' & s1 & keys & Hrun & Hst & Hkeys & Hres & _).
    destruct (children_rows p pid (store w) nodes ts s1 keys (store w'))
      as (_ & Hdom & _ & Hlinks & _); try assumption.
    { intros q Hin'. destruct (task_pks_elem _ _ _ Hkeys Hin') as (t & Ht & Hpk').
      apply to_enqueue_subset in Ht. apply list_elem_of_lookup in Ht as [i Hi].
      destruct (started_new_rows _ _ _ _ _ _ _ _ Hst Hi) as [Hpk'' _].
      rewrite Hpk' in Hpk''. injection Hpk'' as ->. lia. }
    exists ts, w'. split; [assumption|]. split; assumption.
Qed.

(** C7.  Both operations that create tasks leave the through table of
    [parent_task_set] appended to, on a well-formed store, when the nodes they
    start have no [create_task] of their own.  [start_next_tasks] on a stored
    task of a stored process (with the successors of its node, or with nodes
    handed in) and the override on a stored process succeed, and afterwards:
    every old pair is still there; every new pair makes a stored task with a
    smaller key a parent of a task that did not exist before the call; and a
    relation without cycle has none afterwards.  When either call raises
    inside an enclosing transaction, the store is the one before the call. *)
Theorem parent_links_append_only_dag (cls : ProcessClass) (w : World) :
  store_wf (store w) ->
  (in_atomic_block w = false -> run_on_commit w = []) ->
  (∀ self p pid proc next_nodes nodes,
     task_pk self = Some p ->
     is_Some (task_content_type self) ->
     task_process_id self = Some pid ->
     is_Some (tasks (store w) !! p) ->
     processes (store w) !! pid = Some proc ->
     next_nodes_are cls self next_nodes nodes ->
     Forall (fun n => create_task n = None) nodes ->
     ∃ ts w', start_next_tasks cls self next_nodes w = Ok ts w'
              ∧ links_appended (store w) (store w'))
  ∧ (∀ instance pid names,
       process_pk instance = Some pid ->
       is_Some (processes (store w) !! pid) ->
       Forall (default_node cls) names ->
       ∃ object w', form_valid cls instance names w = Ok object w'
                    ∧ links_appended (store w) (store w'))
  ∧ (∀ self next_nodes instance names e w',
       in_atomic_block w = true ->
       start_next_tasks cls self next_nodes w = Raise e w'
       ∨ form_valid cls instance names w = Raise e w' ->
       store w' = store w).
Proof.
  intros Hwf Hidle.
  assert (∀ c q, (c, q) ∈ parent_links (store w) ->
            c < next_task_id (store w) ∧ q < next_task_id (store w)) as Hold.
  { intros c q Hin. now apply store_wf_fresh_links. }
  assert (∀ q, is_Some (tasks (store w) !! q) -> 0 < q < next_task_id (store w))
    as Hrange.
  { intros q [t Hq]. now destruct (wf_task_keys _ Hwf _ _ Hq). }
  split; [|split].
  - intros self p pid proc next_nodes nodes Hpk Hct Hpid Hrow Hproc Hnn Hdefault.
    assert (Forall honours_create_task nodes) as Hnodes.
    { eapply Forall_impl; [exact Hdefault|]. intros n. apply default_node_honours. }
    destruct (start_next_tasks_links cls self p pid proc next_nodes nodes w)
      as (ts & w' & Hrun & Hdom & Hlinks); try assumption.
    exists ts, w'. split; [assumption|]. split.
    + intros c q Hin. apply Hlinks. now left.
    + intros c q Hin Hnew. apply Hlinks in Hin as [Hin|[-> Hc]]; [contradiction|].
      pose proof (Hrange p Hrow) as Hp.
      split; [|split; [|split]].
      * destruct (tasks (store w) !! c) as [t|] eqn:E; [|reflexivity].
        assert (is_Some (tasks (store w) !! c)) as H by (rewrite E; eauto).
        pose proof (Hrange c H). lia.
      * apply Hdom. now right.
      * apply Hdom. now left.
      * lia.
    + apply (acyclic_extend _ _ (next_task_id (store w))); [assumption|].
      intros c q Hin. apply Hlinks in Hin as [Hin|[-> Hc]]; [now left|].
      right. pose proof (Hrange p Hrow) as Hp. lia.
  - intros instance pid names Hipk [row Hirow] Hnames.
    destruct (chosen_default_nodes cls names Hnames) as (chosen & Hchosen & Hdefault).
    assert (Forall honours_create_task chosen) as Hhon'.
    { eapply Forall_impl; [exact Hdefault|]. intros n. apply default_node_honours. }
    destruct (form_valid_spec cls instance pid row names chosen w Hwf Hipk Hirow
                Hchosen Hhon' Hidle)
      as (object & w' & ts & Hrun & _ & [Hfin Hoth Hfresh Hover Hchild Hdom Hlinks] & _).
    exists object, w'. split; [assumption|]. split.
    + intros c q Hin. apply Hlinks. now left.
    + intros c q Hin Hnew.
      apply Hlinks in Hin as [Hin|[[-> (t & Hact)]|[-> Hc]]]; [contradiction| |].
      * pose proof Hact as (Hq & _).
        assert (is_Some (tasks (store w) !! q)) as H by (rewrite Hq; eauto).
        pose proof (Hrange q H) as Hq'.
        split; [assumption|]. split; [apply Hdom; right; lia|].
        split; [apply Hdom; now left|lia].
      * split; [|split; [|split]].
        -- destruct (tasks (store w) !! c) as [t|] eqn:E; [|reflexivity].
           assert (is_Some (tasks (store w) !! c)) as H by (rewrite E; eauto).
           pose proof (Hrange c H). lia.
        -- apply Hdom. right. lia.
        -- apply Hdom. right. lia.
        -- lia.
    + apply (acyclic_extend _ _ (next_task_id (store w))); [assumption|].
      intros c q Hin.
      apply Hlinks in Hin as [Hin|[[-> (t & Hact)]|[-> Hc]]]; [now left| |].
      * right. pose proof Hact as (Hq & _).
        assert (is_Some (tasks (store w) !! q)) as H by (rewrite Hq; eauto).
        pose proof (Hrange q H). lia.
      * right. lia.
  - intros self next_nodes instance names e w' Hin [H|H].
    + now apply (atomic_raise_in_transaction _ _ _ _ Hin H).
    + rewrite form_valid_unfold in H.
      now apply (atomic_raise_in_transaction _ _ _ _ Hin H).
Qed.

Lemma parent_links_append_only_dag_witness :
  (∃ ts w',
     start_next_tasks Delivery review_row None (idle sample_store 20) = Ok ts w'
     ∧ links_appended sample_store (store w'))
  ∧ (∃ object w',
       form_valid Delivery (mkProcess (Some 1) (Some 10) (Some 10) "approved")
         [ "ship"; "review" ] (idle sample_store 20) = Ok object w'
       ∧ links_appended sample_store (store w')).
Proof.
  destruct (parent_links_append_only_dag Delivery (idle sample_store 20))
    as (Hstart & Hoverride & _).
  - apply sample_store_wf.
  - reflexivity.
  - split.
    + apply (Hstart review_row 2 1 order_row None (get_next_nodes Delivery review)).
      * reflexivity.
      * eexists. reflexivity.
      * reflexivity.
      * eexists. reflexivity.
      * reflexivity.
      * now apply next_nodes_default.
      * repeat constructor.
    + apply (Hoverride (mkProcess (Some 1) (Some 10) (Some 10) "approved") 1
                [ "ship"; "review" ]).
      * reflexivity.
      * eexists. reflexivity.
      * repeat constructor; eexists; split; reflexivity.
Defined.

Lemma acyclic_decreasing s :
  (∀ c q, (c, q) ∈ parent_links s -> q < c) -> acyclic s.
Proof.
  intros Hdec.
  assert (∀ x y, tc (is_parent s) x y -> y < x) as Hpath.
  { induction 1 as [x y H|x z y H _ IH]; [now apply Hdec|].
    pose proof (Hdec _ _ H). lia. }
  intros x Hx. specialize (Hpath x x Hx). lia.
Qed.

(** C7 as stated fails for a successor that creates its task itself.  In the
    sample workflow task 3 has task 2 as its parent, and the successor of its
    node gives back task 2 from [create_task]: [start_next_tasks] then makes
    task 3 a parent of task 2.  The new pair hangs on a task that existed
    before, under a smaller key than its new parent, and the relation, which
    had no cycle, has one. *)
Lemma successor_with_its_own_create_task_closes_a_cycle :
  store_wf approval_store
  ∧ acyclic approval_store
  ∧ ∃ children w',
      start_next_tasks Approval recheck_row None (idle approval_store 20)
      = Ok children w'
      ∧ (3, 2) ∈ parent_links approval_store
      ∧ ((2, 3) ∉ parent_links approval_store)
      ∧ (2, 3) ∈ parent_links (store w')
      ∧ is_Some (tasks approval_store !! 2)
      ∧ ¬ links_appended approval_store (store w')
      ∧ ¬ acyclic (store w').
Proof.
  assert (∀ c q, (c, q) ∈ parent_links approval_store ->
            ((c = 2 ∧ q = 1) ∨ (c = 3 ∧ q = 2))) as Hlinks.
  { intros c q Hin. cbn in Hin. apply elem_of_union in Hin as [Hin|Hin];
      apply elem_of_singleton in Hin; injection Hin as -> ->; auto. }
  assert ((3, 2) ∈ parent_links approval_store) as H32.
  { cbn. apply elem_of_union. right. now apply elem_of_singleton. }
  assert ((2, 3) ∉ parent_links approval_store) as H23.
  { intros Hin. destruct (Hlinks _ _ Hin) as [[_ H]|[H _]]; discriminate. }
  split; [|split].
  - split.
    + reflexivity.
    + intros q t Hq. unfold approval_store in Hq. cbn [tasks] in Hq.
      apply lookup_insert_Some in Hq as [[<- <-]|[_ Hq]]; [now split|].
      apply lookup_insert_Some in Hq as [[<- <-]|[_ Hq]]; [now split|].
      apply lookup_singleton_Some in Hq as [<- <-]. now split.
    + intros c q Hin. destruct (Hlinks _ _ Hin) as [[-> ->]|[-> ->]];
        split; eexists; reflexivity.
    + intros q proc Hq. unfold approval_store in Hq. cbn [processes] in Hq.
      now apply lookup_singleton_Some in Hq as [<- <-].
  - apply acyclic_decreasing. intros c q Hin.
    destruct (Hlinks _ _ Hin) as [[-> ->]|[-> ->]]; lia.
  - eexists _, _. split; [vm_compute; reflexivity|].
    match goal with
    | |- context [ store ?w ] =>
        assert ((2, 3) ∈ parent_links (store w)) as H23';
        [apply (bool_decide_unpack _); vm_compute; exact I|];
        assert ((3, 2) ∈ parent_links (store w)) as H32';
        [apply (bool_decide_unpack _); vm_compute; exact I|]
    end.
    split; [exact H32|]. split; [exact H23|]. split; [exact H23'|].
    split; [eexists; reflexivity|]. split.
    + intros [_ Hnew _]. destruct (Hnew 2 3 H23' H23) as (Hfresh & _). discriminate.
    + intros Hacyc. apply (Hacyc 2).
      apply (tc_l _ 2 3 2); [exact H23'|]. apply tc_once. exact H32'.
Qed.

(** ** The queue never runs ahead of the commit *)

Lemma step_refl w : step w w.
Proof. split; auto. Qed.

Lemma step_in_atomic w w' : step w w' -> in_atomic_block w' = in_atomic_block w.
Proof. intros []. unfold in_atomic_block. congruence. Qed.

Lemma step_trans w w1 w2 : step w w1 -> step w1 w2 -> step w w2.
Proof.
  intros H1 H2. pose proof (step_in_atomic _ _ H1) as Hin.
  destruct H1 as [Hd1 Hr1 Ht1], H2 as [Hd2 Hr2 Ht2]. split.
  - congruence.
  - auto.
  - intros H. rewrite Hin in Ht2. destruct (Ht1 H), (Ht2 H). split; congruence.
Qed.

Lemma sound_ret {A} (a : A) : sound (ret a).
Proof. intros w Hs. split; [assumption|apply step_refl]. Qed.

Lemma sound_raise {A} e : sound (@raise A e).
Proof. intros w Hs. split; [assumption|apply step_refl]. Qed.

Lemma sound_get_store : sound get_store.
Proof. intros w Hs. split; [assumption|apply step_refl]. Qed.

Lemma sound_now : sound timezone_now.
Proof.
  intros w [Hq Hh Hc Ha]. cbn. split; [|split; auto].
  split; assumption.
Qed.

Lemma sound_bind {A B} (m : M A) (k : A -> M B) :
  sound m -> (∀ a, sound (k a)) -> sound (bind m k).
Proof.
  intros Hm Hk w Hs. destruct (Hm w Hs) as [Hs1 Hst1]. unfold bind.
  destruct (m w) as [a w1|e w1]; cbn in Hs1, Hst1.
  - destruct (Hk a w1 Hs1) as [Hs2 Hst2]. split; [assumption|].
    now apply (step_trans w w1).
  - now split.
Qed.

Lemma sound_try_except {A} (m : M A) e (handler : M A) :
  sound m -> sound handler -> sound (try_except m e handler).
Proof.
  intros Hm Hh w Hs. destruct (Hm w Hs) as [Hs1 Hst1]. unfold try_except.
  destruct (m w) as [a w1|e' w1]; cbn in Hs1, Hst1.
  - now split.
  - destruct (decide (e' = e)); [|now split].
    destruct (Hh w1 Hs1) as [Hs2 Hst2]. split; [assumption|].
    now apply (step_trans w w1).
Qed.

Lemma sound_mapM {A B} (f : A -> M B) l :
  (∀ x, x ∈ l -> sound (f x)) -> sound (mapM f l).
Proof.
  induction l as [|x l IH]; intros Hf; cbn [mapM].
  - apply sound_ret.
  - apply sound_bind; [apply Hf; now left|]. intros y.
    apply sound_bind; [apply IH; intros; apply Hf; now right|].
    intros ys. apply sound_ret.
Qed.

Lemma sound_write f : keeps_rows f -> sound (write_store f).
Proof.
  intros Hf w [Hq Hh Hc Ha]. cbn. unfold after_write.
  destruct (in_atomic_block w) eqn:Hin.
  - split; [split; cbn|split; cbn].
    + assumption.
    + intros m Hm. destruct (Hh m Hm) as (p & Hp & Hrow). exists p.
      split; [assumption|]. cbn. now apply Hf.
    + intros p Hp. apply Hf. now apply Hc.
    + unfold in_atomic_block in *. cbn. congruence.
    + reflexivity.
    + apply Hf.
    + auto.
  - destruct (Ha eq_refl) as [Hcs Hhs]. split; [split; cbn|split; cbn].
    + intros m Hm. destruct (Hq m Hm) as (p & Hp & Hrow). exists p. split; [assumption|].
      cbn. apply Hf. now rewrite <- Hcs.
    + intros m Hm. rewrite Hhs in Hm. now apply elem_of_nil in Hm.
    + auto.
    + intros _. now split.
    + reflexivity.
    + apply Hf.
    + congruence.
Qed.

Lemma keeps_rows_insert (f : Store -> Store) :
  (∀ s, ∃ p row, tasks (f s) = <[p := row]> (tasks s)) -> keeps_rows f.
Proof.
  intros Hf s q Hq. destruct (Hf s) as (p & row & ->).
  rewrite lookup_insert_is_Some. destruct (decide (p = q)); auto.
Qed.

Lemma keeps_rows_set_task p row : keeps_rows (set_task p row).
Proof. apply keeps_rows_insert. intros s. now exists p, row. Qed.

Lemma keeps_rows_put_task p row : keeps_rows (put_task p row).
Proof. apply keeps_rows_insert. intros s. now exists p, row. Qed.

Lemma keeps_rows_same (f : Store -> Store) :
  (∀ s, tasks (f s) = tasks s) -> keeps_rows f.
Proof. intros Hf s q Hq. now rewrite Hf. Qed.

Lemma keeps_rows_set_process p row : keeps_rows (set_process p row).
Proof. now apply keeps_rows_same. Qed.

Lemma keeps_rows_put_process p row : keeps_rows (put_process p row).
Proof. now apply keeps_rows_same. Qed.

Lemma keeps_rows_add_parent c p : keeps_rows (add_parent c p).
Proof. now apply keeps_rows_same. Qed.

Lemma keeps_rows_set_parents c ps : keeps_rows (set_parents c ps).
Proof. now apply keeps_rows_same. Qed.

Ltac sound_step :=
  lazymatch goal with
  | |- sound (ret _) => apply sound_ret
  | |- sound (raise _) => apply sound_raise
  | |- sound get_store => apply sound_get_store
  | |- sound timezone_now => apply sound_now
  | |- sound (bind _ _) => apply sound_bind; [|intros ?]
  | |- sound (try_except _ _ _) => apply sound_try_except
  | |- sound (write_store (set_task _ _)) => apply sound_write, keeps_rows_set_task
  | |- sound (write_store (put_task _ _)) => apply sound_write, keeps_rows_put_task
  | |- sound (write_store (set_process _ _)) =>
      apply sound_write, keeps_rows_set_process
  | |- sound (write_store (put_process _ _)) =>
      apply sound_write, keeps_rows_put_process
  | |- sound (write_store (add_parent _ _)) => apply sound_write, keeps_rows_add_parent
  | |- sound (write_store (set_parents _ _)) =>
      apply sound_write, keeps_rows_set_parents
  | |- sound (match ?x with _ => _ end) => destruct x
  end.

Ltac sound_auto := repeat sound_step.

Lemma sound_insert_task self : sound (insert_task self).
Proof. unfold insert_task. sound_auto. Qed.

Lemma sound_Model_save self update_fields : sound (Model_save self update_fields).
Proof.
  unfold Model_save. destruct update_fields as [[|f fs]|]; sound_auto;
    apply sound_insert_task.
Qed.

Lemma sound_Task_save self update_fields : sound (Task_save self update_fields).
Proof.
  unfold Task_save. destruct (truthy (task_pk self)), update_fields;
    try apply sound_Model_save. apply sound_raise.
Qed.

Lemma sound_Task_finish self user : sound (Task_finish self user).
Proof.
  unfold Task_finish. apply sound_bind; [apply sound_now|]. intros now.
  cbv zeta. destruct (truthy (task_pk _)); apply sound_Task_save.
Qed.

Lemma sound_Task_fail self tb : sound (Task_fail self tb).
Proof.
  unfold Task_fail. apply sound_bind; [apply sound_now|]. intros now.
  cbv zeta. destruct (last tb); [apply sound_Task_save|apply sound_raise].
Qed.

Lemma sound_insert_process self : sound (insert_process self).
Proof. unfold insert_process. sound_auto. Qed.

Lemma sound_Model_save_process self update_fields :
  sound (Model_save_process self update_fields).
Proof.
  unfold Model_save_process. destruct update_fields as [[|f fs]|]; sound_auto;
    apply sound_insert_process.
Qed.

Lemma sound_Process_save self update_fields : sound (Process_save self update_fields).
Proof.
  unfold Process_save. destruct (truthy (process_pk self)), update_fields;
    apply sound_Model_save_process.
Qed.

Lemma sound_parent_task_set_add task parent : sound (parent_task_set_add task parent).
Proof. unfold parent_task_set_add. sound_auto. Qed.

Lemma sound_parent_task_set_set task objs : sound (parent_task_set_set task objs).
Proof. unfold parent_task_set_set. sound_auto. Qed.

Lemma sound_Task_process self : sound (Task_process self).
Proof. unfold Task_process. sound_auto. Qed.

Lemma sound_process_of self : sound (process_of self).
Proof. unfold process_of. sound_auto. apply sound_Task_process. Qed.

Lemma sound_Task_node cls self : sound (Task_node cls self).
Proof. unfold Task_node. sound_auto. apply sound_process_of. Qed.

Lemma sound_task_set_create cls process name type :
  sound (task_set_create cls process name type).
Proof. unfold task_set_create. apply sound_Task_save. Qed.

Lemma sound_active_tasks_of cls process : sound (active_tasks_of cls process).
Proof. unfold active_tasks_of. sound_auto. Qed.

Lemma sound_get_node cls name : sound (get_node cls name).
Proof. unfold get_node. sound_auto. Qed.

(** A save with named columns that succeeds has written a stored row. *)
Lemma Model_save_columns_Ok self f fs self' w w' :
  Model_save self (Some (f :: fs)) w = Ok self' w' ->
  ∃ p, task_pk self' = Some p ∧ is_Some (tasks (store w') !! p).
Proof.
  unfold Model_save. destruct (negb _); [discriminate|].
  destruct (task_pk self) as [p|] eqn:Hpk; [|discriminate].
  unfold bind at 1.
  destruct (existsb _ _); cbn; unfold bind, get_store, write_store, ret, timezone_now;
    cbn; destruct (tasks (store w) !! p); try discriminate;
    intros [= <- <-]; exists p; cbn; rewrite lookup_insert_eq; eauto.
Qed.

Lemma Task_save_columns_Ok self f fs self' w w' :
  Task_save self (Some (f :: fs)) w = Ok self' w' ->
  ∃ p, task_pk self' = Some p ∧ is_Some (tasks (store w') !! p).
Proof.
  unfold Task_save. destruct (truthy _); apply Model_save_columns_Ok.
Qed.

Lemma sound_on_commit_apply_async m w :
  queue_safe w -> names_stored_row w m ->
  ∃ w', on_commit (HookApplyAsync m) (apply_async m) w = Ok tt w'
        ∧ queue_safe w' ∧ step w w'.
Proof.
  intros [Hq Hh Hc Ha] (p & Hp & Hrow). unfold on_commit.
  destruct (in_atomic_block w) eqn:Hin.
  - eexists. split; [reflexivity|]. split; [split; cbn|split; cbn]; auto.
    + intros m' Hm'. apply elem_of_app in Hm' as [Hm'|Hm']; [now apply Hh|].
      apply list_elem_of_singleton in Hm'. injection Hm' as ->. now exists p.
    + unfold in_atomic_block in *. cbn. congruence.
  - destruct (Ha eq_refl) as [Hcs Hhs].
    eexists. split; [reflexivity|]. split; [split; cbn|split; cbn]; auto.
    + intros m' Hm'. apply elem_of_app in Hm' as [Hm'|Hm']; [now apply Hq|].
      apply list_elem_of_singleton in Hm' as ->. exists p. split; [assumption|].
      cbn. now rewrite Hcs.
    + congruence.
Qed.

Lemma sound_Task_enqueue self countdown eta : sound (Task_enqueue self countdown eta).
Proof.
  intros w Hs. unfold Task_enqueue.
  set (self0 := set_stacktrace "" _).
  pose proof (sound_Task_save self0
                (Some ["status"; "completed"; "exception"; "stacktrace"]) w Hs)
    as [Hs1 Hst1].
  destruct (Task_save self0 _ w) as [self' w1|e w1] eqn:E; cbn in Hs1, Hst1.
  - destruct (Task_save_columns_Ok _ _ _ _ _ _ E) as (p & Hp & Hrow).
    destruct (sound_on_commit_apply_async
                (mkMessage (task_pk self') (task_process_id self') countdown eta)
                w1 Hs1) as (w2 & Hrun & Hs2 & Hst2).
    { exists p. now split. }
    rewrite (bind_Ok _ _ _ _ _ E). rewrite (bind_Ok _ _ _ _ _ Hrun). cbn.
    split; [assumption|]. now apply (step_trans w w1).
  - rewrite (bind_Raise _ _ _ _ _ E). now split.
Qed.

Lemma sound_run_hook_enqueue t : sound (run_hook (HookEnqueue t)).
Proof.
  unfold run_hook. apply sound_bind; [apply sound_Task_enqueue|].
  intros _. apply sound_ret.
Qed.

Lemma sound_on_commit_enqueue t :
  sound (on_commit (HookEnqueue t) (run_hook (HookEnqueue t))).
Proof.
  intros w Hs. unfold on_commit. destruct (in_atomic_block w) eqn:Hin.
  - destruct Hs as [Hq Hh Hc Ha]. cbn. split; [split; cbn|split; cbn]; auto.
    + intros m Hm. apply elem_of_app in Hm as [Hm|Hm]; [now apply Hh|].
      apply list_elem_of_singleton in Hm. discriminate.
    + unfold in_atomic_block in *. cbn. congruence.
  - now apply sound_run_hook_enqueue.
Qed.

Lemma names_stored_row_step w w' m :
  step w w' -> names_stored_row w m -> names_stored_row w' m.
Proof. intros [_ Hr _] (p & Hp & Hrow). exists p. split; auto. Qed.

Lemma run_hook_safe h w :
  queue_safe w -> in_atomic_block w = false ->
  (∀ m, h = HookApplyAsync m -> names_stored_row w m) ->
  queue_safe (world_of (run_hook h w)) ∧ step w (world_of (run_hook h w)).
Proof.
  intros Hs Hin Hh. destruct h as [t|m].
  - now apply sound_run_hook_enqueue.
  - destruct (sound_on_commit_apply_async m w Hs (Hh m eq_refl))
      as (w' & Hrun & Hs' & Hst').
    unfold on_commit in Hrun. rewrite Hin in Hrun. cbn [run_hook].
    rewrite Hrun. now split.
Qed.

Lemma run_hooks_safe hs w :
  queue_safe w -> in_atomic_block w = false ->
  (∀ m, HookApplyAsync m ∈ hs -> names_stored_row w m) ->
  queue_safe (world_of (mapM run_hook hs w))
  ∧ step w (world_of (mapM run_hook hs w)).
Proof.
  revert w. induction hs as [|h hs IH]; intros w Hs Hin Hhs.
  - cbn. split; [assumption|apply step_refl].
  - destruct (run_hook_safe h w Hs Hin) as [Hs1 Hst1].
    { intros m ->. apply Hhs. now left. }
    cbn [mapM]. destruct (run_hook h w) as [u w1|e w1] eqn:E; cbn in Hs1, Hst1.
    + rewrite (bind_Ok _ _ _ _ _ E).
      destruct (IH w1 Hs1) as [Hs2 Hst2].
      { now rewrite (step_in_atomic _ _ Hst1). }
      { intros m Hm. apply (names_stored_row_step w); [assumption|].
        apply Hhs. now right. }
      destruct (mapM run_hook hs w1) as [us w2|e w2] eqn:E2; cbn in Hs2, Hst2.
      * rewrite (bind_Ok _ _ _ _ _ E2). cbn. split; [assumption|].
        now apply (step_trans w w1).
      * rewrite (bind_Raise _ _ _ _ _ E2). cbn. split; [assumption|].
        now apply (step_trans w w1).
    + rewrite (bind_Raise _ _ _ _ _ E). now split.
Qed.

Lemma queue_safe_enter w : queue_safe w -> queue_safe (enter_atomic w).
Proof. intros [Hq Hh Hc Ha]. split; cbn; auto. discriminate. Qed.

Lemma sound_atomic {A} (body : M A) : sound body -> sound (atomic body).
Proof.
  intros Hbody w Hs.
  destruct (Hbody (enter_atomic w) (queue_safe_enter w Hs)) as [Hs1 Hst1].
  pose proof Hs as [Hq Hh Hc Ha].
  destruct Hst1 as [Hd1 Hr1 Ht1]. destruct (Ht1 eq_refl) as [Hc1 Hq1].
  cbn in Hd1, Hr1, Hc1, Hq1.
  unfold atomic.
  destruct (body (enter_atomic w)) as [a w1|e w1]; cbn in Hs1, Hd1, Hr1, Hc1, Hq1.
  - destruct Hs1 as [Hq' Hh' Hc' Ha'].
    destruct (in_atomic_block w) eqn:Hin.
    + cbn. split; [split; cbn|split; cbn]; auto.
      * unfold in_atomic_block in *. cbn. congruence.
    + destruct (Ha eq_refl) as [Hcs Hhs].
      destruct (run_hooks_safe (run_on_commit w1) (commit w1)) as [Hs2 Hst2].
      { split; cbn; auto.
        - intros m Hm. rewrite Hq1 in Hm. destruct (Hq m Hm) as (p & Hp & Hrow).
          exists p. split; [assumption|]. cbn. apply Hr1. now rewrite <- Hcs.
        - intros m Hm. now apply elem_of_nil in Hm. }
      { reflexivity. }
      { intros m Hm. destruct (Hh' m Hm) as (p & Hp & Hrow). now exists p. }
      assert (step w (commit w1)) as Hst.
      { split; cbn; auto.
        - unfold in_atomic_block in Hin. destruct (atomic_depth w); [reflexivity|discriminate].
        - congruence. }
      destruct (mapM run_hook (run_on_commit w1) (commit w1)) as [us w2|e w2];
        cbn in Hs2, Hst2; (split; [assumption|now apply (step_trans w (commit w1))]).
  - cbn. split; [split; cbn|split; cbn]; auto.
    + intros m Hm. rewrite Hq1 in Hm. destruct (Hq m Hm) as (p & Hp & Hrow).
      exists p. split; [assumption|]. cbn. now rewrite Hc1.
    + intros p Hp. rewrite Hc1 in Hp. auto.
    + intros Hin. unfold rollback, in_atomic_block in Hin |- *. cbn in Hin.
      rewrite Hc1. now apply Ha.
Qed.

Lemma sound_bind_Ok {A B} (m : M A) (k : A -> M B) :
  sound m -> (∀ a w w', m w = Ok a w' -> sound (k a)) -> sound (bind m k).
Proof.
  intros Hm Hk w Hs. destruct (Hm w Hs) as [Hs1 Hst1]. unfold bind.
  destruct (m w) as [a w1|e w1] eqn:E; cbn in Hs1, Hst1.
  - destruct (Hk a w w1 E w1 Hs1) as [Hs2 Hst2]. split; [assumption|].
    now apply (step_trans w w1).
  - now split.
Qed.

Lemma set_add_elem n m nodes : m ∈ set_add n nodes -> m ∈ nodes ∨ m = n.
Proof.
  unfold set_add. destruct (existsb _ _); [now left|].
  intros H. apply elem_of_app in H as [H|H]; [now left|].
  apply list_elem_of_singleton in H. now right.
Qed.

Lemma node_set_edges cls n :
  n ∈ node_set cls -> ∃ a b, (a, b) ∈ edges cls ∧ (n = a ∨ n = b).
Proof.
  unfold node_set.
  assert (∀ es acc, n ∈ fold_left
             (fun nodes (edge : Node * Node) => set_add edge.2 (set_add edge.1 nodes))
             es acc ->
           n ∈ acc ∨ ∃ a b, (a, b) ∈ es ∧ (n = a ∨ n = b)) as H.
  { induction es as [|[a b] es IH]; intros acc Hn; cbn in Hn; [now left|].
    destruct (IH _ Hn) as [Hacc|(a' & b' & Hin & Hab)].
    - apply set_add_elem in Hacc as [Hacc| ->].
      + apply set_add_elem in Hacc as [Hacc| ->]; [now left|].
        right. exists a, b. split; [now left|now left].
      + right. exists a, b. split; [now left|now right].
    - right. exists a', b'. split; [now right|assumption]. }
  intros Hn. destruct (H _ _ Hn) as [Hnil|Hex]; [|assumption].
  now apply elem_of_nil in Hnil.
Qed.

Lemma class_sound_node_set cls n : class_sound cls -> n ∈ node_set cls -> node_sound n.
Proof.
  intros Hcls Hn. destruct (node_set_edges cls n Hn) as (a & b & Hin & [-> | ->]);
    now destruct (Hcls a b Hin).
Qed.

Lemma sound_start_task cls self (item : M Node) :
  sound item -> (∀ w n w', item w = Ok n w' -> node_sound n) ->
  sound (start_task cls self item).
Proof.
  intros Hitem Hnode. unfold start_task.
  apply sound_bind_Ok; [assumption|]. intros n w w' Hn.
  specialize (Hnode w n w' Hn).
  apply sound_bind.
  - apply sound_try_except.
    + destruct (create_task n) as [create|] eqn:Hc; [|apply sound_raise].
      apply sound_bind; [apply sound_Task_process|]. intros process.
      now apply Hnode.
    + apply sound_bind; [apply sound_process_of|]. intros process.
      apply sound_task_set_create.
  - intros task. apply sound_bind; [apply sound_parent_task_set_add|]. intros _.
    apply sound_bind; [|intros; apply sound_ret].
    destruct (is_callable n); [apply sound_on_commit_enqueue|apply sound_ret].
Qed.

Lemma sound_start_next_tasks cls self names :
  class_sound cls ->
  sound (start_next_tasks cls self (get_next_task_nodes cls <$> names)).
Proof.
  intros Hcls. unfold start_next_tasks. apply sound_atomic.
  apply sound_bind_Ok.
  - destruct names as [names|]; cbn; [apply sound_ret|].
    apply sound_bind; [apply sound_process_of|]. intros _.
    apply sound_bind; [apply sound_Task_node|]. intros node. apply sound_ret.
  - intros items w w' Hitems. apply sound_mapM. intros item Hitem.
    destruct names as [names|]; cbn in Hitems.
    + injection Hitems as <- _. unfold get_next_task_nodes in Hitem.
      apply list_elem_of_fmap in Hitem as (name & -> & _).
      apply sound_start_task; [apply sound_get_node|].
      intros w0 n w0' Hn. unfold get_node in Hn.
      destruct (dict_get (get_nodes cls) name) as [n'|] eqn:E; [|discriminate].
      injection Hn as <- _. apply dict_get_node in E as [Hin _].
      now apply (class_sound_node_set cls).
    + unfold bind in Hitems.
      destruct (process_of self w) as [pr w1|]; [|discriminate].
      destruct (Task_node cls self w1) as [node w2|]; [|discriminate].
      injection Hitems as <- _.
      apply list_elem_of_fmap in Hitem as (n & -> & Hn).
      apply sound_start_task; [apply sound_ret|].
      intros w0 n' w0' [= <- _].
      apply get_next_nodes_spec in Hn as (a & Hin & _). now destruct (Hcls a n Hin).
Qed.

Lemma sound_form_valid cls instance names :
  class_sound cls -> sound (form_valid cls instance names).
Proof.
  intros Hcls. unfold form_valid. apply sound_atomic. cbv zeta.
  apply sound_bind; [apply sound_Process_save|]. intros object.
  apply sound_bind; [apply sound_active_tasks_of|]. intros acts.
  apply sound_bind; [apply sound_mapM; intros; apply sound_Task_finish|]. intros acts'.
  apply sound_bind; [apply sound_task_set_create|]. intros o.
  apply sound_bind; [apply sound_parent_task_set_set|]. intros _.
  apply sound_bind; [apply sound_Task_finish|]. intros o'.
  apply sound_bind; [|intros; apply sound_ret].
  exact (sound_start_next_tasks cls o' (Some names) Hcls).
Qed.

Lemma sound_run cls script : class_sound cls -> sound (run cls script).
Proof.
  intros Hcls. induction script; cbn [run].
  - apply sound_ret.
  - apply sound_bind; [apply sound_Task_enqueue|now intros].
  - apply sound_bind; [now apply sound_start_next_tasks|now intros].
  - apply sound_bind; [apply sound_Task_finish|now intros].
  - apply sound_bind; [apply sound_Task_fail|now intros].
  - apply sound_bind; [now apply sound_form_valid|now intros].
  - apply sound_bind; [now apply sound_atomic|now intros].
Qed.

(** C4.  Start from a world in which every queued message names a committed
    task row (and pending hooks name stored rows), and run any sequence of
    calls of this code, nested in transactions in any way, on any arguments.
    Whatever the outcome, every message in the queue names a task row of the
    committed store; and if the sequence ran inside a transaction, neither the
    queue nor the committed store was touched at all.  [enqueue] on a stored
    task succeeds: inside a transaction it leaves the queue as it was and
    registers the submission as an on-commit hook; in autocommit mode the
    submitted message comes after the save, and the committed store holds the
    reset row. *)
Theorem queue_submission_only_after_commit (cls : ProcessClass) (w : World) :
  class_sound cls ->
  queue_safe w ->
  (∀ script,
     (∀ m, m ∈ queue (world_of (run cls script w)) ->
        names_committed_row (world_of (run cls script w)) m)
     ∧ (in_atomic_block w = true ->
          queue (world_of (run cls script w)) = queue w
          ∧ committed (world_of (run cls script w)) = committed w))
  ∧ (∀ t countdown eta p row,
       task_pk t = Some p -> p ≠ 0 -> tasks (store w) !! p = Some row ->
       ∃ t' w',
         Task_enqueue t countdown eta w = Ok t' w'
         ∧ (in_atomic_block w = true ->
              queue w' = queue w
              ∧ committed w' = committed w
              ∧ run_on_commit w'
                = run_on_commit w
                    ++ [HookApplyAsync
                          (mkMessage (Some p) (task_process_id t) countdown eta)])
         ∧ (in_atomic_block w = false ->
              queue w'
              = queue w ++ [mkMessage (Some p) (task_process_id t) countdown eta]
              ∧ tasks (committed w') !! p = Some (enqueued row (clock w)))).
Proof.
  intros Hcls Hs. split.
  - intros script.
    destruct (sound_run cls script Hcls w Hs) as [[Hq _ _ _] [_ _ Htx]].
    split; [assumption|]. intros Hin. destruct (Htx Hin). now split.
  - intros t countdown eta p row Hpk Hp Hrow. eexists _, _.
    split; [apply (Task_enqueue_stored t countdown eta p row w Hpk Hp Hrow)|].
    split; intros Hin; rewrite Hin; cbn; unfold after_write; cbn;
      change (in_atomic_block (tick w)) with (in_atomic_block w); rewrite Hin.
    + now repeat split.
    + split; [reflexivity|]. cbn. apply lookup_insert_eq.
Qed.

Lemma Order_sound : class_sound Order.
Proof.
  assert (∀ n, create_task n = None -> node_sound n) as Hdefault.
  { intros n Hn create Hc. congruence. }
  assert (node_sound audit) as Haudit.
  { intros create Hc process. injection Hc as <-.
    destruct process; [apply sound_task_set_create|apply sound_raise]. }
  intros a b Hin. apply list_elem_of_In in Hin. cbn in Hin.
  destruct Hin as [H|[H|[H|[H|[]]]]]; injection H as <- <-;
    split; (assumption || now apply Hdefault).
Qed.

Lemma idle_safe s now : queue_safe (idle s now).
Proof.
  split; cbn; auto; intros m Hm; now apply elem_of_nil in Hm.
Qed.

Lemma in_transaction_safe s now : queue_safe (in_transaction s now).
Proof.
  split; cbn; auto; try discriminate; intros m Hm; now apply elem_of_nil in Hm.
Qed.

Example sample_script_queue :
  queue (world_of (run Order sample_script (idle sample_store 20)))
  = [ mkMessage (Some 1) (Some 1) None None;
      mkMessage (Some 3) (Some 1) None None;
      mkMessage (Some 4) (Some 1) None None ].
Proof. vm_compute. reflexivity. Qed.

Lemma queue_submission_only_after_commit_witness :
  (∀ m, m ∈ queue (world_of (run Order sample_script (idle sample_store 20))) ->
     names_committed_row (world_of (run Order sample_script (idle sample_store 20))) m)
  ∧ queue (world_of (run Order sample_script (in_transaction sample_store 20))) = []
  ∧ (∃ t' w',
       Task_enqueue ship_row None None (in_transaction sample_store 20) = Ok t' w'
       ∧ queue w' = []
       ∧ run_on_commit w' = [ HookApplyAsync (mkMessage (Some 1) (Some 1) None None) ])
  ∧ (∃ t' w',
       Task_enqueue ship_row None None (idle sample_store 20) = Ok t' w'
       ∧ queue w' = [ mkMessage (Some 1) (Some 1) None None ]
       ∧ tasks (committed w') !! 1 = Some (enqueued ship_row 20)).
Proof.
  destruct (queue_submission_only_after_commit Order (idle sample_store 20)
              Order_sound (idle_safe _ _)) as (Hidle & Hauto).
  destruct (queue_submission_only_after_commit Order (in_transaction sample_store 20)
              Order_sound (in_transaction_safe _ _)) as (Hquiet & Hhook).
  split; [exact (proj1 (Hidle sample_script))|].
  split; [now destruct (proj2 (Hquiet sample_script) eq_refl)|].
  split.
  - destruct (Hhook ship_row None None 1 ship_row) as (t' & w' & Hrun & Hin & _);
      [reflexivity|lia|reflexivity|].
    destruct (Hin eq_refl) as (Hq & _ & Hh).
    exists t', w'. split; [exact Hrun|]. split; [exact Hq|exact Hh].
  - destruct (Hauto ship_row None None 1 ship_row) as (t' & w' & Hrun & _ & Hout);
      [reflexivity|lia|reflexivity|].
    destruct (Hout eq_refl) as (Hq & Hrow).
    exists t', w'. split; [exact Hrun|]. split; [exact Hq|exact Hrow].
Defined.

(** * Further properties *)

(** ** [Process.finish] *)

(** X1.  [Process.finish] cannot succeed on a process model that has no
    column named [completed] (the base model has none): the save names a
    field that does not exist, so the call raises [ValueError], whether or not
    the process is stored, and nothing is written; only the time of the call
    to [timezone.now()] has passed. *)
Theorem Process_finish_raises (self : Process) (w : World) :
  Process_finish self w = Raise ValueError (tick w)
  ∧ store (world_of (Process_finish self w)) = store w
  ∧ committed (world_of (Process_finish self w)) = committed w
  ∧ queue (world_of (Process_finish self w)) = queue w.
Proof.
  assert (Process_finish self w = Raise ValueError (tick w)) as E.
  { unfold Process_finish. rewrite (bind_Ok _ _ w (clock w) (tick w)) by reflexivity.
    unfold Process_save.
    destruct (truthy (process_pk self)); reflexivity. }
  rewrite E. now repeat split.
Qed.

(** ** The status filters of the task manager *)

Lemma status_is_spec value t : status_is value t = true ↔ task_status t = value.
Proof. unfold status_is. apply String.eqb_eq. Qed.

(** X2.  On every queryset [succeeded] and [not_succeeded] split its rows
    in two: a row of the queryset is in exactly one of them.  [scheduled],
    [succeeded] and [failed] select by the stored status, so no row is in
    two of them, chaining two of them yields nothing, and the scheduled and
    the failed rows are among the not succeeded ones. *)
Theorem status_filters_partition (self : QuerySet) (t : Task) :
  (succeeded self t = true ↔ self t = true ∧ task_status t = SUCCEEDED)
  ∧ (not_succeeded self t = true ↔ self t = true ∧ task_status t ≠ SUCCEEDED)
  ∧ (scheduled self t = true ↔ self t = true ∧ task_status t = SCHEDULED)
  ∧ (failed self t = true ↔ self t = true ∧ task_status t = FAILED)
  ∧ (self t = true -> succeeded self t = negb (not_succeeded self t))
  ∧ (scheduled self t = true -> not_succeeded self t = true ∧ failed self t = false)
  ∧ (failed self t = true -> not_succeeded self t = true ∧ scheduled self t = false)
  ∧ failed (scheduled self) t = false
  ∧ succeeded (not_succeeded self) t = false.
Proof.
  assert (∀ value, qs_filter (status_is value) self t = true
                   ↔ self t = true ∧ task_status t = value) as Hfilter.
  { intros value. unfold qs_filter. rewrite andb_true_iff. now rewrite status_is_spec. }
  assert (not_succeeded self t = true ↔ self t = true ∧ task_status t ≠ SUCCEEDED)
    as Hnot.
  { unfold not_succeeded, qs_exclude. rewrite andb_true_iff, negb_true_iff.
    rewrite <- (status_is_spec SUCCEEDED t). now destruct (status_is SUCCEEDED t). }
  split; [apply Hfilter|]. split; [exact Hnot|].
  split; [apply Hfilter|]. split; [apply Hfilter|].
  split; [|split; [|split; [|split]]].
  - intros Hself. unfold succeeded, not_succeeded, qs_filter, qs_exclude.
    rewrite Hself. cbn. now destruct (status_is SUCCEEDED t).
  - intros H. apply Hfilter in H as [Hself Hst]. split.
    + apply Hnot. split; [assumption|]. rewrite Hst. discriminate.
    + unfold failed, qs_filter, status_is. rewrite Hst, Hself. reflexivity.
  - intros H. apply Hfilter in H as [Hself Hst]. split.
    + apply Hnot. split; [assumption|]. rewrite Hst. discriminate.
    + unfold scheduled, qs_filter, status_is. rewrite Hst, Hself. reflexivity.
  - unfold failed, scheduled, qs_filter, status_is.
    destruct (self t); [cbn|reflexivity].
    destruct (String.eqb_spec (task_status t) SCHEDULED) as [->|]; reflexivity.
  - unfold succeeded, not_succeeded, qs_filter, qs_exclude.
    destruct (self t); [cbn|reflexivity].
    now destruct (status_is SUCCEEDED t).
Qed.

Lemma yields_set_task qs s p row q :
  yields qs (set_task p row s) q
  = if decide (p = q) then qs row else yields qs s q.
Proof.
  unfold yields. cbn. destruct (decide (p = q)) as [<-|Hne].
  - now rewrite lookup_insert_eq.
  - now rewrite lookup_insert_ne.
Qed.

(** X3.  The three operations on a stored task move its row between the
    status filters of the manager: after [finish] the row is among the
    succeeded ones only, after [fail] among the failed ones only, and after
    [enqueue] among the scheduled ones only, whatever its status was; the
    rows of other tasks are yielded by a queryset after the call exactly when
    they were before. *)
Theorem status_follows_the_operations
    (self : Task) (p : Z) (row : Task) (w : World) :
  task_pk self = Some p -> p ≠ 0 ->
  tasks (store w) !! p = Some row ->
  (∀ user, ∃ t' w',
     Task_finish self user w = Ok t' w'
     ∧ yields (succeeded objects_all) (store w') p = true
     ∧ yields (not_succeeded objects_all) (store w') p = false
     ∧ yields (scheduled objects_all) (store w') p = false
     ∧ yields (failed objects_all) (store w') p = false
     ∧ ∀ qs q, q ≠ p -> yields qs (store w') q = yields qs (store w) q)
  ∧ (∀ tb, tb ≠ [] -> ∃ t' w',
       Task_fail self tb w = Ok t' w'
       ∧ yields (failed objects_all) (store w') p = true
       ∧ yields (not_succeeded objects_all) (store w') p = true
       ∧ yields (scheduled objects_all) (store w') p = false
       ∧ yields (succeeded objects_all) (store w') p = false
       ∧ ∀ qs q, q ≠ p -> yields qs (store w') q = yields qs (store w) q)
  ∧ (∀ countdown eta, ∃ t' w',
       Task_enqueue self countdown eta w = Ok t' w'
       ∧ yields (scheduled objects_all) (store w') p = true
       ∧ yields (not_succeeded objects_all) (store w') p = true
       ∧ yields (succeeded objects_all) (store w') p = false
       ∧ yields (failed objects_all) (store w') p = false
       ∧ ∀ qs q, q ≠ p -> yields qs (store w') q = yields qs (store w) q).
Proof.
  intros Hpk Hp Hrow. split; [|split].
  - intros user. eexists _, _.
    split; [apply (Task_finish_stored self user p row w Hpk Hp Hrow)|].
    cbn [store after_write]. rewrite !yields_set_task.
    rewrite !decide_True by reflexivity.
    repeat split. intros qs q Hq. rewrite yields_set_task.
    now rewrite decide_False by congruence.
  - intros tb Htb.
    destruct (last tb) as [line|] eqn:Hlast.
    2:{ apply last_None in Hlast. contradiction. }
    eexists _, _.
    split; [apply (Task_fail_stored self tb line p row w Hpk Hp Hrow Hlast)|].
    cbn [store after_write]. rewrite !yields_set_task.
    rewrite !decide_True by reflexivity.
    repeat split. intros qs q Hq. rewrite yields_set_task.
    now rewrite decide_False by congruence.
  - intros countdown eta. eexists _, _.
    split; [apply (Task_enqueue_stored self countdown eta p row w Hpk Hp Hrow)|].
    assert (∀ m w1, store (if in_atomic_block w then push_hook (HookApplyAsync m) w1
                           else send m w1) = store w1) as Hst.
    { intros m w1. now destruct (in_atomic_block w). }
    cbv zeta. rewrite Hst. cbn [store after_write]. rewrite !yields_set_task.
    rewrite !decide_True by reflexivity.
    repeat split. intros qs q Hq. rewrite yields_set_task.
    now rewrite decide_False by congruence.
Qed.

Lemma status_follows_the_operations_witness :
  (∃ t' w',
     Task_finish ship_row (Some 3) (idle sample_store 20) = Ok t' w'
     ∧ yields (succeeded objects_all) (store w') 1 = true
     ∧ yields (scheduled objects_all) (store w') 1 = false
     ∧ yields (scheduled objects_all) (store w') 2 = true)
  ∧ (∃ t' w',
       Task_fail ship_row sample_traceback (idle sample_store 20) = Ok t' w'
       ∧ yields (failed objects_all) (store w') 1 = true
       ∧ yields (scheduled objects_all) (store w') 1 = false).
Proof.
  destruct (status_follows_the_operations ship_row 1 ship_row (idle sample_store 20))
    as (Hfinish & Hfail & _); [reflexivity|lia|reflexivity|].
  split.
  - destruct (Hfinish (Some 3)) as (t' & w' & Hrun & Hs & _ & Hsch & _ & Hother).
    exists t', w'. split; [exact Hrun|]. split; [exact Hs|]. split; [exact Hsch|].
    rewrite Hother by lia. reflexivity.
  - destruct (Hfail sample_traceback) as (t' & w' & Hrun & Hf & _ & Hsch & _);
      [discriminate|].
    exists t', w'. split; [exact Hrun|]. split; [exact Hf|exact Hsch].
Defined.

(** ** Operations on a task that was never saved *)

(** X4.  [enqueue] and [fail] need a saved task.  On an instance without a
    key the save with [update_fields] raises [ValueError]: [enqueue] leaves
    the world as it was, so nothing is registered for the commit and nothing
    is handed to the queue, and [fail] writes nothing either. *)
Theorem enqueue_and_fail_need_a_saved_task (self : Task) (w : World) :
  task_pk self = None ->
  (∀ countdown eta, Task_enqueue self countdown eta w = Raise ValueError w)
  ∧ (∀ tb, tb ≠ [] -> Task_fail self tb w = Raise ValueError (tick w)).
Proof.
  intros Hpk. destruct self as [pk0 ? ? ? ? ? ? ? ? ? ? ?]. cbn in Hpk. subst pk0.
  split.
  - intros countdown eta. reflexivity.
  - intros tb Htb. unfold Task_fail.
    rewrite (bind_Ok _ _ w (clock w) (tick w)) by reflexivity.
    destruct (last tb) as [line|] eqn:Hlast; [reflexivity|].
    apply last_None in Hlast. contradiction.
Qed.

Lemma enqueue_and_fail_need_a_saved_task_witness :
  Task_enqueue draft_task None None (in_transaction sample_store 20)
  = Raise ValueError (in_transaction sample_store 20)
  ∧ Task_fail draft_task sample_traceback (idle sample_store 20)
    = Raise ValueError (idle sample_store 21).
Proof.
  destruct (enqueue_and_fail_need_a_saved_task draft_task
              (in_transaction sample_store 20) eq_refl) as [Henqueue _].
  destruct (enqueue_and_fail_need_a_saved_task draft_task
              (idle sample_store 20) eq_refl) as [_ Hfail].
  split; [apply Henqueue|]. apply Hfail. discriminate.
Defined.

Lemma Task_finish_unsaved self user pid ct proc w :
  task_pk self = None ->
  task_process_id self = Some pid -> task_content_type self = Some ct ->
  processes (store w) !! pid = Some proc ->
  Task_finish self user w
  = Ok (finished_new user self (clock w) (next_task_id (store w)))
       (after_write
          (put_task (next_task_id (store w))
             (finished_new user self (clock w) (next_task_id (store w))) (store w))
          (tick (tick (tick w)))).
Proof.
  intros Hpk Hpid Hct Hproc.
  destruct self as [pk0 pid0 ct0 ? ? ? ? ? ? ? ? ?]. cbn in Hpk, Hpid, Hct. subst.
  unfold Task_finish, Task_save, Model_save, insert_task, bind, timezone_now,
    get_store, write_store, ret.
  cbn. rewrite Hproc. reflexivity.
Qed.

(** X5.  [finish] on an instance without a key (the task a create view
    makes) saves it with an INSERT.  When the instance names a stored process
    and a content type, the call succeeds and the new row, under the next key
    of the sequence, is succeeded with [completed] and [completed_by_user]
    set; on a well-formed store no existing row is touched.  When the
    instance names no process or no content type, columns that are NOT NULL,
    the INSERT raises [IntegrityError] and the store is as before.  When it
    names a process that is not stored and the connection is in autocommit
    mode, the foreign key fails with the statement: [IntegrityError] again,
    and the store is as before. *)
Theorem finish_of_an_unsaved_task_inserts_it
    (self : Task) (user : option Z) (w : World) :
  task_pk self = None ->
  let k := next_task_id (store w) in
  (∀ pid ct proc,
     task_process_id self = Some pid -> task_content_type self = Some ct ->
     processes (store w) !! pid = Some proc ->
     ∃ t' w',
       Task_finish self user w = Ok t' w'
       ∧ t' = finished_new user self (clock w) k
       ∧ tasks (store w') !! k = Some t'
       ∧ task_status t' = SUCCEEDED ∧ task_completed t' = Some (clock w)
       ∧ task_completed_by_user t' = user ∧ task_pk t' = Some k
       ∧ (∀ q, q ≠ k -> tasks (store w') !! q = tasks (store w) !! q)
       ∧ (store_wf (store w) -> tasks (store w) !! k = None ∧ store_wf (store w')))
  ∧ (task_process_id self = None ∨ task_content_type self = None ->
     ∃ w', Task_finish self user w = Raise IntegrityError w'
           ∧ store w' = store w ∧ committed w' = committed w)
  ∧ (in_atomic_block w = false ->
     (∃ pid, task_process_id self = Some pid ∧ processes (store w) !! pid = None) ->
     ∃ w', Task_finish self user w = Raise IntegrityError w'
           ∧ store w' = store w ∧ committed w' = committed w).
Proof.
  intros Hpk k.
  assert ((task_process_id self = None ∨ task_content_type self = None
           ∨ ∃ pid, task_process_id self = Some pid ∧ processes (store w) !! pid = None) ->
          ∃ w', Task_finish self user w = Raise IntegrityError w'
                ∧ store w' = store w ∧ committed w' = committed w) as Hraise.
  { intros Hbad.
    destruct self as [pk0 pid0 ct0 ? ? ? ? ? ? ? ? ?]. cbn in Hpk, Hbad. subst pk0.
    unfold Task_finish, Task_save, Model_save, insert_task, bind, timezone_now,
      get_store, write_store, ret, raise.
    cbn.
    destruct pid0 as [pid|]; [|eexists; now repeat split].
    destruct ct0 as [ct|]; [|eexists; now repeat split].
    destruct (processes (store w) !! pid) as [proc|] eqn:Hproc;
      [|eexists; now repeat split].
    exfalso. destruct Hbad as [H|[H|(pid' & H & Hnone)]]; try discriminate.
    injection H as <-. congruence. }
  split; [|split].
  - intros pid ct proc Hpid Hct Hproc. eexists _, _.
    split; [apply (Task_finish_unsaved self user pid ct proc w); assumption|].
    split; [reflexivity|]. cbn [store after_write put_task tasks].
    split; [apply lookup_insert_eq|].
    split; [reflexivity|]. split; [reflexivity|]. split; [reflexivity|].
    split; [reflexivity|]. split.
    + intros q Hq. now apply lookup_insert_ne.
    + intros Hwf. split; [now apply store_wf_fresh|].
      now apply (store_wf_put_fresh (store w)).
  - intros [H|H]; apply Hraise; auto.
  - intros _ H. apply Hraise. auto.
Qed.

Lemma finish_of_an_unsaved_task_inserts_it_witness :
  (∃ t' w',
     Task_finish draft_task (Some 3) (idle sample_store 20) = Ok t' w'
     ∧ t' = mkTask (Some 3) (Some 1) (Some 7) "start" HUMAN SUCCEEDED (Some 3)
              (Some 21) (Some 22) (Some 20) "" ""
     ∧ tasks (store w') !! 3 = Some t'
     ∧ tasks (store w') !! 1 = Some ship_row)
  ∧ (∃ w', Task_finish (set_node_name "start" new_Task) None (idle sample_store 20)
           = Raise IntegrityError w'
           ∧ store w' = sample_store)
  ∧ (∃ w', Task_finish (set_process_id (Some 9) draft_task) None (idle sample_store 20)
           = Raise IntegrityError w'
           ∧ store w' = sample_store).
Proof.
  destruct (finish_of_an_unsaved_task_inserts_it draft_task (Some 3)
              (idle sample_store 20) eq_refl) as [Hok _].
  destruct (finish_of_an_unsaved_task_inserts_it (set_node_name "start" new_Task) None
              (idle sample_store 20) eq_refl) as (_ & Hnull & _).
  destruct (finish_of_an_unsaved_task_inserts_it (set_process_id (Some 9) draft_task)
              None (idle sample_store 20) eq_refl) as (_ & _ & Hmissing).
  split; [|split].
  - destruct (Hok 1 7 order_row eq_refl eq_refl eq_refl)
      as (t' & w' & Hrun & Ht' & Hrow & _ & _ & _ & _ & Hother & _).
    exists t', w'. split; [exact Hrun|]. split; [exact Ht'|]. split; [exact Hrow|].
    rewrite Hother by (cbn; lia). reflexivity.
  - destruct Hnull as (w' & Hrun & Hs & _); [now left|].
    exists w'. split; [exact Hrun|exact Hs].
  - destruct Hmissing as (w' & Hrun & Hs & _); [reflexivity|exists 9; now split|].
    exists w'. split; [exact Hrun|exact Hs].
Defined.

(** ** Saving with an empty list of fields *)

(** X6.  [save(update_fields=[])] is no no-op on a stored record: both
    [save] methods append ['modified'] to the list before the base save sees
    it, so the [modified] column of the row, and only that column, is
    rewritten with the current time.  On an instance without a key the list
    stays empty and the base save returns without writing anything: the
    instance is not inserted. *)
Theorem save_with_no_fields_stamps_modified (w : World) :
  (∀ self p row,
     task_pk self = Some p -> p ≠ 0 -> tasks (store w) !! p = Some row ->
     Task_save self (Some []) w
     = Ok (set_modified (Some (clock w)) self)
          (after_write (set_task p (set_modified (Some (clock w)) row) (store w))
             (tick w)))
  ∧ (∀ self p row,
       process_pk self = Some p -> p ≠ 0 -> processes (store w) !! p = Some row ->
       Process_save self (Some []) w
       = Ok (stamp_process self (clock w))
            (after_write (set_process p (stamp_process row (clock w)) (store w))
               (tick w)))
  ∧ (∀ self, task_pk self = None -> Task_save self (Some []) w = Ok self w)
  ∧ (∀ self, process_pk self = None -> Process_save self (Some []) w = Ok self w).
Proof.
  split; [|split; [|split]].
  - intros self p row Hpk Hp Hrow.
    destruct self as [pk0 ? ? ? ? ? ? ? ? ? ? ?]. cbn in Hpk. subst pk0.
    unfold Task_save. cbn [task_pk]. rewrite (truthy_Some _ Hp).
    unfold Model_save, bind, timezone_now, get_store, write_store, ret.
    cbn. rewrite Hrow. reflexivity.
  - intros self p row Hpk Hp Hrow.
    destruct self as [pk0 ? ? ?]. cbn in Hpk. subst pk0.
    unfold Process_save. cbn [process_pk]. rewrite (truthy_Some _ Hp).
    unfold Model_save_process, bind, timezone_now, get_store, write_store, ret.
    cbn. rewrite Hrow. reflexivity.
  - intros self Hpk. unfold Task_save. now rewrite Hpk.
  - intros self Hpk. unfold Process_save. now rewrite Hpk.
Qed.

Lemma save_with_no_fields_stamps_modified_witness :
  Task_save (set_status FAILED ship_row) (Some []) (idle sample_store 20)
  = Ok (set_modified (Some 20) (set_status FAILED ship_row))
       (idle (set_task 1 (set_modified (Some 20) ship_row) sample_store) 21)
  ∧ Task_save draft_task (Some []) (idle sample_store 20)
    = Ok draft_task (idle sample_store 20).
Proof.
  destruct (save_with_no_fields_stamps_modified (idle sample_store 20))
    as (Hstored & _ & Hnew & _).
  split.
  - apply (Hstored (set_status FAILED ship_row) 1 ship_row); [reflexivity|lia|reflexivity].
  - apply Hnew. reflexivity.
Defined.

(** ** The nodes of a process class *)

Lemma set_add_keeps n m nodes : m ∈ nodes -> m ∈ set_add n nodes.
Proof.
  intros Hm. unfold set_add. destruct (existsb _ nodes); [assumption|].
  apply elem_of_app. now left.
Qed.

Lemma set_add_has n nodes :
  ∃ m, m ∈ set_add n nodes ∧ node_name m = node_name n.
Proof.
  unfold set_add.
  destruct (existsb (fun m => String.eqb (node_name m) (node_name n)) nodes) eqn:E.
  - apply existsb_exists in E as (m & Hin & Heq). apply String.eqb_eq in Heq.
    exists m. split; [now apply list_elem_of_In|assumption].
  - exists n. split; [|reflexivity]. apply elem_of_app. right. now left.
Qed.

Lemma node_set_complete cls a b :
  (a, b) ∈ edges cls ->
  (∃ m, m ∈ node_set cls ∧ node_name m = node_name a)
  ∧ (∃ m, m ∈ node_set cls ∧ node_name m = node_name b).
Proof.
  unfold node_set.
  assert (∀ es acc m, m ∈ acc ->
            m ∈ fold_left
              (fun nodes (edge : Node * Node) => set_add edge.2 (set_add edge.1 nodes))
              es acc) as Hkeep.
  { induction es as [|e es IH]; intros acc m Hm; cbn; [assumption|].
    apply IH. now do 2 apply set_add_keeps. }
  assert (∀ es acc, (a, b) ∈ es ->
            (∃ m, m ∈ fold_left
                (fun nodes (edge : Node * Node) => set_add edge.2 (set_add edge.1 nodes))
                es acc ∧ node_name m = node_name a)
            ∧ (∃ m, m ∈ fold_left
                (fun nodes (edge : Node * Node) => set_add edge.2 (set_add edge.1 nodes))
                es acc ∧ node_name m = node_name b)) as H.
  { induction es as [|e es IH]; intros acc Hin; [now apply elem_of_nil in Hin|].
    apply elem_of_cons in Hin as [<-|Hin]; [|now apply IH].
    cbn. split.
    - destruct (set_add_has a acc) as (m & Hm & Hname).
      exists m. split; [|assumption]. apply Hkeep. now apply set_add_keeps.
    - destruct (set_add_has b (set_add a acc)) as (m & Hm & Hname).
      exists m. split; [|assumption]. now apply Hkeep. }
  apply H.
Qed.

Lemma node_set_unique cls n m :
  n ∈ node_set cls -> m ∈ node_set cls -> node_name n = node_name m -> n = m.
Proof.
  intros Hn Hm Hname. pose proof (node_set_names cls) as Hnd.
  apply list_elem_of_lookup in Hn as [i Hi].
  apply list_elem_of_lookup in Hm as [j Hj].
  assert (i = j) as ->; [|congruence].
  apply (NoDup_lookup _ i j (node_name n) Hnd).
  - rewrite list_lookup_fmap, Hi. reflexivity.
  - rewrite list_lookup_fmap, Hj. cbn. congruence.
Qed.

Lemma get_nodes_names cls : (get_nodes cls).*1 = node_name <$> node_set cls.
Proof.
  unfold get_nodes. rewrite <- list_fmap_compose. reflexivity.
Qed.

Lemma dict_get_node_set cls n :
  n ∈ node_set cls -> dict_get (get_nodes cls) (node_name n) = Some n.
Proof.
  intros Hn. unfold dict_get.
  destruct (find (fun p : string * Node => String.eqb p.1 (node_name n))
              (reverse (get_nodes cls))) as [[name m]|] eqn:E.
  - apply find_some in E as [Hin Heq]. cbn in Heq. apply String.eqb_eq in Heq.
    apply list_elem_of_In, elem_of_reverse, list_elem_of_fmap in Hin as (m' & Hm' & Hin).
    injection Hm' as -> ->. cbn. f_equal. symmetry. now apply (node_set_unique cls).
  - exfalso.
    pose proof (find_none _ _ E (node_name n, n)) as Hnone. cbn in Hnone.
    rewrite String.eqb_refl in Hnone.
    assert (In (node_name n, n) (reverse (get_nodes cls))) as Hin; [|now apply Hnone in Hin].
    apply list_elem_of_In, elem_of_reverse, list_elem_of_fmap. now exists n.
Qed.

Lemma dict_get_None cls name :
  (∀ n, n ∈ node_set cls -> node_name n ≠ name) ->
  dict_get (get_nodes cls) name = None.
Proof.
  intros Hno. destruct (dict_get (get_nodes cls) name) as [n|] eqn:E; [|reflexivity].
  apply dict_get_node in E as [Hin Hname]. now destruct (Hno n Hin).
Qed.

(** X7.  [get_nodes] enumerates the nodes of the graph: every node that is
    the start or the end of an edge is listed under its name, nothing else is
    listed, and no name is listed twice, however often a node occurs in
    [edges]. *)
Theorem get_nodes_enumerates_the_graph (cls : ProcessClass) :
  NoDup (get_nodes cls).*1
  ∧ (∀ name n, (name, n) ∈ get_nodes cls ->
       name = node_name n ∧ ∃ a b, (a, b) ∈ edges cls ∧ (n = a ∨ n = b))
  ∧ (∀ a b, (a, b) ∈ edges cls ->
       node_name a ∈ (get_nodes cls).*1 ∧ node_name b ∈ (get_nodes cls).*1).
Proof.
  split; [|split].
  - rewrite get_nodes_names. apply node_set_names.
  - intros name n Hin. unfold get_nodes in Hin.
    apply list_elem_of_fmap in Hin as (m & Heq & Hm). injection Heq as -> ->.
    split; [reflexivity|]. now apply node_set_edges.
  - intros a b Hin. rewrite get_nodes_names.
    destruct (node_set_complete cls a b Hin) as [(m & Hm & Hma) (m' & Hm' & Hmb)].
    split; apply list_elem_of_fmap; [exists m|exists m']; now split.
Qed.

(** ** The choices of the override form *)

Lemma dict_keys_fold {A} (pairs : list (string * A)) (acc : list string) :
  NoDup (acc ++ pairs.*1) ->
  fold_left (fun keys (item : string * A) =>
               if existsb (String.eqb item.1) keys then keys else keys ++ [item.1])
    pairs acc
  = acc ++ pairs.*1.
Proof.
  revert acc. induction pairs as [|[k v] pairs IH]; intros acc Hnd; cbn.
  - now rewrite app_nil_r.
  - cbn in Hnd.
    assert (existsb (String.eqb k) acc = false) as E.
    { destruct (existsb (String.eqb k) acc) eqn:E; [|reflexivity].
      apply existsb_exists in E as (k' & Hin & Heq). apply String.eqb_eq in Heq.
      subst k'. apply NoDup_app in Hnd as (_ & Hdis & _).
      exfalso. apply (Hdis k); [now apply list_elem_of_In|now left]. }
    rewrite E. rewrite IH.
    + now rewrite <- app_assoc.
    + rewrite <- app_assoc. exact Hnd.
Qed.

Lemma get_task_choices_eq cls :
  get_task_choices cls = (fun n => (node_name n, node_name n)) <$> node_set cls.
Proof.
  unfold get_task_choices, dict_keys.
  rewrite dict_keys_fold.
  - cbn. rewrite get_nodes_names. rewrite <- list_fmap_compose. reflexivity.
  - cbn. rewrite get_nodes_names. apply node_set_names.
Qed.

(** X8.  The override form offers what [get_node] resolves.  The choices
    are the node names of the class, each once, as value and as label; every
    offered value is resolved by [get_node] to the node of that name; and a
    name that is not offered makes [get_node] raise [KeyError].  So the
    look-ups of [get_next_task_nodes] succeed on every list of values the
    form accepts. *)
Theorem override_choices_are_the_node_names (cls : ProcessClass) (w : World) :
  NoDup (get_task_choices cls)
  ∧ (get_task_choices cls).*1 = (get_nodes cls).*1
  ∧ (∀ value label, (value, label) ∈ get_task_choices cls ->
       label = value
       ∧ ∃ n, get_node cls value w = Ok n w
              ∧ node_name n = value ∧ (value, n) ∈ get_nodes cls)
  ∧ (∀ name, (name, name) ∉ get_task_choices cls ->
       get_node cls name w = Raise KeyError w)
  ∧ (∀ names, Forall (fun name => (name, name) ∈ get_task_choices cls) names ->
       Forall (fun item : M Node => ∃ n, item w = Ok n w)
         (get_next_task_nodes cls names)).
Proof.
  assert (∀ value label, (value, label) ∈ get_task_choices cls ->
            label = value
            ∧ ∃ n, get_node cls value w = Ok n w
                   ∧ node_name n = value ∧ (value, n) ∈ get_nodes cls) as Hres.
  { intros value label Hin. rewrite get_task_choices_eq in Hin.
    apply list_elem_of_fmap in Hin as (n & Heq & Hn). injection Heq as -> ->.
    split; [reflexivity|]. exists n. unfold get_node.
    rewrite (dict_get_node_set cls n Hn). split; [reflexivity|].
    split; [reflexivity|]. unfold get_nodes. apply list_elem_of_fmap. now exists n. }
  split; [|split; [|split; [assumption|split]]].
  - rewrite get_task_choices_eq.
    apply (NoDup_fmap_1 fst). rewrite <- list_fmap_compose.
    exact (node_set_names cls).
  - rewrite get_task_choices_eq, get_nodes_names.
    rewrite <- list_fmap_compose. reflexivity.
  - intros name Hno. unfold get_node. rewrite dict_get_None; [reflexivity|].
    intros n Hn Hname. apply Hno. rewrite get_task_choices_eq.
    apply list_elem_of_fmap. exists n. split; [now rewrite Hname|assumption].
  - intros names Hnames. unfold get_next_task_nodes.
    apply Forall_fmap. eapply Forall_impl; [exact Hnames|].
    intros name Hin. cbn. destruct (Hres name name Hin) as (_ & n & Hn & _). eauto.
Qed.

(** ** The node of a task *)

Lemma rollback_enter w : rollback w (enter_atomic w) = w.
Proof. now destruct w. Qed.

(** X9.  [Task.node] looks the node name of the task up on the class of its
    process.  For a task of a stored process whose node name is the name of a
    node that occurs in [edges], as start or as end, it returns the node of
    that name, the one [get_nodes] lists.  A task without process cannot start
    tasks: [start_next_tasks] without [next_nodes] raises [AttributeError]
    (its first step is an attribute of [self.process], which is [None]) and
    leaves the world as it was. *)
Theorem Task_node_resolves_the_names_of_the_graph
    (cls : ProcessClass) (self : Task) (w : World) :
  (has_process self w ->
   ∀ a b, (a, b) ∈ edges cls ->
     task_node_name self = node_name a ∨ task_node_name self = node_name b ->
     ∃ n, Task_node cls self w = Ok n w
          ∧ node_name n = task_node_name self
          ∧ (task_node_name self, n) ∈ get_nodes cls)
  ∧ (Task_process self w = Ok None w ->
     start_next_tasks cls self None w = Raise AttributeError w).
Proof.
  split.
  - intros Hp a b Hin Hname.
    apply process_of_has_process in Hp as [proc Hproc].
    assert (∃ n, n ∈ node_set cls ∧ node_name n = task_node_name self) as (n & Hn & Hnn).
    { destruct (node_set_complete cls a b Hin) as [(m & Hm & Hma) (m' & Hm' & Hmb)].
      destruct Hname as [->| ->]; eauto. }
    exists n. split; [|split; [assumption|]].
    + unfold Task_node. rewrite (bind_Ok _ _ _ _ _ Hproc).
      unfold getattr_node. rewrite <- Hnn. now rewrite (dict_get_node_set cls n Hn).
    + unfold get_nodes. apply list_elem_of_fmap. exists n. now rewrite Hnn.
  - intros Hnone.
    assert (process_of self (enter_atomic w) = Raise AttributeError (enter_atomic w))
      as Hproc.
    { unfold process_of, Task_process, bind, get_store, ret in Hnone |- *.
      cbn [store enter_atomic].
      destruct (task_content_type self), (task_process_id self);
        try reflexivity.
      destruct (processes (store w) !! _); [discriminate|reflexivity]. }
    unfold start_next_tasks, atomic.
    rewrite (bind_Raise _ _ _ AttributeError (enter_atomic w)).
    + now rewrite rollback_enter.
    + now apply bind_Raise.
Qed.

Lemma Task_node_resolves_the_names_of_the_graph_witness :
  (∃ n, Task_node Order review_row (idle sample_store 20) = Ok n (idle sample_store 20)
        ∧ node_name n = "review")
  ∧ start_next_tasks Order (set_node_name "start" new_Task) None (idle sample_store 20)
    = Raise AttributeError (idle sample_store 20).
Proof.
  destruct (Task_node_resolves_the_names_of_the_graph Order review_row
              (idle sample_store 20)) as (Hknown & _).
  destruct (Task_node_resolves_the_names_of_the_graph Order
              (set_node_name "start" new_Task) (idle sample_store 20))
    as (_ & Hnew).
  split.
  - destruct (Hknown (sample_has_process review_row eq_refl eq_refl) start review)
      as (n & Hn & Hname & _).
    + apply list_elem_of_In. cbn. auto.
    + now right.
    + exists n. split; [exact Hn|exact Hname].
  - apply Hnew. reflexivity.
Defined.

(** ** The graph handed to graphviz *)

Lemma get_graph_eq cls color :
  get_graph cls color
  = [ GraphAttr "graph" [ ("rankdir", "LR") ];
      GraphAttr "node" [ ("fontname", "sans-serif"); ("shape", "rect");
                         ("style", "filled"); ("fillcolor", "white") ] ]
    ++ (node_statement color <$> node_set cls)
    ++ (edge_statement <$> edges cls).
Proof.
  unfold get_graph, get_nodes.
  set (head := [ GraphAttr "graph" _; GraphAttr "node" _ ]).
  assert (∀ (es : list (Node * Node)) acc,
            fold_left (fun graph (e : Node * Node) =>
                         graph ++ [ GraphEdge (node_name e.1) (node_name e.2) [] ])
              es acc
            = acc ++ (edge_statement <$> es)) as Hedges.
  { induction es as [|e es IH]; intros acc; cbn; [now rewrite app_nil_r|].
    rewrite IH. now rewrite <- app_assoc. }
  assert (∀ (ns : list Node) acc,
            fold_left (fun graph (item : string * Node) =>
              let (name, node) := item in
              let node_style := "filled" in
              let node_style :=
                if String.eqb (node_type node) HUMAN then node_style +:+ ", rounded"
                else node_style in
              graph ++ [ GraphNode name
                           [ ("style", node_style); ("color", color);
                             ("fontcolor", color) ] ])
              ((fun n => (node_name n, n)) <$> ns) acc
            = acc ++ (node_statement color <$> ns)) as Hnodes.
  { induction ns as [|n ns IH]; intros acc; cbn; [now rewrite app_nil_r|].
    rewrite IH. rewrite <- app_assoc. cbn. do 2 f_equal.
    unfold node_statement, node_type. now destruct (is_task_view n). }
  rewrite Hedges, Hnodes. now rewrite <- app_assoc.
Qed.

(** X12.  The graph of a process class has one node statement per node of
    the class, with style [filled, rounded] for a human node and [filled] for
    a machine node, in the given colour, and one edge statement per edge, in
    the order of [edges].  No edge dangles: both ends of every edge statement
    are names that have a node statement; and no name has two node
    statements. *)
Theorem get_graph_draws_every_node_once (cls : ProcessClass) (color : string) :
  let graph := get_graph cls color in
  (∀ n, n ∈ node_set cls -> node_statement color n ∈ graph)
  ∧ omap (fun st => match st with
                    | GraphEdge a b _ => Some (a, b)
                    | _ => None
                    end) graph
    = (fun e : Node * Node => (node_name e.1, node_name e.2)) <$> edges cls
  ∧ (∀ a b attrs, GraphEdge a b attrs ∈ graph ->
       (∃ attrs', GraphNode a attrs' ∈ graph) ∧ (∃ attrs', GraphNode b attrs' ∈ graph))
  ∧ (∀ name attrs attrs', GraphNode name attrs ∈ graph ->
       GraphNode name attrs' ∈ graph -> attrs = attrs')
  ∧ (∀ name attrs, GraphNode name attrs ∈ graph ->
       ∃ n, (name, n) ∈ get_nodes cls
            ∧ attrs = [ ("style", if is_task_view n then "filled, rounded" else "filled");
                        ("color", color); ("fontcolor", color) ]).
Proof.
  intros graph. unfold graph. rewrite get_graph_eq.
  set (head := [ GraphAttr "graph" _; GraphAttr "node" _ ]).
  assert (∀ name attrs,
            GraphNode name attrs
              ∈ head ++ (node_statement color <$> node_set cls)
                  ++ (edge_statement <$> edges cls) ->
            ∃ n, n ∈ node_set cls ∧ GraphNode name attrs = node_statement color n)
    as Hnode.
  { intros name attrs Hin. apply elem_of_app in Hin as [Hin|Hin].
    - apply elem_of_cons in Hin as [Hin|Hin]; [discriminate|].
      apply list_elem_of_singleton in Hin. discriminate.
    - apply elem_of_app in Hin as [Hin|Hin].
      + apply list_elem_of_fmap in Hin as (n & Heq & Hn). eauto.
      + apply list_elem_of_fmap in Hin as (e & Heq & _). discriminate. }
  assert (∀ n, n ∈ node_set cls ->
            node_statement color n
              ∈ head ++ (node_statement color <$> node_set cls)
                  ++ (edge_statement <$> edges cls)) as Hdrawn.
  { intros n Hn. apply elem_of_app. right. apply elem_of_app. left.
    apply list_elem_of_fmap. now exists n. }
  split; [exact Hdrawn|]. split; [|split; [|split]].
  - rewrite !omap_app. cbn [head omap].
    assert (∀ ns, omap (fun st => match st with
                                  | GraphEdge a b _ => Some (a, b)
                                  | _ => None
                                  end) (node_statement color <$> ns) = []) as Hn.
    { induction ns as [|n ns IH]; [reflexivity|exact IH]. }
    rewrite Hn. cbn.
    assert (∀ es : list (Node * Node), omap (fun st => match st with
                                  | GraphEdge a b _ => Some (a, b)
                                  | _ => None
                                  end) (edge_statement <$> es)
                  = (fun e : Node * Node => (node_name e.1, node_name e.2)) <$> es) as He.
    { induction es as [|e es IH]; [reflexivity|]. cbn. f_equal. exact IH. }
    apply He.
  - intros a b attrs Hin.
    assert (∃ e, e ∈ edges cls ∧ a = node_name e.1 ∧ b = node_name e.2)
      as ([ea eb] & He & -> & ->).
    { apply elem_of_app in Hin as [Hin|Hin].
      - apply elem_of_cons in Hin as [Hin|Hin]; [discriminate|].
        apply list_elem_of_singleton in Hin. discriminate.
      - apply elem_of_app in Hin as [Hin|Hin].
        + apply list_elem_of_fmap in Hin as (n & Heq & _). discriminate.
        + apply list_elem_of_fmap in Hin as (e & Heq & He). injection Heq as -> -> _.
          eauto. }
    cbn. destruct (node_set_complete cls ea eb He) as [(m & Hm & Hma) (m' & Hm' & Hmb)].
    split; eexists.
    + rewrite <- Hma. apply (Hdrawn m Hm).
    + rewrite <- Hmb. apply (Hdrawn m' Hm').
  - intros name attrs attrs' H1 H2.
    apply Hnode in H1 as (n & Hn & E1). apply Hnode in H2 as (m & Hm & E2).
    injection E1 as -> ->. injection E2 as Hname ->.
    now rewrite (node_set_unique cls n m Hn Hm Hname).
  - intros name attrs Hin. apply Hnode in Hin as (n & Hn & E).
    injection E as -> ->. exists n. split; [|reflexivity].
    unfold get_nodes. apply list_elem_of_fmap. now exists n.
Qed.

(** ** Reversing the routes of a process class *)

Lemma append_eqb a x y : String.eqb (a +:+ x) (a +:+ y) = String.eqb x y.
Proof.
  destruct (String.eqb_spec x y) as [->|Hne]; [apply String.eqb_refl|].
  apply String.eqb_neq. intros H. apply Hne.
  induction a as [|c a IH]; [exact H|]. injection H as H. now apply IH.
Qed.

Lemma append_nil x : "" +:+ x = x.
Proof. reflexivity. Qed.

Lemma append_cons c a x : String c a +:+ x = String c (a +:+ x).
Proof. reflexivity. Qed.

Lemma append_nil_r x : x +:+ "" = x.
Proof. induction x as [|c x IH]; [reflexivity|]. rewrite append_cons. now rewrite IH. Qed.

Lemma append_assoc a b c : (a +:+ b) +:+ c = a +:+ b +:+ c.
Proof.
  induction a as [|x a IH]; [reflexivity|]. rewrite !append_cons. now rewrite IH.
Qed.

Lemma parse_route_plain name rest cur :
  has_char "<" name = false ->
  parse_route (name +:+ rest) cur false = parse_route rest (cur +:+ name) false.
Proof.
  revert cur. induction name as [|c name IH]; intros cur Hname.
  - now rewrite append_nil, append_nil_r.
  - cbn [has_char] in Hname. apply orb_false_iff in Hname as [Hc Hname].
    rewrite append_cons. cbn [parse_route]. rewrite Hc.
    rewrite IH by assumption. now rewrite append_assoc.
Qed.

Lemma parse_node_route name :
  has_char "<" name = false ->
  parse_route (name +:+ "/<pk>/") "" false = [ Lit (name +:+ "/"); Param "pk"; Lit "/" ]
  ∧ parse_route (name +:+ "/") "" false = [ Lit (name +:+ "/") ].
Proof.
  intros Hname. rewrite !parse_route_plain by assumption. split; reflexivity.
Qed.

Lemma node_route_answers n :
  has_char "<" (node_name n) = false ->
  (answers (node_name n) (node_route n) ↔ is_create_view n = false)
  ∧ ∀ pk, is_create_view n = false ->
      fill_route (route (node_route n)) pk
      = node_name n +:+ "/" +:+ pk_text pk +:+ "/".
Proof.
  intros Hname. destruct (parse_node_route _ Hname) as [Hpk Hcreate].
  unfold answers, node_route, route_params, fill_route.
  destruct (is_create_view n); cbn [route url_name].
  - split; [|discriminate]. rewrite Hcreate. split; [|discriminate].
    intros [_ H]. discriminate.
  - rewrite Hpk. split; [now split|]. intros pk _.
    cbn [fmap list_fmap String.concat]. rewrite !append_nil.
    now rewrite append_assoc.
Qed.

Lemma fits_answers name pat : fits name pat = true ↔ answers name pat.
Proof.
  unfold fits, answers.
  now rewrite andb_true_iff, String.eqb_eq, bool_decide_eq_true.
Qed.

Lemma find_fits name pats : find (fits name) pats = head (filter (answers name) pats).
Proof.
  induction pats as [|pat pats IH]; [reflexivity|]. cbn [find]. rewrite filter_cons.
  destruct (fits name pat) eqn:E.
  - rewrite decide_True by now apply fits_answers. reflexivity.
  - rewrite decide_False; [exact IH|]. intros H. apply fits_answers in H. congruence.
Qed.

Lemma split_colon_plain s : has_char ":" s = false -> split_colon s = [s].
Proof.
  induction s as [|c s IH]; intros H; [reflexivity|].
  cbn [has_char] in H. apply orb_false_iff in H as [Hc H].
  cbn [split_colon]. now rewrite Hc, (IH H).
Qed.

Lemma split_colon_namespaced ns name :
  has_char ":" ns = false -> has_char ":" name = false ->
  split_colon (ns +:+ ":" +:+ name) = [ns; name].
Proof.
  intros Hns Hname. induction ns as [|c ns IH].
  - rewrite append_nil. change (":" +:+ name) with (String ":" name).
    cbn [split_colon]. change (Ascii.eqb ":" ":") with true. cbv iota.
    now rewrite split_colon_plain.
  - cbn [has_char] in Hns. apply orb_false_iff in Hns as [Hc Hns].
    rewrite append_cons. cbn [split_colon]. now rewrite Hc, (IH Hns).
Qed.

Lemma find_namespace pre inc post ns :
  (∀ i, i ∈ pre -> inc_namespace i ≠ ns) -> inc_namespace inc = ns ->
  find (fun i => String.eqb (inc_namespace i) ns) (pre ++ inc :: post) = Some inc.
Proof.
  intros Hpre Hinc. induction pre as [|i pre IH]; cbn [app find].
  - now rewrite (proj2 (String.eqb_eq _ _) Hinc).
  - rewrite (proj2 (String.eqb_neq _ _)) by (apply Hpre; now left).
    apply IH. intros i' Hi'. apply Hpre. now right.
Qed.

(** The reversal of a name in the namespace of a class whose routes are the
    first entry that carries the namespace: the last of its patterns that
    answers. *)
Lemma reverse_url_include pre prefix cls post name pk w :
  has_char ":" (get_url_namespace cls) = false ->
  has_char ":" name = false ->
  (∀ inc, inc ∈ pre -> inc_namespace inc ≠ get_url_namespace cls) ->
  reverse_url (pre ++ include_urls prefix cls :: post)
    (get_url_namespace cls +:+ ":" +:+ name) pk w
  = match last (filter (answers name) (urls cls).1) with
    | Some pat => Ok ("/" +:+ prefix +:+ fill_route (route pat) pk) w
    | None => Raise NoReverseMatch w
    end.
Proof.
  intros Hns Hname Hpre. unfold reverse_url.
  rewrite split_colon_namespaced by assumption.
  rewrite (find_namespace pre (include_urls prefix cls) post) by (assumption || reflexivity).
  cbn [include_urls inc_patterns inc_prefix].
  rewrite find_fits, filter_reverse, head_reverse.
  now destruct (last _).
Qed.

Lemma is_name_has_char c s :
  all_chars is_name_char s = true -> is_name_char c = false -> has_char c s = false.
Proof.
  intros Hs Hc. induction s as [|c' s IH]; [reflexivity|].
  cbn [all_chars] in Hs. apply andb_true_iff in Hs as [Hc' Hs].
  cbn [has_char]. rewrite (IH Hs), orb_false_r.
  destruct (Ascii.eqb_spec c' c) as [->|]; [congruence|reflexivity].
Qed.

Lemma is_name_plain s :
  is_name s = true -> has_char "<" s = false ∧ has_char ":" s = false.
Proof.
  intros Hs. assert (all_chars is_name_char s = true) as Hall by now destruct s.
  split; now apply is_name_has_char.
Qed.

Lemma filter_node_routes_none name (hs : list Node) :
  (∀ h, h ∈ hs -> node_name h ≠ name) ->
  filter (answers name) (node_route <$> hs) = [].
Proof.
  induction hs as [|h hs IH]; intros Hno; [reflexivity|].
  cbn [fmap list_fmap]. rewrite filter_cons.
  rewrite decide_False.
  - apply IH. intros h' Hh'. apply Hno. now right.
  - intros [Hname _]. apply (Hno h); [now left|exact Hname].
Qed.

Lemma filter_node_routes n (hs : list Node) :
  NoDup (node_name <$> hs) -> n ∈ hs ->
  has_char "<" (node_name n) = false ->
  filter (answers (node_name n)) (node_route <$> hs)
  = if is_create_view n then [] else [node_route n].
Proof.
  intros Hnd Hn Hname.
  destruct (node_route_answers n Hname) as [Hans _].
  induction hs as [|h hs IH]; [now apply elem_of_nil in Hn|].
  cbn [fmap list_fmap] in Hnd |- *. apply NoDup_cons in Hnd as [Hh Hnd].
  rewrite filter_cons. apply elem_of_cons in Hn as [<-|Hn].
  - rewrite filter_node_routes_none.
    + destruct (is_create_view n) eqn:Hc.
      * rewrite decide_False; [reflexivity|]. intros H. apply Hans in H. discriminate.
      * rewrite decide_True; [reflexivity|]. now apply Hans.
    + intros h' Hh' Heq. apply Hh. rewrite <- Heq.
      apply list_elem_of_fmap. now exists h'.
  - rewrite decide_False.
    + now apply IH.
    + intros [Heq _]. apply Hh. cbn in Heq. rewrite Heq.
      apply list_elem_of_fmap. now exists n.
Qed.

Lemma humans_names cls :
  NoDup (node_name <$> filter (fun n => is_task_view n = true) (node_set cls)).
Proof.
  pose proof (node_set_names cls) as Hnd.
  induction (node_set cls) as [|n ns IH]; [constructor|].
  cbn in Hnd. apply NoDup_cons in Hnd as [Hn Hnd]. rewrite filter_cons.
  destruct (decide (is_task_view n = true)); [|now apply IH].
  cbn. apply NoDup_cons. split; [|now apply IH].
  intros Hin. apply Hn. apply list_elem_of_fmap in Hin as (m & Hm & Hin).
  apply list_elem_of_filter in Hin as [_ Hin]. apply list_elem_of_fmap. now exists m.
Qed.

(** The patterns of a class that answer the reversal of a node name which
    is not the name of one of the two process views. *)
Lemma node_candidates cls n :
  n ∈ node_set cls ->
  node_name n ≠ "detail" -> node_name n ≠ "override" ->
  has_char "<" (node_name n) = false ->
  filter (answers (node_name n)) (urls cls).1
  = if is_task_view n && negb (is_create_view n) then [node_route n] else [].
Proof.
  intros Hn Hdetail Hoverride Hname.
  rewrite urls_eq, filter_app.
  assert (filter (answers (node_name n)) [detail_route; override_route] = []) as ->.
  { rewrite !filter_cons, filter_nil.
    rewrite !decide_False; [reflexivity| |]; intros [H _]; cbn in H; congruence. }
  rewrite app_nil_r.
  destruct (is_task_view n) eqn:Hv; cbn [andb].
  - rewrite filter_node_routes; try assumption.
    + now destruct (is_create_view n).
    + apply humans_names.
    + apply list_elem_of_filter. now split.
  - rewrite filter_node_routes_none; [reflexivity|].
    intros h Hh Heq. apply list_elem_of_filter in Hh as [Hhv Hh].
    pose proof (node_set_names cls) as Hnd.
    apply list_elem_of_lookup in Hh as [i Hi].
    apply list_elem_of_lookup in Hn as [j Hj].
    assert (i = j) as ->.
    { apply (NoDup_lookup _ i j (node_name h) Hnd).
      - rewrite list_lookup_fmap, Hi. reflexivity.
      - rewrite list_lookup_fmap, Hj. cbn. congruence. }
    congruence.
Qed.

(** The two process views come last among the patterns, so they answer their
    names whatever the nodes are called. *)
Lemma process_candidates cls :
  last (filter (answers "detail") (urls cls).1) = Some detail_route
  ∧ last (filter (answers "override") (urls cls).1) = Some override_route.
Proof.
  rewrite urls_eq, !filter_app. split.
  - assert (filter (answers "detail") [detail_route; override_route] = [detail_route])
      as ->.
    { rewrite !filter_cons, filter_nil. rewrite decide_True by now split.
      rewrite decide_False; [reflexivity|]. intros [H _]. discriminate. }
    apply last_snoc.
  - assert (filter (answers "override") [detail_route; override_route]
            = [override_route]) as ->.
    { rewrite !filter_cons, filter_nil.
      rewrite decide_False by (intros [H _]; discriminate).
      rewrite decide_True by now split. reflexivity. }
    apply last_snoc.
Qed.

(** X10.  The routes that [urls()] generates are the ones
    [Task.get_absolute_url] reverses.  Let the URL configuration include the
    routes of the class under [prefix], before any other entry that carries
    the namespace of the class; the prefix is plain text without a leading
    slash, and the namespace has no colon.  For an uncompleted task of a
    stored process whose node is a node of the class (its name an attribute
    name of letters, digits and underscores, and not the name of a process
    view): if the node is a human node that is no create view, the URL is
    [/prefix name/pk/]; if it is a machine node or a create view, whose route
    takes no [pk], the result is [None], whatever other entries the
    configuration has. *)
Theorem task_url_is_the_route_of_its_node
    (cls : ProcessClass) (prefix : string) (pre post : list Include)
    (self : Task) (n : Node) (w : World) :
  task_completed self = None ->
  has_process self w ->
  (node_name n, n) ∈ get_nodes cls ->
  task_node_name self = node_name n ->
  node_name n ≠ "detail" -> node_name n ≠ "override" ->
  is_name (node_name n) = true ->
  is_plain_prefix prefix = true ->
  has_char ":" (get_url_namespace cls) = false ->
  (∀ inc, inc ∈ pre -> inc_namespace inc ≠ get_url_namespace cls) ->
  let urlconf := pre ++ include_urls prefix cls :: post in
  (is_task_view n = true -> is_create_view n = false ->
     Task_get_absolute_url cls urlconf self w
     = Ok (Some ("/" +:+ prefix +:+ node_name n +:+ "/"
                     +:+ pk_text (task_pk self) +:+ "/")) w)
  ∧ (is_task_view n = false ∨ is_create_view n = true ->
     Task_get_absolute_url cls urlconf self w = Ok None w).
Proof.
  intros Hc Hp Hin Hname Hdetail Hoverride Hident _ Hns Hpre urlconf.
  destruct (is_name_plain _ Hident) as [Hplain Hcolon].
  assert (n ∈ node_set cls) as Hn.
  { unfold get_nodes in Hin. apply list_elem_of_fmap in Hin as (m & Heq & Hm).
    injection Heq as _ ->. assumption. }
  apply process_of_has_process in Hp as [proc Hproc].
  assert (Task_get_absolute_url cls urlconf self w
          = try_except
              (url <~ reverse_url urlconf (url_name_of cls self) (task_pk self) ;;
               ret (Some url)) NoReverseMatch (ret None) w) as E.
  { unfold Task_get_absolute_url. rewrite Hc.
    now rewrite (bind_Ok _ _ _ _ _ Hproc). }
  pose proof (reverse_url_include pre prefix cls post (node_name n) (task_pk self) w
                Hns Hcolon Hpre) as Hrev.
  rewrite (node_candidates cls n Hn Hdetail Hoverride Hplain) in Hrev.
  fold urlconf in Hrev. rewrite <- Hname in Hrev at 1. fold (url_name_of cls self) in Hrev.
  split.
  - intros Hv Hcv. rewrite Hv, Hcv in Hrev. cbn [andb negb last] in Hrev.
    destruct (node_route_answers n Hplain) as [_ Hfill].
    rewrite (Hfill _ Hcv) in Hrev.
    rewrite E. unfold try_except. now rewrite (bind_Ok _ _ _ _ _ Hrev).
  - intros Hkind.
    assert (is_task_view n && negb (is_create_view n) = false) as Hb.
    { destruct Hkind as [-> | ->]; [reflexivity|]. now destruct (is_task_view n). }
    rewrite Hb in Hrev. cbn [last] in Hrev.
    rewrite E. unfold try_except. rewrite (bind_Raise _ _ _ _ _ Hrev).
    now rewrite decide_True.
Qed.

Lemma task_url_is_the_route_of_its_node_witness :
  Task_get_absolute_url Order project_urlconf review_row (idle sample_store 20)
  = Ok (Some "/orders/review/2/") (idle sample_store 20)
  ∧ Task_get_absolute_url Order project_urlconf ship_row (idle sample_store 20)
    = Ok None (idle sample_store 20)
  ∧ Task_get_absolute_url Order project_urlconf
      (set_node_name "start" review_row) (idle sample_store 20)
    = Ok None (idle sample_store 20).
Proof.
  assert (∀ n, In n (node_set Order) -> (node_name n, n) ∈ get_nodes Order) as Hin.
  { intros n Hn. unfold get_nodes. apply list_elem_of_fmap. exists n.
    split; [reflexivity|now apply list_elem_of_In]. }
  assert (∀ inc, inc ∈ [ mkInclude "shop/" [] "shop" ] ->
            inc_namespace inc ≠ get_url_namespace Order) as Hpre.
  { intros inc Hinc. apply list_elem_of_singleton in Hinc as ->. discriminate. }
  destruct (task_url_is_the_route_of_its_node Order "orders/"
              [ mkInclude "shop/" [] "shop" ] [ include_urls "archive/" Order ]
              review_row review (idle sample_store 20)) as [Hreview _];
    try reflexivity; try discriminate; try exact Hpre.
  { apply (sample_has_process review_row eq_refl eq_refl). }
  { apply Hin. cbn. auto. }
  destruct (task_url_is_the_route_of_its_node Order "orders/"
              [ mkInclude "shop/" [] "shop" ] [ include_urls "archive/" Order ]
              ship_row ship (idle sample_store 20)) as [_ Hship];
    try reflexivity; try discriminate; try exact Hpre.
  { apply (sample_has_process ship_row eq_refl eq_refl). }
  { apply Hin. cbn. auto. }
  destruct (task_url_is_the_route_of_its_node Order "orders/"
              [ mkInclude "shop/" [] "shop" ] [ include_urls "archive/" Order ]
              (set_node_name "start" review_row) start (idle sample_store 20))
    as [_ Hstart]; try reflexivity; try discriminate; try exact Hpre.
  { apply (sample_has_process (set_node_name "start" review_row) eq_refl eq_refl). }
  { apply Hin. cbn. auto. }
  split; [|split].
  - apply Hreview; reflexivity.
  - apply Hship. now left.
  - apply Hstart. now right.
Defined.

(** X11.  With the routes of the class included under [prefix], before any
    other entry that carries the namespace of the class (the prefix plain text
    without a leading slash, the namespace without colon),
    [Process.get_absolute_url] is [/prefix pk/] and [Process.get_override_url]
    is [/prefix pk/override]: the two routes that [urls()] appends after the
    node routes, also when a node of the class is itself called [detail] or
    [override], because the last pattern of a name is the one reversed.
    Neither call raises, nor touches the world; an instance that was never
    saved gets the text [None] in the place of the key. *)
Theorem process_urls_are_the_appended_routes
    (cls : ProcessClass) (prefix : string) (pre post : list Include)
    (self : Process) (w : World) :
  is_plain_prefix prefix = true ->
  has_char ":" (get_url_namespace cls) = false ->
  (∀ inc, inc ∈ pre -> inc_namespace inc ≠ get_url_namespace cls) ->
  let urlconf := pre ++ include_urls prefix cls :: post in
  Process_get_absolute_url cls urlconf self w
  = Ok ("/" +:+ prefix +:+ pk_text (process_pk self) +:+ "/") w
  ∧ Process_get_override_url cls urlconf self w
    = Ok ("/" +:+ prefix +:+ pk_text (process_pk self) +:+ "/override") w.
Proof.
  intros _ Hns Hpre urlconf.
  destruct (process_candidates cls) as [Hdetail Hoverride].
  unfold Process_get_absolute_url, Process_get_override_url, urlconf.
  change (get_url_namespace cls +:+ ":detail")
    with (get_url_namespace cls +:+ ":" +:+ "detail").
  change (get_url_namespace cls +:+ ":override")
    with (get_url_namespace cls +:+ ":" +:+ "override").
  rewrite !reverse_url_include by (assumption || reflexivity).
  rewrite Hdetail, Hoverride. split; reflexivity.
Qed.

Lemma process_urls_are_the_appended_routes_witness :
  Process_get_absolute_url Order project_urlconf order_row (idle sample_store 20)
  = Ok "/orders/1/" (idle sample_store 20)
  ∧ Process_get_override_url Order project_urlconf order_row (idle sample_store 20)
    = Ok "/orders/1/override" (idle sample_store 20).
Proof.
  apply (process_urls_are_the_appended_routes Order "orders/"
           [ mkInclude "shop/" [] "shop" ] [ include_urls "archive/" Order ]
           order_row (idle sample_store 20)); try reflexivity.
  intros inc Hinc. apply list_elem_of_singleton in Hinc as ->. discriminate.
Defined.

(** ** Posting a task view *)

Lemma atomic_Raise {A} (body : M A) w e w1 :
  body (enter_atomic w) = Raise e w1 ->
  atomic body w = Raise e (rollback w w1).
Proof. intros H. unfold atomic. now rewrite H. Qed.

(** X14.  A post to an update view whose URL names no open task changes
    nothing.  The generic update view calls [get_object] before it handles
    the form.  When the [pk] of the URL (a short text of printable one-byte
    characters) is not the key of a stored, uncompleted task of the view's
    node, that call raises: the 404 error for a key in the range of the
    column, [OverflowError] for an integer outside it and [ValueError] for a
    text that is no integer.  [post] passes the exception on, whatever the
    form handling would have done, and the world is exactly the one before the
    request: nothing is written, finished, created or queued, and no time
    has passed. *)
Theorem post_without_open_task_changes_nothing
    (cls : ProcessClass) (name pk : string)
    (handle : option Process -> M (option Process)) (w : World) :
  plain_text pk = true ->
  (∀ k t, int_of_text pk = Some k -> ¬ open_task w name k t) ->
  TaskViewMixin.get_object name (Some pk) w = Raise (refusal pk) w
  ∧ TaskViewMixin.post cls name (Some pk)
      (update_view_post (TaskViewMixin.get_object name (Some pk)) handle) w
    = Raise (refusal pk) w.
Proof.
  intros _ Hno.
  assert (∀ w0, store w0 = store w ->
            TaskViewMixin.get_object name (Some pk) w0 = Raise (refusal pk) w0) as Hget.
  { intros w0 Hs. unfold TaskViewMixin.get_object. apply bind_Raise.
    apply text_get_task_refused. intros k t Hk (Hrow & Hrest).
    apply (Hno k t Hk). split; [now rewrite <- Hs|exact Hrest]. }
  split; [now apply Hget|].
  unfold TaskViewMixin.post.
  rewrite (atomic_Raise _ w (refusal pk) (enter_atomic w)).
  - now rewrite rollback_enter.
  - apply bind_Raise. unfold update_view_post. apply bind_Raise. now apply Hget.
Qed.

Lemma post_without_open_task_changes_nothing_witness :
  TaskViewMixin.post Order "review" (Some "2")
    (update_view_post (TaskViewMixin.get_object "review" (Some "2"))
       (save_form "approved"))
    (idle (set_task 2 (set_completed (Some 15) review_row) sample_store) 20)
  = Raise Http404
      (idle (set_task 2 (set_completed (Some 15) review_row) sample_store) 20)
  ∧ TaskViewMixin.post Order "review" (Some "two")
      (update_view_post (TaskViewMixin.get_object "review" (Some "two"))
         (save_form "approved"))
      (idle sample_store 20)
    = Raise ValueError (idle sample_store 20).
Proof.
  split.
  - apply (post_without_open_task_changes_nothing Order "review" "2"
             (save_form "approved")
             (idle (set_task 2 (set_completed (Some 15) review_row) sample_store) 20)).
    + reflexivity.
    + intros k t Hk (Hrow & _ & Hc). vm_compute in Hk. injection Hk as <-.
      vm_compute in Hrow. injection Hrow as <-. discriminate.
  - apply (post_without_open_task_changes_nothing Order "review" "two"
             (save_form "approved") (idle sample_store 20)).
    + reflexivity.
    + intros k t Hk. vm_compute in Hk. discriminate.
Defined.

Lemma atomic_nested {A} (body : M A) a w w1 :
  in_atomic_block w = true ->
  body (enter_atomic w) = Ok a w1 ->
  atomic body w = Ok a (release_savepoint w w1).
Proof. intros Hin H. unfold atomic. now rewrite H, Hin. Qed.

Lemma atomic_commits_enqueue_hooks {A} (body : M A) a w w1 ts :
  atomic_depth w = 0%nat ->
  body (enter_atomic w) = Ok a w1 ->
  run_on_commit w1 = HookEnqueue <$> ts ->
  (∀ t, t ∈ ts -> ∃ k, task_pk t = Some k ∧ k ≠ 0 ∧ is_Some (tasks (store w1) !! k)) ->
  ∃ w' keys,
    atomic body w = Ok a w'
    ∧ task_pks ts = Some keys
    ∧ rescheduled keys (store w1) (store w')
    ∧ committed w' = store w'
    ∧ atomic_depth w' = 0%nat
    ∧ run_on_commit w' = []
    ∧ queue w' = queue w1 ++ (message_of <$> ts).
Proof.
  intros Hd Hbody Hhooks Hts.
  destruct (run_enqueue_hooks ts (commit w1))
    as (us & w2 & keys & Hrun & Hkeys & Hres & Hc2 & Hd2 & Hh2 & Hq2);
    try reflexivity; [exact Hts|].
  exists w2, keys.
  split; [|split; [assumption|split; [exact Hres|split; [assumption|split;
    [assumption|split; [exact Hh2|exact Hq2]]]]]].
  unfold atomic. rewrite Hbody. unfold in_atomic_block. rewrite Hd. cbn [negb Nat.eqb].
  rewrite Hhooks. now rewrite Hrun.
Qed.

(** The end of a transaction whose body started tasks for [nodes] as the
    children of the stored task [p]. *)
Lemma atomic_started {A} (body : M A) a p pid nodes ts w w1 s :
  body (enter_atomic w) = Ok a w1 ->
  store_wf s -> is_Some (tasks s !! p) ->
  started p pid s nodes ts (store w1) ->
  committed w1 = committed w ->
  atomic_depth w1 = S (atomic_depth w) ->
  queue w1 = queue w ->
  run_on_commit w1 = run_on_commit w ++ (HookEnqueue <$> to_enqueue nodes ts) ->
  (in_atomic_block w = false -> run_on_commit w = []) ->
  ∃ w',
    atomic body w = Ok a w'
    ∧ children_started p pid (next_task_id s) nodes s (store w')
    ∧ (∀ q, q < next_task_id s -> tasks (store w') !! q = tasks s !! q)
    ∧ processes (store w') = processes s
    ∧ handed_over (next_task_id s) nodes w w'.
Proof.
  intros Hbody Hwf Hrow Hst Hc Hd Hq Hh Hidle.
  pose proof (started_length _ _ _ _ _ _ Hst) as Hlen.
  assert (∀ (i : nat) t, ts !! i = Some t ->
            task_pk t = Some (next_task_id s + Z.of_nat i)
            ∧ tasks (store w1) !! (next_task_id s + Z.of_nat i) = Some t) as Hts.
  { intros i t Hi. now apply (started_new_rows _ _ _ _ _ _ _ _ Hst). }
  assert (∀ keys s', (∀ q, q ∈ keys -> next_task_id s ≤ q) ->
            rescheduled keys (store w1) s' ->
            children_started p pid (next_task_id s) nodes s s'
            ∧ (∀ q, q < next_task_id s -> tasks s' !! q = tasks s !! q)
            ∧ processes s' = processes s) as Hrows.
  { intros keys s' Hkeys Hres.
    destruct (children_rows p pid s nodes ts (store w1) keys s' Hwf Hst Hkeys Hres)
      as (_ & Hdom & Hold & _ & Hchildren).
    split; [split|split].
    - intros i n Hi.
      destruct (Hchildren i n Hi)
        as (t & row & _ & _ & Hnew & Hrow' & Hpk & Hname & Hpid & Hdef & Hpar).
      exists row. split; [exact Hnew|]. split; [exact Hrow'|]. split; [exact Hpk|].
      split; [exact Hname|]. split; [exact Hpid|]. split; [exact Hdef|exact Hpar].
    - exact Hdom.
    - exact Hold.
    - destruct Hres as (_ & -> & _).
      now destruct (started_next _ _ _ _ _ _ Hst) as (_ & -> & _). }
  destruct (in_atomic_block w) eqn:Hin.
  - exists (release_savepoint w w1). split; [now apply atomic_nested|].
    destruct (Hrows [] (store w1)) as (Hch & Hold & Hproc).
    { intros q Hq'. now apply elem_of_nil in Hq'. }
    { apply rescheduled_nil. }
    split; [exact Hch|]. split; [exact Hold|]. split; [exact Hproc|].
    exists ts. split; [assumption|]. split; [intros i t Hi; now apply Hts|].
    split; [|intros H; congruence]. intros _. cbn. now repeat split.
  - assert (atomic_depth w = 0%nat) as Hd0.
    { unfold in_atomic_block in Hin. destruct (atomic_depth w); [reflexivity|discriminate]. }
    rewrite (Hidle eq_refl) in Hh. cbn [app] in Hh.
    destruct (atomic_commits_enqueue_hooks body a w w1 (to_enqueue nodes ts) Hd0 Hbody Hh)
      as (w' & keys & Hrun & Hkeys & Hres & Hc' & Hd' & Hh' & Hq').
    { intros t Ht. apply to_enqueue_subset in Ht.
      apply list_elem_of_lookup in Ht as [i Hi]. destruct (Hts i t Hi) as [Hpk Hlook].
      exists (next_task_id s + Z.of_nat i). split; [assumption|].
      pose proof (wf_next _ Hwf). split; [lia|]. rewrite Hlook. eauto. }
    exists w'. split; [exact Hrun|].
    destruct (Hrows keys (store w')) as (Hch & Hold & Hproc); [|assumption|].
    { intros q Hq0. destruct (task_pks_elem _ _ _ Hkeys Hq0) as (t & Ht & Hpk).
      apply to_enqueue_subset in Ht. apply list_elem_of_lookup in Ht as [i Hi].
      destruct (Hts i t Hi) as [Hpk' _]. rewrite Hpk in Hpk'.
      injection Hpk' as ->. lia. }
    split; [exact Hch|]. split; [exact Hold|]. split; [exact Hproc|].
    exists ts. split; [assumption|]. split; [intros i t Hi; now apply Hts|].
    split; [intros H; congruence|]. intros _. split; [assumption|].
    split; [assumption|]. now rewrite Hq', Hq.
Qed.

(** X15.  Posting the view of an open task completes it and starts its
    successors, in one transaction.  Let the form handling succeed inside the
    transaction and leave a stored process in [self.object], and let [pk] name
    an open task of the view's node.  Then [post] succeeds; the row of the
    task has status succeeded and [completed] set, its other columns
    untouched; for successors that have no [create_task] of their own, one
    new task per successor of the node is created for the process of
    [self.object], with the posted task as its only parent; no other task row
    appears; and the machine successors are handed to the queue when the
    outermost transaction commits, not before. *)
Theorem post_completes_the_task_and_starts_its_successors
    (cls : ProcessClass) (name : string) (pk pid : Z) (t : Task) (node : Node)
    (object proc : Process) (super_post : M (option Process)) (w w1 : World) :
  super_post (enter_atomic w) = Ok (Some object) w1 ->
  tx_effect (enter_atomic w) w1 (store w1) [] ->
  store_wf (store w1) ->
  process_pk object = Some pid ->
  processes (store w1) !! pid = Some proc ->
  open_task w1 name pk t ->
  getattr_node cls name = Some node ->
  Forall (fun n => create_task n = None) (get_next_nodes cls node) ->
  (in_atomic_block w = false -> run_on_commit w = []) ->
  let successors := get_next_nodes cls node in
  let k := next_task_id (store w1) in
  ∃ w',
    post cls name (Some pk) super_post w = Ok (Some object) w'
    ∧ tasks (store w') !! pk = Some (finished None t (clock w1))
    ∧ (∀ q, q < k -> q ≠ pk -> tasks (store w') !! q = tasks (store w1) !! q)
    ∧ processes (store w') = processes (store w1)
    ∧ children_started pk pid k successors (store w1) (store w')
    ∧ handed_over k successors w w'.
Proof.
  intros Hsuper He1 Hwf Hopk Hproc Hopen Hnode Hdefault Hidle successors k.
  assert (Forall honours_create_task successors) as Hnodes.
  { eapply Forall_impl; [exact Hdefault|]. intros n. apply default_node_honours. }
  destruct Hopen as (Hrow & Hname & Hcompleted).
  destruct (wf_task_keys _ Hwf _ _ Hrow) as [Htpk Hrange].
  assert (in_atomic_block w1 = true) as Hin1
    by now rewrite (tx_effect_in_atomic _ _ _ _ He1).
  (* the task is fetched and given the process *)
  assert (get_task name (Some pk) w1 = Ok t w1) as Hget.
  { cbn [get_task]. apply get_object_or_404_found. now repeat split. }
  set (task := Task_set_process cls (Some object) t).
  assert (task_pk task = Some pk) as Hpk by (destruct t; exact Htpk).
  (* it is finished *)
  pose proof (Task_finish_stored task None pk t w1 Hpk ltac:(lia) Hrow) as Hfinish.
  set (task' := finished None task (clock w1)) in *.
  set (w2 := after_write (set_task pk (finished None t (clock w1)) (store w1))
               (tick (tick w1))) in *.
  assert (tx_effect w1 w2 (set_task pk (finished None t (clock w1)) (store w1)) [])
    as He2.
  { unfold w2. eapply tx_effect_then_write; [assumption|].
    do 2 eapply tx_effect_then_tick. apply tx_effect_refl. }
  pose proof (te_store _ _ _ _ He2) as Hs2.
  assert (store_wf (store w2)) as Hwf2.
  { rewrite Hs2. apply (store_wf_set_task _ pk t); [assumption|assumption|].
    destruct t; exact Htpk. }
  assert (ready pk pid proc w2) as Hready.
  { split; [now rewrite (tx_effect_in_atomic _ _ _ _ He2)|]. split; [assumption|].
    rewrite Hs2. cbn. split; [rewrite lookup_insert_eq; eauto|assumption]. }
  (* its successors are started *)
  destruct (start_next_tasks_nested cls task' pk pid proc) with
    (next_nodes := @None (list (M Node))) (nodes := successors) (w := w2)
    as (ts & w3 & Hstart & Hst & He3 & _).
  { destruct t; exact Htpk. }
  { destruct t; cbn; eauto. }
  { destruct t; exact Hopk. }
  { exact Hready. }
  { apply next_nodes_default. destruct t; cbn in Hname |- *. now rewrite Hname. }
  { exact Hnodes. }
  pose proof (tx_effect_trans _ _ _ _ _ _ _ He1 He2) as He12.
  pose proof (tx_effect_trans _ _ _ _ _ _ _ He12 He3) as [_ Hc3 Hd3 Hh3 Hq3].
  cbn in Hc3, Hd3, Hh3, Hq3.
  destruct (atomic_started
              (object <~ super_post ;;
               task <~ get_task name (Some pk) ;;
               let task := Task_set_process cls object task in
               task <~ Task_finish task None ;;
               start_next_tasks cls task None ;;;
               ret object)
              (Some object) pk pid successors ts w w3 (store w2))
    as (w' & Hrun & Hch & Hold & Hprocs & Hhand); try assumption.
  { rewrite (bind_Ok _ _ _ _ _ Hsuper). rewrite (bind_Ok _ _ _ _ _ Hget).
    cbv zeta. fold task. rewrite (bind_Ok _ _ _ _ _ Hfinish).
    now rewrite (bind_Ok _ _ _ _ _ Hstart). }
  { rewrite Hs2. cbn. rewrite lookup_insert_eq. eauto. }
  assert (next_task_id (store w2) = k) as Hk by now rewrite Hs2.
  rewrite Hk in Hch, Hold, Hhand.
  exists w'. split; [exact Hrun|]. split; [|split; [|split; [|split]]].
  - rewrite Hold by (unfold k; lia). rewrite Hs2. cbn. apply lookup_insert_eq.
  - intros q Hq Hne. rewrite Hold by assumption. rewrite Hs2. cbn.
    now apply lookup_insert_ne.
  - rewrite Hprocs. now rewrite Hs2.
  - destruct Hch as [Hrows Hdom]. split.
    + intros i n Hi. destruct (Hrows i n Hi) as (row & Hnew & Hrest).
      exists row. split; [|exact Hrest].
      rewrite Hs2 in Hnew. cbn in Hnew. rewrite lookup_insert_ne in Hnew by lia.
      exact Hnew.
    + intros q. rewrite (Hdom q). rewrite Hs2. cbn. rewrite lookup_insert_is_Some.
      split; (intros [H|H]; [left|now right]).
      * destruct H as [<-|[_ H]]; [rewrite Hrow; eauto|assumption].
      * destruct (decide (pk = q)); auto.
  - exact Hhand.
Qed.

Lemma sample_post_world :
  update_view_post (get_object "review" (Some 2)) (save_form "approved")
    (enter_atomic (idle sample_store 20))
  = Ok (Some (mkProcess (Some 1) (Some 10) (Some 20) "approved"))
       (mkWorld
          (set_process 1 (mkProcess (Some 1) (Some 10) (Some 20) "approved") sample_store)
          sample_store 1 [] [] 21).
Proof. reflexivity. Qed.

Lemma sample_successors_honour :
  Forall honours_create_task (get_next_nodes Order review).
Proof. repeat constructor; [now apply default_node_honours | apply audit_honours]. Qed.

Lemma post_completes_the_task_and_starts_its_successors_witness :
  ∃ w',
    post Delivery "review" (Some 2)
      (update_view_post (get_object "review" (Some 2)) (save_form "approved"))
      (idle sample_store 20)
    = Ok (Some (mkProcess (Some 1) (Some 10) (Some 20) "approved")) w'
    ∧ tasks (store w') !! 2 = Some (finished None review_row 21)
    ∧ tasks (store w') !! 1 = Some ship_row
    ∧ (∃ row, tasks (store w') !! 3 = Some row
              ∧ task_node_name row = "ship" ∧ parents_of (store w') 3 = {[ 2 ]})
    ∧ (∃ row, tasks (store w') !! 4 = Some row
              ∧ task_node_name row = "confirm" ∧ parents_of (store w') 4 = {[ 2 ]})
    ∧ committed w' = store w'.
Proof.
  destruct (post_completes_the_task_and_starts_its_successors Delivery "review" 2 1
              review_row review (mkProcess (Some 1) (Some 10) (Some 20) "approved")
              (mkProcess (Some 1) (Some 10) (Some 20) "approved")
              (update_view_post (get_object "review" (Some 2)) (save_form "approved"))
              (idle sample_store 20)
              (mkWorld
                 (set_process 1 (mkProcess (Some 1) (Some 10) (Some 20) "approved")
                    sample_store)
                 sample_store 1 [] [] 21))
    as (w' & Hrun & Hrow & Hold & _ & [Hrows _] & (ts & _ & _ & _ & Hout)).
  - exact sample_post_world.
  - split; reflexivity.
  - apply store_wf_set_process; [apply sample_store_wf|reflexivity].
  - reflexivity.
  - reflexivity.
  - split; [reflexivity|]. split; reflexivity.
  - reflexivity.
  - repeat constructor.
  - reflexivity.
  - exists w'. split; [exact Hrun|]. split; [exact Hrow|].
    split; [rewrite Hold by (cbn; lia); reflexivity|].
    destruct (Hrows 0%nat ship eq_refl) as (row0 & _ & Hrow0 & _ & Hname0 & _ & _ & Hpar0).
    destruct (Hrows 1%nat confirm eq_refl)
      as (row1 & _ & Hrow1 & _ & Hname1 & _ & _ & Hpar1).
    split; [exists row0; split; [exact Hrow0|split; [exact Hname0|exact Hpar0]]|].
    split; [exists row1; split; [exact Hrow1|split; [exact Hname1|exact Hpar1]]|].
    now destruct (Hout eq_refl).
Defined.

(** X16.  Posting a create view starts the process.  The request has no
    [pk]; let the form handling succeed inside the transaction and leave the
    stored new process in [self.object].  Then [post] succeeds: a task for the
    view's node is inserted under the next key, already succeeded and
    completed, as a task of that process (its node type is the empty default,
    as the view builds it from the node name alone); for successors that have
    no [create_task] of their own, one new task per successor of the node
    follows, with the start task as its only parent; no other task row
    appears, and the machine successors are handed to the queue when the
    outermost transaction commits. *)
Theorem post_of_a_create_view_starts_the_process
    (cls : ProcessClass) (name : string) (pid : Z) (node : Node)
    (object proc : Process) (super_post : M (option Process)) (w w1 : World) :
  super_post (enter_atomic w) = Ok (Some object) w1 ->
  tx_effect (enter_atomic w) w1 (store w1) [] ->
  store_wf (store w1) ->
  process_pk object = Some pid ->
  processes (store w1) !! pid = Some proc ->
  getattr_node cls name = Some node ->
  Forall (fun n => create_task n = None) (get_next_nodes cls node) ->
  (in_atomic_block w = false -> run_on_commit w = []) ->
  let successors := get_next_nodes cls node in
  let k := next_task_id (store w1) in
  ∃ w' row,
    post cls name None super_post w = Ok (Some object) w'
    ∧ tasks (store w1) !! k = None
    ∧ tasks (store w') !! k = Some row
    ∧ row = mkTask (Some k) (Some pid) (Some (cls_content_type cls)) name ""
              SUCCEEDED None (Some (clock w1 + 1)) (Some (clock w1 + 1 + 1))
              (Some (clock w1)) "" ""
    ∧ (∀ q, q < k -> tasks (store w') !! q = tasks (store w1) !! q)
    ∧ processes (store w') = processes (store w1)
    ∧ children_started k pid (k + 1) successors (put_task k row (store w1)) (store w')
    ∧ handed_over (k + 1) successors w w'.
Proof.
  intros Hsuper He1 Hwf Hopk Hproc Hnode Hdefault Hidle successors k.
  assert (Forall honours_create_task successors) as Hnodes.
  { eapply Forall_impl; [exact Hdefault|]. intros n. apply default_node_honours. }
  assert (in_atomic_block w1 = true) as Hin1
    by now rewrite (tx_effect_in_atomic _ _ _ _ He1).
  (* a fresh task is made and given the process *)
  set (task := Task_set_process cls (Some object) (set_node_name name new_Task)).
  pose proof (Task_finish_unsaved task None pid (cls_content_type cls) proc w1
                eq_refl Hopk eq_refl Hproc) as Hfinish.
  fold k in Hfinish.
  set (task' := finished_new None task (clock w1) k) in *.
  assert (task' = mkTask (Some k) (Some pid) (Some (cls_content_type cls)) name ""
                    SUCCEEDED None (Some (clock w1 + 1)) (Some (clock w1 + 1 + 1))
                    (Some (clock w1)) "" "") as Htask'.
  { unfold task', task. cbn. now rewrite Hopk. }
  set (w2 := after_write (put_task k task' (store w1)) (tick (tick (tick w1)))) in *.
  assert (tx_effect w1 w2 (put_task k task' (store w1)) []) as He2.
  { unfold w2. eapply tx_effect_then_write; [assumption|].
    do 3 eapply tx_effect_then_tick. apply tx_effect_refl. }
  pose proof (te_store _ _ _ _ He2) as Hs2.
  assert (task_pk task' = Some k) as Hpk' by now rewrite Htask'.
  assert (store_wf (store w2)) as Hwf2.
  { rewrite Hs2. now apply store_wf_put_fresh. }
  assert (ready k pid proc w2) as Hready.
  { split; [now rewrite (tx_effect_in_atomic _ _ _ _ He2)|]. split; [assumption|].
    rewrite Hs2. cbn. split; [rewrite lookup_insert_eq; eauto|assumption]. }
  (* the successors are started *)
  destruct (start_next_tasks_nested cls task' k pid proc) with
    (next_nodes := @None (list (M Node))) (nodes := successors) (w := w2)
    as (ts & w3 & Hstart & Hst & He3 & _).
  { exact Hpk'. }
  { rewrite Htask'. cbn. eauto. }
  { now rewrite Htask'. }
  { exact Hready. }
  { apply next_nodes_default. rewrite Htask'. exact Hnode. }
  { exact Hnodes. }
  pose proof (tx_effect_trans _ _ _ _ _ _ _ He1 He2) as He12.
  pose proof (tx_effect_trans _ _ _ _ _ _ _ He12 He3) as [_ Hc3 Hd3 Hh3 Hq3].
  cbn in Hc3, Hd3, Hh3, Hq3.
  destruct (atomic_started
              (object <~ super_post ;;
               task <~ get_task name None ;;
               let task := Task_set_process cls object task in
               task <~ Task_finish task None ;;
               start_next_tasks cls task None ;;;
               ret object)
              (Some object) k pid successors ts w w3 (store w2))
    as (w' & Hrun & Hch & Hold & Hprocs & Hhand); try assumption.
  { rewrite (bind_Ok _ _ _ _ _ Hsuper).
    rewrite (bind_Ok _ _ w1 (set_node_name name new_Task) w1) by reflexivity.
    cbv zeta. fold task. rewrite (bind_Ok _ _ _ _ _ Hfinish).
    now rewrite (bind_Ok _ _ _ _ _ Hstart). }
  { rewrite Hs2. cbn. rewrite lookup_insert_eq. eauto. }
  assert (next_task_id (store w2) = k + 1) as Hk.
  { rewrite Hs2. cbn. fold k. lia. }
  rewrite Hk in Hch, Hold, Hhand.
  exists w', task'. split; [exact Hrun|].
  split; [now apply store_wf_fresh|]. split; [|split; [exact Htask'|split; [|split; [|split]]]].
  - rewrite Hold by lia. rewrite Hs2. cbn. apply lookup_insert_eq.
  - intros q Hq. rewrite Hold by lia. rewrite Hs2. cbn.
    apply lookup_insert_ne. lia.
  - rewrite Hprocs. now rewrite Hs2.
  - now rewrite <- Hs2.
  - exact Hhand.
Qed.

Lemma sample_create_world :
  create_view_post (save_form "draft") (enter_atomic (idle sample_store 20))
  = Ok (Some (mkProcess (Some 2) (Some 20) (Some 21) "draft"))
       (mkWorld
          (put_process 2 (mkProcess (Some 2) (Some 20) (Some 21) "draft") sample_store)
          sample_store 1 [] [] 22).
Proof. reflexivity. Qed.

Lemma store_wf_put_process s pid row :
  store_wf s -> process_pk row = Some pid -> store_wf (put_process pid row s).
Proof.
  intros [Hn Hk Hl Hp] Hpk. split; cbn; try assumption.
  intros q proc Hq. destruct (decide (pid = q)) as [<-|Hne].
  - rewrite lookup_insert_eq in Hq. now injection Hq as <-.
  - rewrite lookup_insert_ne in Hq by assumption. now apply Hp.
Qed.

Lemma post_of_a_create_view_starts_the_process_witness :
  ∃ w',
    post Order "start" None (create_view_post (save_form "draft"))
      (idle sample_store 20)
    = Ok (Some (mkProcess (Some 2) (Some 20) (Some 21) "draft")) w'
    ∧ tasks (store w') !! 3
      = Some (mkTask (Some 3) (Some 2) (Some 7) "start" "" SUCCEEDED None
                (Some 23) (Some 24) (Some 22) "" "")
    ∧ (∃ row, tasks (store w') !! 4 = Some row
              ∧ task_node_name row = "review" ∧ task_node_type row = HUMAN
              ∧ task_process_id row = Some 2
              ∧ parents_of (store w') 4 = {[ 3 ]})
    ∧ queue w' = [].
Proof.
  destruct (post_of_a_create_view_starts_the_process Order "start" 2 start
              (mkProcess (Some 2) (Some 20) (Some 21) "draft")
              (mkProcess (Some 2) (Some 20) (Some 21) "draft")
              (create_view_post (save_form "draft"))
              (idle sample_store 20)
              (mkWorld
                 (put_process 2 (mkProcess (Some 2) (Some 20) (Some 21) "draft")
                    sample_store)
                 sample_store 1 [] [] 22))
    as (w' & row & Hrun & _ & Hrow & -> & _ & _ & [Hrows _] & (ts & Hlen & _ & _ & Hout)).
  - exact sample_create_world.
  - split; reflexivity.
  - apply store_wf_put_process; [apply sample_store_wf|reflexivity].
  - reflexivity.
  - reflexivity.
  - reflexivity.
  - repeat constructor.
  - reflexivity.
  - exists w'. split; [exact Hrun|]. split; [exact Hrow|].
    destruct (Hrows 0%nat review eq_refl)
      as (row0 & _ & Hrow0 & _ & Hname0 & Hpid0 & Hdef0 & Hpar0).
    destruct (Hdef0 eq_refl) as (Htype0 & _).
    split.
    + exists row0. split; [exact Hrow0|]. split; [exact Hname0|].
      split; [exact Htype0|]. split; [exact Hpid0|exact Hpar0].
    + destruct (Hout eq_refl) as (_ & _ & Hq). rewrite Hq.
      destruct ts as [|t0 [|t1 ts]]; try discriminate Hlen. reflexivity.
Defined.

(** ** An override with a name that is no node *)





(** ** From a started task to its view *)

(** X17.  What [start_next_tasks] creates, the task views find.  Under the
    conditions of a successful call (a stored task of a stored process, on a
    well-formed store), every child that the default branch created for a
    successor is an open task of that node right after the call: [get_task] of
    a view of the node, given the key of the child, returns its row; under
    another node name the same key gets the 404 error; and [Task.node] of the
    child is a node of the class with the successor's name, so the child can
    start its own successors. *)
Theorem started_tasks_are_open_for_their_views
    (cls : ProcessClass) (self : Task) (p pid : Z) (proc : Process)
    (node : Node) (w : World) :
  task_pk self = Some p ->
  is_Some (task_content_type self) ->
  task_process_id self = Some pid ->
  store_wf (store w) ->
  is_Some (tasks (store w) !! p) ->
  processes (store w) !! pid = Some proc ->
  getattr_node cls (task_node_name self) = Some node ->
  Forall honours_create_task (get_next_nodes cls node) ->
  (in_atomic_block w = false -> run_on_commit w = []) ->
  let successors := get_next_nodes cls node in
  let k := next_task_id (store w) in
  ∃ children w',
    start_next_tasks cls self None w = Ok children w'
    ∧ ∀ (i : nat) n, successors !! i = Some n -> create_task n = None ->
        ∃ row,
          get_task (node_name n) (Some (k + Z.of_nat i)) w' = Ok row w'
          ∧ task_pk row = Some (k + Z.of_nat i)
          ∧ task_process_id row = Some pid
          ∧ task_node_type row = node_type n
          ∧ (∀ name, name ≠ node_name n ->
               get_task name (Some (k + Z.of_nat i)) w' = Raise Http404 w')
          ∧ (is_Some (task_content_type row) ->
             ∃ m, Task_node cls row w' = Ok m w'
                  ∧ node_name m = node_name n ∧ (node_name n, m) ∈ get_nodes cls).
Proof.
  intros Hpk Hct Hpid Hwf Hrow Hproc Hnode Hnodes Hidle successors k.
  pose proof (next_nodes_default cls self node Hnode) as Hnn.
  assert (∃ children w' s1 keys,
            start_next_tasks cls self None w = Ok children w'
            ∧ started p pid (store w) successors children s1
            ∧ (∀ q, q ∈ keys -> next_task_id (store w) ≤ q)
            ∧ rescheduled keys s1 (store w'))
    as (children & w' & s1 & keys & Hrun & Hst & Hkeys & Hres).
  { destruct (in_atomic_block w) eqn:Hin.
    - destruct (start_next_tasks_nested cls self p pid proc Hpk Hct Hpid None
                  successors w) as (ts & w' & Hrun & Hst & _);
        [split; [assumption|]; split; [assumption|]; split; assumption
        |assumption|assumption|].
      exists ts, w', (store w'), []. split; [assumption|]. split; [assumption|].
      split; [|apply rescheduled_nil]. intros q Hq. now apply elem_of_nil in Hq.
    - assert (atomic_depth w = 0%nat) as Hd.
      { unfold in_atomic_block in Hin.
        destruct (atomic_depth w); [reflexivity|discriminate]. }
      destruct (start_next_tasks_outermost cls self p pid proc Hpk Hct Hpid None
                  successors w Hd (Hidle eq_refl) Hwf Hrow Hproc Hnn Hnodes)
        as (ts & w' & s1 & keys & Hrun & Hst & Hkeys & Hres & _).
      exists ts, w', s1, keys. split; [assumption|]. split; [assumption|].
      split; [|assumption].
      intros q Hin'. destruct (task_pks_elem _ _ _ Hkeys Hin') as (t & Ht & Hpk').
      apply to_enqueue_subset in Ht. apply list_elem_of_lookup in Ht as [i Hi].
      destruct (started_new_rows _ _ _ _ _ _ _ _ Hst Hi) as [Hpk'' _].
      rewrite Hpk' in Hpk''. injection Hpk'' as ->. lia. }
  destruct (children_rows p pid (store w) successors children s1 keys (store w')
              Hwf Hst Hkeys Hres) as (_ & _ & _ & _ & Hrows).
  assert (processes (store w') !! pid = Some proc) as Hproc'.
  { destruct Hres as (_ & -> & _).
    destruct (started_next _ _ _ _ _ _ Hst) as (_ & -> & _). exact Hproc. }
  exists children, w'. split; [exact Hrun|].
  intros i n Hi Hdefault.
  destruct (Hrows i n Hi)
    as (t & row & _ & _ & _ & Hrow' & Hrpk & Hname & Hrpid & Hdef & _).
  destruct (Hdef Hdefault) as (Htype & _ & Hcompleted).
  exists row. split; [|split; [exact Hrpk|split; [exact Hrpid|split; [exact Htype|split]]]].
  - cbn [get_task]. apply get_object_or_404_found. now repeat split.
  - intros name Hne. cbn [get_task]. apply get_object_or_404_missing.
    intros t' (Hrow'' & Hname' & _). fold k in Hrow'.
    rewrite Hrow' in Hrow''. injection Hrow'' as <-. congruence.
  - intros Hrct.
    assert (has_process row w') as Hp by (exists pid, proc; now repeat split).
    apply process_of_has_process in Hp as [proc' Hproc''].
    apply list_elem_of_lookup_2 in Hi.
    apply get_next_nodes_spec in Hi as (a & Hedge & _).
    destruct (node_set_complete cls a n Hedge) as [_ (m & Hm & Hmn)].
    exists m. split; [|split; [exact Hmn|]].
    + unfold Task_node. rewrite (bind_Ok _ _ _ _ _ Hproc'').
      unfold getattr_node. rewrite Hname, <- Hmn.
      now rewrite (dict_get_node_set cls m Hm).
    + unfold get_nodes. apply list_elem_of_fmap. exists m. now rewrite Hmn.
Qed.

Lemma started_tasks_are_open_for_their_views_witness :
  ∃ children w',
    start_next_tasks Order review_row None (idle sample_store 20) = Ok children w'
    ∧ ∃ row, get_task "ship" (Some 3) w' = Ok row w'
             ∧ task_process_id row = Some 1
             ∧ get_task "review" (Some 3) w' = Raise Http404 w'.
Proof.
  destruct (started_tasks_are_open_for_their_views Order review_row 2 1 order_row
              review (idle sample_store 20))
    as (children & w' & Hrun & Hopen).
  - reflexivity.
  - eexists. reflexivity.
  - reflexivity.
  - apply sample_store_wf.
  - eexists. reflexivity.
  - reflexivity.
  - reflexivity.
  - exact sample_successors_honour.
  - reflexivity.
  - exists children, w'. split; [exact Hrun|].
    destruct (Hopen 0%nat ship eq_refl eq_refl) as (row & Hget & _ & Hpid & _ & Hother & _).
    exists row. split; [exact Hget|]. split; [exact Hpid|].
    apply Hother. discriminate.
Defined.

(** ** A task view after the task changed state *)

(** X18.  The view of a task is closed by [finish] and re-opened by
    [enqueue].  Let [pk] name an open task of the view's node.  After
    [finish], [get_task] and [get_object] of the view raise the 404 error for
    that key; a later [enqueue] of the task clears [completed], and the view
    finds the task again, scheduled.  After [fail] the view still finds the
    task, with status failed: [fail] does not store [completed]. *)
Theorem finish_closes_the_view_of_a_task
    (name : string) (pk : Z) (t self : Task) (w : World) :
  open_task w name pk t ->
  task_pk self = Some pk -> pk ≠ 0 ->
  (∀ user, ∃ t' w',
     Task_finish self user w = Ok t' w'
     ∧ get_task name (Some pk) w' = Raise Http404 w'
     ∧ get_object name (Some pk) w' = Raise Http404 w'
     ∧ ∀ countdown eta, ∃ t'' w'' row,
         Task_enqueue t' countdown eta w' = Ok t'' w''
         ∧ get_task name (Some pk) w'' = Ok row w''
         ∧ task_status row = SCHEDULED)
  ∧ (∀ tb, tb ≠ [] -> ∃ t' w' row,
       Task_fail self tb w = Ok t' w'
       ∧ get_task name (Some pk) w' = Ok row w'
       ∧ task_status row = FAILED).
Proof.
  intros (Hrow & Hname & Hcompleted) Hpk Hp. split.
  - intros user.
    pose proof (Task_finish_stored self user pk t w Hpk Hp Hrow) as Hfinish.
    set (w' := after_write (set_task pk (finished user t (clock w)) (store w))
                 (tick (tick w))) in *.
    assert (tasks (store w') !! pk = Some (finished user t (clock w))) as Hrow'
      by apply lookup_insert_eq.
    assert (get_task name (Some pk) w' = Raise Http404 w') as Hget.
    { cbn [get_task]. apply get_object_or_404_missing.
      intros t0 (Hrow0 & _ & Hc0). rewrite Hrow' in Hrow0. injection Hrow0 as <-.
      discriminate. }
    exists (finished user self (clock w)), w'.
    split; [exact Hfinish|]. split; [exact Hget|]. split.
    + unfold get_object. now apply bind_Raise.
    + intros countdown eta.
      assert (task_pk (finished user self (clock w)) = Some pk) as Hpk'
        by (destruct self; exact Hpk).
      pose proof (Task_enqueue_stored (finished user self (clock w)) countdown eta pk
                    (finished user t (clock w)) w' Hpk' Hp Hrow') as Henqueue.
      eexists _, _, (enqueued (finished user t (clock w)) (clock w')).
      split; [exact Henqueue|]. split; [|reflexivity].
      cbn [get_task]. apply get_object_or_404_found. split; [|now split].
      cbv zeta. destruct (in_atomic_block w'); apply lookup_insert_eq.
  - intros tb Htb.
    destruct (last tb) as [line|] eqn:Hlast.
    2:{ apply last_None in Hlast. contradiction. }
    eexists _, _, _.
    split; [apply (Task_fail_stored self tb line pk t w Hpk Hp Hrow Hlast)|].
    split.
    + cbn [get_task]. apply get_object_or_404_found.
      split; [apply lookup_insert_eq|]. now split.
    + reflexivity.
Qed.

Lemma finish_closes_the_view_of_a_task_witness :
  (∃ t' w',
     Task_finish review_row (Some 3) (idle sample_store 20) = Ok t' w'
     ∧ get_task "review" (Some 2) w' = Raise Http404 w'
     ∧ ∃ t'' w'' row,
         Task_enqueue t' None None w' = Ok t'' w''
         ∧ get_task "review" (Some 2) w'' = Ok row w'')
  ∧ (∃ t' w' row,
       Task_fail ship_row sample_traceback (idle sample_store 20) = Ok t' w'
       ∧ get_task "ship" (Some 1) w' = Ok row w'
       ∧ task_status row = FAILED).
Proof.
  destruct (finish_closes_the_view_of_a_task "review" 2 review_row review_row
              (idle sample_store 20)) as [Hfinish _].
  { split; [reflexivity|]. split; reflexivity. }
  { reflexivity. }
  { lia. }
  destruct (finish_closes_the_view_of_a_task "ship" 1 ship_row ship_row
              (idle sample_store 20)) as [_ Hfail].
  { split; [reflexivity|]. split; reflexivity. }
  { reflexivity. }
  { lia. }
  split.
  - destruct (Hfinish (Some 3)) as (t' & w' & Hrun & Hget & _ & Hagain).
    exists t', w'. split; [exact Hrun|]. split; [exact Hget|].
    destruct (Hagain None None) as (t'' & w'' & row & Henqueue & Hget' & _).
    exists t'', w'', row. split; [exact Henqueue|exact Hget'].
  - apply Hfail. discriminate.
Defined.

(** ** Every call keeps the database consistent *)



Lemma preserves_get_store : preserves get_store.
Proof. intros w Hw. exact Hw. Qed.















































(** ** The key in a URL is read back *)

Lemma digit_is_no_space_or_sign c d :
  digit_value c = Some d ->
  is_int_space c = false ∧ Ascii.eqb c "+" = false ∧ Ascii.eqb c "-" = false.
Proof.
  destruct c as [[|] [|] [|] [|] [|] [|] [|] [|]]; vm_compute; intros H;
    first [discriminate H | now repeat split].
Qed.

Lemma uint_digits d :
  all_chars (fun c => bool_decide (is_Some (digit_value c)))
    (NilEmpty.string_of_uint d) = true.
Proof. induction d; [reflexivity|..]; exact IHd. Qed.

Lemma digits_keep_their_ends s :
  all_chars (fun c => bool_decide (is_Some (digit_value c))) s = true ->
  skip_space s = s ∧ drop_trailing_space s = s.
Proof.
  induction s as [|c s IH]; [now split|]. cbn [all_chars]. intros H.
  apply andb_true_iff in H as [Hc Hs]. apply bool_decide_eq_true in Hc as [d Hd].
  destruct (digit_is_no_space_or_sign c d Hd) as (Hsp & _).
  destruct (IH Hs) as [_ IH2].
  cbn [skip_space drop_trailing_space]. rewrite Hsp, IH2.
  split; [reflexivity|]. now destruct s.
Qed.

Lemma digits_value_acc d acc :
  digits_value (NilEmpty.string_of_uint d) (Z.pos acc) true
  = Some (Z.pos (Pos.of_uint_acc d acc)).
Proof.
  revert acc. induction d; intros acc; [reflexivity|..];
    cbn [NilEmpty.string_of_uint digits_value Pos.of_uint_acc];
    match goal with
    | |- context [ digit_value ?c ] =>
        let v := eval vm_compute in (digit_value c) in
        change (digit_value c) with v
    end;
    cbv iota; rewrite <- IHd; f_equal; lia.
Qed.

Lemma digits_value_uint d b :
  d ≠ Decimal.Nil ->
  digits_value (NilEmpty.string_of_uint d) 0 b = Some (Z.of_N (Pos.of_uint d)).
Proof.
  revert b. induction d; intros b Hd; [contradiction|..];
    cbn [NilEmpty.string_of_uint digits_value Pos.of_uint];
    match goal with
    | |- context [ digit_value ?c ] =>
        let v := eval vm_compute in (digit_value c) in
        change (digit_value c) with v
    end;
    cbv iota.
  1:{ destruct d; [reflexivity|..]; now apply IHd. }
  all: exact (digits_value_acc d _).
Qed.

Lemma int_of_text_uint d :
  d ≠ Decimal.Nil ->
  int_of_text (NilEmpty.string_of_uint d) = Some (Z.of_N (Pos.of_uint d))
  ∧ int_of_text (String "-" (NilEmpty.string_of_uint d))
    = Some (- Z.of_N (Pos.of_uint d)).
Proof.
  intros Hd. pose proof (uint_digits d) as Hall.
  destruct (digits_keep_their_ends _ Hall) as [Hskip Hdrop].
  pose proof (digits_value_uint d false Hd) as Hvalue.
  unfold int_of_text. cbn [skip_space]. change (is_int_space "-") with false. cbv iota.
  cbn [drop_trailing_space]. rewrite Hskip, Hdrop.
  destruct (NilEmpty.string_of_uint d) as [|c s] eqn:E; [now destruct d|].
  cbn [all_chars] in Hall. apply andb_true_iff in Hall as [Hc _].
  apply bool_decide_eq_true in Hc as [v Hv].
  destruct (digit_is_no_space_or_sign c v Hv) as (_ & Hplus & Hminus).
  rewrite Hplus, Hminus. split; [exact Hvalue|].
  change (Ascii.eqb "-" "+") with false. change (Ascii.eqb "-" "-") with true.
  cbv iota. now rewrite Hvalue.
Qed.

Lemma int_of_text_str_of_Z k : int_of_text (str_of_Z k) = Some k.
Proof.
  unfold str_of_Z. destruct k as [|p|p]; [reflexivity|..];
    cbn [Z.to_int NilZero.string_of_int]; unfold NilZero.string_of_uint;
    pose proof (Unsigned.to_uint_nonnil p) as Hp;
    destruct (int_of_text_uint (Pos.to_uint p) Hp) as [Hpos Hneg];
    rewrite Unsigned.of_to in Hpos, Hneg;
    destruct (Pos.to_uint p); first [contradiction | assumption].
Qed.

(** X20.  The key that this code writes into a URL is the key the view reads
    from it.  [reverse] puts [str(pk)] into the route; for every key [k] in
    the range of the column, [int] reads that text back as [k], so the view
    that is addressed with it is the view on the key [k], and on a well-formed
    store the view of an open task, addressed with the text of the key of
    that task, finds the task.  The URL of an instance that was never saved
    carries the text [None], which is no numeral: the view that is addressed
    with it raises [ValueError], not the 404 error. *)
Theorem pk_of_a_url_is_read_back (name : string) (w : World) :
  (∀ k, int64 k = true -> int_of_text (pk_text (Some k)) = Some k)
  ∧ (∀ k, int64 k = true ->
       TaskViewMixin.get_task name (Some (pk_text (Some k))) w
       = get_task name (Some k) w
       ∧ TaskViewMixin.get_object name (Some (pk_text (Some k))) w
         = get_object name (Some k) w)
  ∧ (∀ k t, store_wf (store w) -> int64 k = true -> open_task w name k t ->
       TaskViewMixin.get_task name (Some (pk_text (task_pk t))) w = Ok t w)
  ∧ TaskViewMixin.get_task name (Some (pk_text None)) w = Raise ValueError w
  ∧ TaskViewMixin.get_object name (Some (pk_text None)) w = Raise ValueError w.
Proof.
  assert (∀ k, int64 k = true ->
            TaskViewMixin.get_task name (Some (pk_text (Some k))) w
            = get_task name (Some k) w
            ∧ TaskViewMixin.get_object name (Some (pk_text (Some k))) w
              = get_object name (Some k) w) as Hread.
  { intros k Hk.
    destruct (text_get_task_numeral name (pk_text (Some k)) k) as (H1 & H2 & _);
      [apply int_of_text_str_of_Z|exact Hk|].
    now rewrite H1, H2. }
  split; [|split; [exact Hread|split; [|split]]].
  - intros k _. apply int_of_text_str_of_Z.
  - intros k t Hwf Hk Hopen. pose proof Hopen as (Hrow & _).
    destruct (wf_task_keys _ Hwf _ _ Hrow) as [-> _].
    destruct (Hread k Hk) as [-> _]. cbn [get_task].
    now apply get_object_or_404_found.
  - reflexivity.
  - reflexivity.
Qed.
